(** * Reference-counted ownership: [SharedPtr], [WeakPtr] and their control blocks

    A shallow embedding of [smart_pointers.h].  Control blocks live in a heap
    indexed by the identity of their allocation; owner objects (variables and
    temporaries) live in two stores indexed by name, so that references
    ([const SharedPtr&], [SharedPtr&&], [this]) are names and aliasing is
    what it is in the program.  The calls made to the caller-supplied
    capabilities (deleter, allocator) are recorded in a trace.

    What the model fixes:
    - [size_t] is 64 bits wide, and its arithmetic wraps;
    - every allocation has an identity of its own, never handed out again;
      whether an allocation succeeds is an input of the operation;
    - deleters and allocators are opaque: a call is recorded.  The
      operations take the destructor of a managed object to run no
      operation on an owner, the constructor of the managed object and the
      copies of the deleter and of the allocator not to throw, and a
      pointer to keep its address when it is converted to the pointer type
      of an owner.  Objects that hold owners ([destroy_ptr_nested],
      [SharedPtr_dtor_nested]) and construction from a pointer whose
      conversion changes the address ([SharedPtr_from_raw_converting]) are
      modelled after the operations;
    - dereferencing a null or dangling block pointer, and using an owner
      object outside its lifetime, are undefined behaviour. *)

From stdpp Require Import base numbers option list gmap fin_maps.

Open Scope Z_scope.

(** ** [size_t] *)

Definition size_t_modulus : Z := 2 ^ 64.

(** [n++] on a [size_t]. *)
Definition size_t_incr (n : Z) : Z := (n + 1) mod size_t_modulus.

(** [n--] on a [size_t]. *)
Definition size_t_decr (n : Z) : Z := (n - 1) mod size_t_modulus.

(** ** Pointers, capabilities, control blocks *)

(** Identity of one control-block allocation: [BaseControlBlock*] is
    [option loc], with [None] for [nullptr]. *)
Definition loc := positive.

(** Name of an owner object (a variable or a temporary). *)
Definition var := nat.

Bind Scope positive_scope with loc.
Bind Scope nat_scope with var.

(** A [T*]: null, the address of an object the caller allocated, or the
    address of the [object] member of a [ControlBlockMakeShared]. *)
Inductive pointer : Type :=
| nullptr
| raw_object (a : positive)
| embedded_object (b : loc).

(** The caller's capabilities are opaque callables, told apart by a tag. *)
Definition Deleter := N.
Definition Alloc := N.

(** [std::default_delete<T>] and [std::allocator<T>]. *)
Definition default_delete : Deleter := 0%N.
Definition default_allocator : Alloc := 0%N.

(** The two concrete control blocks: the members each adds to the base. *)
Inductive BlockVariant : Type :=
| ControlBlockRegular (ptr : pointer) (del : Deleter) (alloc : Alloc)
| ControlBlockMakeShared (alloc : Alloc) (object : Z).

Record BaseControlBlock : Type := mkBlock {
  shared_count : Z;
  weak_count : Z;
  variant : BlockVariant
}.

Definition set_shared_count (n : Z) (blk : BaseControlBlock) : BaseControlBlock :=
  mkBlock n (weak_count blk) (variant blk).

Definition set_weak_count (n : Z) (blk : BaseControlBlock) : BaseControlBlock :=
  mkBlock (shared_count blk) n (variant blk).

Definition set_variant (v : BlockVariant) (blk : BaseControlBlock) : BaseControlBlock :=
  mkBlock (shared_count blk) (weak_count blk) v.

(** ** Owners *)

Record SharedPtr : Type := mkShared {
  ptr : pointer;
  block : option loc
}.

Record WeakPtr : Type := mkWeak {
  wblock : option loc
}.

(** ** Trace of capability calls *)

(** What a virtual method of a control block asks of the outside world. *)
Inductive Call : Type :=
| call_deleter (del : Deleter) (p : pointer)   (* del(ptr) *)
| call_destroy (alloc : Alloc)                 (* allocator_traits::destroy(alloc, &object) *)
| call_deallocate (alloc : Alloc).             (* rebound allocator: deallocate(this, 1) *)

(** One call, made by block [ev_block] whose counters read [ev_shared] and
    [ev_weak] when it was made. *)
Record Event : Type := mkEvent {
  ev_block : loc;
  ev_shared : Z;
  ev_weak : Z;
  ev_call : Call
}.

(** ** Program state *)

Record State : Type := mkState {
  heap : gmap loc BaseControlBlock;   (* allocated control blocks *)
  next : loc;                         (* identity of the next allocation *)
  trace : list Event;                 (* oldest call first *)
  strong : gmap var SharedPtr;        (* live SharedPtr objects *)
  weak : gmap var WeakPtr             (* live WeakPtr objects *)
}.

Definition init : State := mkState ∅ 1%positive [] ∅ ∅.

(** ** Outcomes *)

Inductive result (A : Type) : Type :=
| Ok (a : A) (s : State)     (* normal completion *)
| Throw (s : State)          (* the allocator's failure propagates *)
| Undefined.                 (* undefined behaviour *)

Arguments Ok {A} a s.
Arguments Throw {A} s.
Arguments Undefined {A}.

Definition M (A : Type) : Type := State -> result A.

Global Instance M_ret : MRet M := fun A (a : A) s => Ok a s.

Global Instance M_bind : MBind M := fun A B (k : A -> M B) (c : M A) s =>
  match c s with
  | Ok a s' => k a s'
  | Throw s' => Throw s'
  | Undefined => Undefined
  end.

Definition undefined {A} : M A := fun _ => Undefined.

(** *** Primitive accesses *)

(** [*b] for a block pointer: null and dangling pointers are undefined. *)
Definition deref (b : option loc) : M BaseControlBlock :=
  fun s => match b with
           | None => Undefined
           | Some l => match heap s !! l with
                       | Some blk => Ok blk s
                       | None => Undefined
                       end
           end.

Definition update_block (b : option loc) (f : BaseControlBlock -> BaseControlBlock) : M unit :=
  fun s => match b with
           | None => Undefined
           | Some l =>
               match heap s !! l with
               | Some blk =>
                   Ok tt (mkState (<[l := f blk]> (heap s)) (next s) (trace s) (strong s) (weak s))
               | None => Undefined
               end
           end.

(** Record a call made by block [b], with its counters as they are now. *)
Definition emit (b : option loc) (c : Call) : M unit :=
  fun s => match b with
           | None => Undefined
           | Some l =>
               match heap s !! l with
               | Some blk =>
                   Ok tt (mkState (heap s) (next s)
                            (trace s ++ [mkEvent l (shared_count blk) (weak_count blk) c])
                            (strong s) (weak s))
               | None => Undefined
               end
           end.

(** The allocator's [allocate(1)] for a control block: [ok] tells whether
    it succeeds; the storage it returns is not yet a block. *)
Definition allocate (ok : bool) : M loc :=
  fun s => if ok
           then Ok (next s) (mkState (heap s) (Pos.succ (next s)) (trace s) (strong s) (weak s))
           else Throw s.

(** Placement-new of a block in allocated storage.  The constructor of
    the block moves or copies the deleter and the allocator, and on the
    combined path builds the object from the arguments: they are taken
    not to throw. *)
Definition construct_block (l : loc) (blk : BaseControlBlock) : M unit :=
  fun s => match heap s !! l with
           | None => Ok tt (mkState (<[l := blk]> (heap s)) (next s) (trace s) (strong s) (weak s))
           | Some _ => Undefined
           end.

(** The storage of a block goes back to the allocator. *)
Definition release_storage (b : option loc) : M unit :=
  fun s => match b with
           | None => Undefined
           | Some l =>
               match heap s !! l with
               | Some _ =>
                   Ok tt (mkState (delete l (heap s)) (next s) (trace s) (strong s) (weak s))
               | None => Undefined
               end
           end.

Definition read_shared (x : var) : M SharedPtr :=
  fun s => match strong s !! x with
           | Some v => Ok v s
           | None => Undefined
           end.

Definition write_shared (x : var) (v : SharedPtr) : M unit :=
  fun s => match strong s !! x with
           | Some _ => Ok tt (mkState (heap s) (next s) (trace s) (<[x := v]> (strong s)) (weak s))
           | None => Undefined
           end.

(** The lifetime of a [SharedPtr] object starts, with its members initialised. *)
Definition begin_shared (x : var) (v : SharedPtr) : M unit :=
  fun s => match strong s !! x with
           | None => Ok tt (mkState (heap s) (next s) (trace s) (<[x := v]> (strong s)) (weak s))
           | Some _ => Undefined
           end.

(** The lifetime of a [SharedPtr] object ends. *)
Definition end_shared (x : var) : M unit :=
  fun s => match strong s !! x with
           | Some _ => Ok tt (mkState (heap s) (next s) (trace s) (delete x (strong s)) (weak s))
           | None => Undefined
           end.

Definition read_weak (x : var) : M WeakPtr :=
  fun s => match weak s !! x with
           | Some v => Ok v s
           | None => Undefined
           end.

Definition write_weak (x : var) (v : WeakPtr) : M unit :=
  fun s => match weak s !! x with
           | Some _ => Ok tt (mkState (heap s) (next s) (trace s) (strong s) (<[x := v]> (weak s)))
           | None => Undefined
           end.

Definition begin_weak (x : var) (v : WeakPtr) : M unit :=
  fun s => match weak s !! x with
           | None => Ok tt (mkState (heap s) (next s) (trace s) (strong s) (<[x := v]> (weak s)))
           | Some _ => Undefined
           end.

Definition end_weak (x : var) : M unit :=
  fun s => match weak s !! x with
           | Some _ => Ok tt (mkState (heap s) (next s) (trace s) (strong s) (delete x (weak s)))
           | None => Undefined
           end.

(** A name for a local [SharedPtr] / [WeakPtr] (the [copy] of the
    assignment operators, the temporary of [reset]). *)
Definition local_shared : M var := fun s => Ok (fresh (dom (strong s))) s.
Definition local_weak : M var := fun s => Ok (fresh (dom (weak s))) s.

(** Member-wise assignment to a live owner object. *)
Definition set_ptr (x : var) (p : pointer) : M unit :=
  v ← read_shared x;
  write_shared x (mkShared p (block v)).

Definition set_block (x : var) (b : option loc) : M unit :=
  v ← read_shared x;
  write_shared x (mkShared (ptr v) b).

(** A constructor of [SharedPtr]: the member initialisers, then the body.
    When the body throws, the object never comes to life: its members are
    trivially destroyed and the destructor does not run. *)
Definition constructor_shared (this : var) (members : SharedPtr) (body : M unit) : M unit :=
  fun s => match (begin_shared this members;; body) s with
           | Throw s' =>
               Throw (mkState (heap s') (next s') (trace s') (delete this (strong s')) (weak s'))
           | r => r
           end.

(** [block->shared_count++] and the like. *)
Definition incr_shared_count (b : option loc) : M unit :=
  update_block b (fun blk => set_shared_count (size_t_incr (shared_count blk)) blk).

Definition decr_shared_count (b : option loc) : M unit :=
  update_block b (fun blk => set_shared_count (size_t_decr (shared_count blk)) blk).

Definition incr_weak_count (b : option loc) : M unit :=
  update_block b (fun blk => set_weak_count (size_t_incr (weak_count blk)) blk).

Definition decr_weak_count (b : option loc) : M unit :=
  update_block b (fun blk => set_weak_count (size_t_decr (weak_count blk)) blk).

(** ** The control block's virtual methods *)

(** [destroy_ptr]: the regular block calls the deleter on its pointer and
    nulls it; the combined block destroys [object] in place.  The call is
    recorded; the destructor of the object is taken to run no operation
    on an owner ([destroy_ptr_nested] below is [destroy_ptr] for objects
    that hold owners). *)
Definition destroy_ptr (b : option loc) : M unit :=
  blk ← deref b;
  match variant blk with
  | ControlBlockRegular p del alloc =>
      emit b (call_deleter del p);;
      update_block b (set_variant (ControlBlockRegular nullptr del alloc))
  | ControlBlockMakeShared alloc _ =>
      emit b (call_destroy alloc)
  end.

(** [get_ptr]: the stored pointer, or the address of the embedded object. *)
Definition get_ptr (b : option loc) : M pointer :=
  blk ← deref b;
  match variant blk, b with
  | ControlBlockRegular p _ _, _ => mret p
  | ControlBlockMakeShared _ _, Some l => mret (embedded_object l)
  | ControlBlockMakeShared _ _, None => undefined
  end.

(** [deallocate_block]: the block's storage goes back through the rebound
    allocator. *)
Definition deallocate_block (b : option loc) : M unit :=
  blk ← deref b;
  match variant blk with
  | ControlBlockRegular _ _ alloc => emit b (call_deallocate alloc);; release_storage b
  | ControlBlockMakeShared alloc _ => emit b (call_deallocate alloc);; release_storage b
  end.

(** ** [SharedPtr] *)

(** [swap]: [std::swap] of each member. *)
Definition SharedPtr_swap (this other : var) : M unit :=
  t ← read_shared this;
  o ← read_shared other;
  set_ptr this (ptr o);; set_ptr other (ptr t);;
  set_block this (block o);; set_block other (block t).

Definition SharedPtr_get (this : var) : M pointer :=
  t ← read_shared this; mret (ptr t).

(** [SharedPtr() = default] *)
Definition SharedPtr_default (this : var) : M unit :=
  begin_shared this (mkShared nullptr None).

(** [SharedPtr(U* ptr, Deleter del, Alloc alloc)], where the conversion of
    [ptr] from [U*] to [T*] keeps the address, as it does when [U] is [T]:
    the owner and the block hold the same pointer
    ([SharedPtr_from_raw_converting] below is the constructor when it
    does not). *)
Definition SharedPtr_from_raw (this : var) (p : pointer) (del : Deleter) (alloc : Alloc)
    (ok : bool) : M unit :=
  constructor_shared this (mkShared p None)
    (block_object ← allocate ok;
     construct_block block_object (mkBlock 0 0 (ControlBlockRegular p del alloc));;
     set_block this (Some block_object);;
     t ← read_shared this;
     incr_shared_count (block t)).

(** [use_count] *)
Definition SharedPtr_use_count (this : var) : M Z :=
  t ← read_shared this;
  blk ← deref (block t);
  mret (shared_count blk).

(** [SharedPtr(Alloc alloc, Args&&... args)]: the object is built in place
    from [args]. *)
Definition SharedPtr_in_place (this : var) (alloc : Alloc) (args : Z) (ok : bool) : M unit :=
  constructor_shared this (mkShared nullptr None)
    (new_block ← allocate ok;
     construct_block new_block (mkBlock 0 0 (ControlBlockMakeShared alloc args));;
     set_block this (Some new_block);;
     set_ptr this (embedded_object new_block);;
     t ← read_shared this;
     incr_shared_count (block t)).

(** [SharedPtr(const SharedPtr& other)], also from [SharedPtr<U>] *)
Definition SharedPtr_copy (this other : var) : M unit :=
  o ← read_shared other;
  begin_shared this (mkShared (ptr o) (block o));;
  o ← read_shared other;
  match block o with
  | Some _ => t ← read_shared this; incr_shared_count (block t)
  | None => mret tt
  end.

(** [SharedPtr(SharedPtr&& other)], also from [SharedPtr<U>] *)
Definition SharedPtr_move (this other : var) : M unit :=
  o ← read_shared other;
  begin_shared this (mkShared (ptr o) (block o));;
  set_ptr other nullptr;;
  set_block other None.

(** [SharedPtr(const WeakPtr& weak)] *)
Definition SharedPtr_from_weak (this : var) (w : var) : M unit :=
  wk ← read_weak w;
  p ← get_ptr (wblock wk);
  begin_shared this (mkShared p (wblock wk));;
  t ← read_shared this;
  incr_shared_count (block t).

(** [~SharedPtr] *)
Definition SharedPtr_dtor (this : var) : M unit :=
  (t ← read_shared this;
   match block t with
   | None => mret tt
   | Some _ =>
       decr_shared_count (block t);;
       blk ← deref (block t);
       if decide (shared_count blk ≠ 0) then mret tt
       else
         destroy_ptr (block t);;
         blk ← deref (block t);
         if decide (weak_count blk = 0)
         then deallocate_block (block t);; set_block this None
         else mret tt
   end);;
  end_shared this.

(** [operator=(const SharedPtr& other)], also from [SharedPtr<U>] *)
Definition SharedPtr_assign (this other : var) : M unit :=
  copy ← local_shared;
  SharedPtr_copy copy other;;
  SharedPtr_swap this copy;;
  SharedPtr_dtor copy.

(** [operator=(SharedPtr&& other)], also from [SharedPtr<U>] *)
Definition SharedPtr_move_assign (this other : var) : M unit :=
  copy ← local_shared;
  SharedPtr_move copy other;;
  SharedPtr_swap this copy;;
  SharedPtr_dtor copy.

(** [reset()]: [*this = SharedPtr<T>()] *)
Definition SharedPtr_reset (this : var) : M unit :=
  tmp ← local_shared;
  SharedPtr_default tmp;;
  SharedPtr_move_assign this tmp;;
  SharedPtr_dtor tmp.

(** [reset(new_ptr)]: [*this = SharedPtr<T>(new_ptr)] *)
Definition SharedPtr_reset_to (this : var) (new_ptr : pointer) (ok : bool) : M unit :=
  tmp ← local_shared;
  SharedPtr_from_raw tmp new_ptr default_delete default_allocator ok;;
  SharedPtr_move_assign this tmp;;
  SharedPtr_dtor tmp.

(** [allocateShared] and [makeShared]: the result object is built by the
    in-place constructor. *)
Definition allocateShared (result : var) (alloc : Alloc) (args : Z) (ok : bool) : M unit :=
  SharedPtr_in_place result alloc args ok.

Definition makeShared (result : var) (args : Z) (ok : bool) : M unit :=
  allocateShared result default_allocator args ok.

(** ** [WeakPtr] *)

Definition set_wblock (x : var) (b : option loc) : M unit :=
  write_weak x (mkWeak b).

(** [WeakPtr()] *)
Definition WeakPtr_default (this : var) : M unit :=
  begin_weak this (mkWeak None).

(** [WeakPtr(const SharedPtr& shared)], also from [SharedPtr<U>] *)
Definition WeakPtr_from_shared (this : var) (shared : var) : M unit :=
  sh ← read_shared shared;
  begin_weak this (mkWeak (block sh));;
  t ← read_weak this;
  incr_weak_count (wblock t).

Definition WeakPtr_swap (this other : var) : M unit :=
  t ← read_weak this;
  o ← read_weak other;
  set_wblock this (wblock o);; set_wblock other (wblock t).

Definition WeakPtr_use_count (this : var) : M Z :=
  t ← read_weak this;
  blk ← deref (wblock t);
  mret (shared_count blk).

(** [WeakPtr(const WeakPtr& weak)], also from [WeakPtr<U>] *)
Definition WeakPtr_copy (this other : var) : M unit :=
  o ← read_weak other;
  begin_weak this (mkWeak (wblock o));;
  t ← read_weak this;
  incr_weak_count (wblock t).

(** [WeakPtr(WeakPtr&& weak)], also from [WeakPtr<U>] *)
Definition WeakPtr_move (this other : var) : M unit :=
  o ← read_weak other;
  begin_weak this (mkWeak (wblock o));;
  set_wblock other None.

(** [~WeakPtr] *)
Definition WeakPtr_dtor (this : var) : M unit :=
  (t ← read_weak this;
   match wblock t with
   | None => mret tt
   | Some _ =>
       decr_weak_count (wblock t);;
       blk ← deref (wblock t);
       if decide (shared_count blk = 0 ∧ weak_count blk = 0)
       then deallocate_block (wblock t);; set_wblock this None
       else mret tt
   end);;
  end_weak this.

(** [operator=(const WeakPtr& other)], also from [WeakPtr<U>] *)
Definition WeakPtr_assign (this other : var) : M unit :=
  copy ← local_weak;
  WeakPtr_copy copy other;;
  WeakPtr_swap this copy;;
  WeakPtr_dtor copy.

(** [operator=(WeakPtr&& other)], also from [WeakPtr<U>]: inside the
    operator [other] is an lvalue, so [auto copy = other] is the copy
    constructor. *)
Definition WeakPtr_move_assign (this other : var) : M unit :=
  copy ← local_weak;
  WeakPtr_copy copy other;;
  WeakPtr_swap this copy;;
  WeakPtr_dtor copy.

(** [expired] *)
Definition WeakPtr_expired (this : var) : M bool :=
  t ← read_weak this;
  blk ← deref (wblock t);
  mret (bool_decide (shared_count blk = 0)).

(** [lock]: the returned owner is built in [result]. *)
Definition WeakPtr_lock (result : var) (this : var) : M unit :=
  WeakPtr_expired this ≫= λ e : bool,
    if e then SharedPtr_default result else SharedPtr_from_weak result this.

(** ** Programs: sequences of operations on named owners *)

Inductive Op : Type :=
| OpSharedDefault (x : var)
| OpSharedFromRaw (x : var) (p : pointer) (del : Deleter) (alloc : Alloc) (ok : bool)
| OpAllocateShared (x : var) (alloc : Alloc) (args : Z) (ok : bool)
| OpMakeShared (x : var) (args : Z) (ok : bool)
| OpSharedCopy (x y : var)
| OpSharedMove (x y : var)
| OpSharedFromWeak (x w : var)
| OpSharedAssign (x y : var)
| OpSharedMoveAssign (x y : var)
| OpSharedReset (x : var)
| OpSharedResetTo (x : var) (p : pointer) (ok : bool)
| OpSharedSwap (x y : var)
| OpSharedDestroy (x : var)
| OpWeakDefault (w : var)
| OpWeakFromShared (w x : var)
| OpWeakCopy (w v : var)
| OpWeakMove (w v : var)
| OpWeakAssign (w v : var)
| OpWeakMoveAssign (w v : var)
| OpWeakSwap (w v : var)
| OpWeakLock (x w : var)
| OpWeakDestroy (w : var).

Definition step (op : Op) : M unit :=
  match op with
  | OpSharedDefault x => SharedPtr_default x
  | OpSharedFromRaw x p del alloc ok => SharedPtr_from_raw x p del alloc ok
  | OpAllocateShared x alloc args ok => allocateShared x alloc args ok
  | OpMakeShared x args ok => makeShared x args ok
  | OpSharedCopy x y => SharedPtr_copy x y
  | OpSharedMove x y => SharedPtr_move x y
  | OpSharedFromWeak x w => SharedPtr_from_weak x w
  | OpSharedAssign x y => SharedPtr_assign x y
  | OpSharedMoveAssign x y => SharedPtr_move_assign x y
  | OpSharedReset x => SharedPtr_reset x
  | OpSharedResetTo x p ok => SharedPtr_reset_to x p ok
  | OpSharedSwap x y => SharedPtr_swap x y
  | OpSharedDestroy x => SharedPtr_dtor x
  | OpWeakDefault w => WeakPtr_default w
  | OpWeakFromShared w x => WeakPtr_from_shared w x
  | OpWeakCopy w v => WeakPtr_copy w v
  | OpWeakMove w v => WeakPtr_move w v
  | OpWeakAssign w v => WeakPtr_assign w v
  | OpWeakMoveAssign w v => WeakPtr_move_assign w v
  | OpWeakSwap w v => WeakPtr_swap w v
  | OpWeakLock x w => WeakPtr_lock x w
  | OpWeakDestroy w => WeakPtr_dtor w
  end.

(** The state an operation leaves: a caller that catches the allocator's
    failure goes on from the state at the throw. *)
Definition after {A} (r : result A) : option State :=
  match r with
  | Ok _ s => Some s
  | Throw s => Some s
  | Undefined => None
  end.

Fixpoint run (ops : list Op) (s : State) : option State :=
  match ops with
  | [] => Some s
  | op :: ops' =>
      match after (step op s) with
      | Some s' => run ops' s'
      | None => None
      end
  end.

(** The object behind a block pointer is alive: [shared_count > 0]. *)
Definition object_alive (ob : option BaseControlBlock) : bool :=
  match ob with
  | Some blk => bool_decide (shared_count blk ≠ 0)
  | None => false
  end.

Definition alive (b : option loc) (s : State) : bool :=
  match b with
  | Some l => object_alive (heap s !! l)
  | None => false
  end.

(** The caller's side of the contract, for the block [l]: a [SharedPtr]
    is built directly from a [WeakPtr] bound to [l] only while the object
    of [l] is alive. [lock] is no such construction: it checks [expired]
    itself. *)
Definition precondition (l : loc) (op : Op) (s : State) : bool :=
  match op with
  | OpSharedFromWeak _ w =>
      match weak s !! w with
      | Some wk => if decide (wblock wk = Some l) then alive (Some l) s else true
      | None => true
      end
  | _ => true
  end.

(** The program [ops], run from [s], keeps the contract for the block [l]. *)
Fixpoint within_contract (l : loc) (ops : list Op) (s : State) : Prop :=
  match ops with
  | [] => True
  | op :: ops' =>
      precondition l op s = true ∧
      match after (step op s) with
      | Some s' => within_contract l ops' s'
      | None => True
      end
  end.

(** ** Counting the owners bound to a block *)

(** Number of objects of a store whose block pointer, read by [f], is [l]. *)
Definition refs {V : Type} (f : V -> option loc) (l : loc) (m : gmap var V) : nat :=
  size (filter (λ kv : var * V, f kv.2 = Some l) m).

Definition strong_refs (l : loc) (s : State) : nat := refs block l (strong s).
Definition weak_refs (l : loc) (s : State) : nat := refs wblock l (weak s).

(** Number of live owner objects. *)
Definition owners (s : State) : nat := (size (strong s) + size (weak s))%nat.

(** ** Reading the trace *)

Definition is_teardown (e : Event) : bool :=
  match ev_call e with
  | call_deleter _ _ | call_destroy _ => true
  | call_deallocate _ => false
  end.

Definition is_deallocation (e : Event) : bool :=
  match ev_call e with
  | call_deallocate _ => true
  | _ => false
  end.

(** The calls block [l] made, oldest first. *)
Definition calls_of (l : loc) (tr : list Event) : list Event :=
  filter (λ e, ev_block e = l) tr.

(** The calls of [destroy_ptr] on [l], and those of [deallocate_block]. *)
Definition teardowns (l : loc) (tr : list Event) : list Event :=
  filter (λ e, is_teardown e = true) (calls_of l tr).

Definition deallocations (l : loc) (tr : list Event) : list Event :=
  filter (λ e, is_deallocation e = true) (calls_of l tr).

(** ** Vocabulary of the closed forms *)

(** The state with one store replaced. *)
Definition set_strong (m : gmap var SharedPtr) (s : State) : State :=
  mkState (heap s) (next s) (trace s) m (weak s).

Definition set_weak (m : gmap var WeakPtr) (s : State) : State :=
  mkState (heap s) (next s) (trace s) (strong s) m.

(** The capability call [destroy_ptr] makes, the members it leaves, and
    the call [deallocate_block] makes. *)
Definition teardown_call (v : BlockVariant) : Call :=
  match v with
  | ControlBlockRegular p del _ => call_deleter del p
  | ControlBlockMakeShared alloc _ => call_destroy alloc
  end.

Definition torn_down (v : BlockVariant) : BlockVariant :=
  match v with
  | ControlBlockRegular _ del alloc => ControlBlockRegular nullptr del alloc
  | ControlBlockMakeShared alloc object => ControlBlockMakeShared alloc object
  end.

Definition deallocate_call (v : BlockVariant) : Call :=
  match v with
  | ControlBlockRegular _ _ alloc => call_deallocate alloc
  | ControlBlockMakeShared alloc _ => call_deallocate alloc
  end.

(** What [get_ptr] returns for block [l]. *)
Definition object_of (l : loc) (v : BlockVariant) : pointer :=
  match v with
  | ControlBlockRegular p _ _ => p
  | ControlBlockMakeShared _ _ => embedded_object l
  end.

(** ** The invariant of the counting discipline *)

(** The identity [l] has been handed out by the allocator. *)
Definition allocated (l : loc) (s : State) : bool := bool_decide (l < next s)%positive.

(** Each count of an allocated block is the number of owners bound to the
    block, and at least one owner is; no owner is bound to storage that is
    not a block. *)
Definition block_counts_ok (ob : option BaseControlBlock) (sr wr : nat) (al : bool) : Prop :=
  match ob with
  | Some blk =>
      shared_count blk = Z.of_nat sr ∧ weak_count blk = Z.of_nat wr ∧
      (0 < sr + wr)%nat ∧ al = true
  | None => sr = 0%nat ∧ wr = 0%nat
  end.

(** A teardown recorded with a zero [shared_count]; a deallocation
    recorded with both counts zero. *)
Definition teardown_at_zero (e : Event) : Prop :=
  is_teardown e = true ∧ ev_shared e = 0.

Definition deallocation_at_zero (e : Event) : Prop :=
  is_deallocation e = true ∧ ev_shared e = 0 ∧ ev_weak e = 0.

(** The calls of a block are teardowns, then at most one deallocation:
    none while the block is allocated, one once it is freed. *)
Definition block_calls_ok (ob : option BaseControlBlock) (cs : list Event) (al : bool) : Prop :=
  ∃ tds ds,
    cs = tds ++ ds ∧
    Forall teardown_at_zero tds ∧
    Forall deallocation_at_zero ds ∧
    match ob with
    | Some blk => ds = [] ∧ (shared_count blk = 0 -> tds ≠ [])
    | None => if al then tds ≠ [] ∧ length ds = 1%nat else tds = [] ∧ ds = []
    end.

(** [destroy_ptr] has run on a block exactly when the block was created
    and its object is no longer alive, and then once. *)
Definition block_torn_once (ob : option BaseControlBlock) (cs : list Event) (al : bool) : Prop :=
  length (filter (λ e, is_teardown e = true) cs) =
  if al && negb (object_alive ob) then 1%nat else 0%nat.

(** A block created with members [v0] keeps them while its object is
    alive, and its teardown is the call [v0] asks for. *)
Definition block_origin_ok (v0 : BlockVariant) (ob : option BaseControlBlock)
    (cs : list Event) (al : bool) : Prop :=
  al = true ∧
  (∀ blk, ob = Some blk -> shared_count blk ≠ 0 -> variant blk = v0) ∧
  Forall (λ e, is_teardown e = true -> ev_call e = teardown_call v0) cs.

(** [og] names the members a block was created with, where that is known. *)
Definition block_ok (strict : bool) (og : option BlockVariant)
    (ob : option BaseControlBlock) (sr wr : nat) (cs : list Event) (al : bool) : Prop :=
  block_counts_ok ob sr wr al ∧ block_calls_ok ob cs al ∧
  (strict = true -> block_torn_once ob cs al) ∧
  (strict = true -> ∀ v0, og = Some v0 -> block_origin_ok v0 ob cs al).

(** The invariant: [strict] tells the blocks for which the contract is
    kept, and so what only holds within the contract; [Ω] tracks the
    members some blocks were created with. *)
Definition Inv (strict : loc -> bool) (Ω : loc -> option BlockVariant) (s : State) : Prop :=
  ∀ l, block_ok (strict l) (Ω l) (heap s !! l) (strong_refs l s) (weak_refs l s)
         (calls_of l (trace s)) (allocated l s).

(** The contract is asked of no block, or of the block [l] alone. *)
Definition no_block : loc -> bool := λ _, false.
Definition only (l : loc) : loc -> bool := λ l', bool_decide (l' = l).

(** Nothing is known of the blocks to come. *)
Definition no_origin : loc -> option BlockVariant := λ _, None.

(** Room for one more owner before a count can wrap. *)
Definition bounded (s : State) : Prop := Z.of_nat (owners s) + 1 < size_t_modulus.

(** The invariant with a bound on the number of owner objects. *)
Definition Inv_at (strict : loc -> bool) (Ω : loc -> option BlockVariant) (n : nat)
    (s : State) : Prop :=
  Inv strict Ω s ∧ (owners s ≤ n)%nat.

(** ** Reasoning about sequences of operations *)

(** [triple P c Q E]: from a state of [P], [c] ends in [Q], or throws
    leaving [E]. *)
Definition triple {A} (P : State -> Prop) (c : M A) (Q : A -> State -> Prop)
    (E : State -> Prop) : Prop :=
  ∀ s, P s ->
    match c s with
    | Ok a s' => Q a s'
    | Throw s' => E s'
    | Undefined => True
    end.

(** [s] comes after [s0]: the trace has grown, the allocator's mark has not
    gone back. *)
Definition extends (s0 s : State) : Prop :=
  (next s0 ≤ next s)%positive ∧ ∃ es, trace s = trace s0 ++ es.

(** ** Two programs: the last [WeakPtr] goes first, or the last [SharedPtr] *)

Definition scenario_weak_first : list Op :=
  [OpMakeShared 0 42 true; OpWeakFromShared 0 0; OpWeakDestroy 0; OpSharedDestroy 0].

Definition scenario_strong_first : list Op :=
  [OpMakeShared 0 42 true; OpSharedCopy 1 0; OpSharedDestroy 0; OpWeakFromShared 5 1;
   OpSharedDestroy 1].

(** ** Objects handed in by raw pointer *)

(** The object behind [p] has been handed to a deleter. *)
Definition deleted (p : pointer) (tr : list Event) : Prop :=
  ∃ e del, e ∈ tr ∧ ev_call e = call_deleter del p.

(** A regular control block for [p] exists. *)
Definition managed (p : pointer) (s : State) : Prop :=
  ∃ l blk del alloc, heap s !! l = Some blk ∧ variant blk = ControlBlockRegular p del alloc.

(** ** What a destructor does to the blocks *)

(** The heap and the trace [~SharedPtr] leaves, for an owner holding [t];
    [None] where the destructor dereferences a dangling block pointer. *)
Definition release_shared (t : SharedPtr) (h : gmap loc BaseControlBlock)
    (tr : list Event) : option (gmap loc BaseControlBlock * list Event) :=
  match block t with
  | None => Some (h, tr)
  | Some l =>
      match h !! l with
      | None => None
      | Some blk =>
          let n := size_t_decr (shared_count blk) in
          if decide (n ≠ 0) then Some (<[l := set_shared_count n blk]> h, tr)
          else
            let td := mkEvent l n (weak_count blk) (teardown_call (variant blk)) in
            if decide (weak_count blk = 0)
            then Some (delete l h,
                       tr ++ [td; mkEvent l n 0 (deallocate_call (variant blk))])
            else Some (<[l := mkBlock n (weak_count blk) (torn_down (variant blk))]> h,
                       tr ++ [td])
      end
  end.

(** The heap and the trace [~WeakPtr] leaves, for an observer holding [t]. *)
Definition release_weak (t : WeakPtr) (h : gmap loc BaseControlBlock)
    (tr : list Event) : option (gmap loc BaseControlBlock * list Event) :=
  match wblock t with
  | None => Some (h, tr)
  | Some l =>
      match h !! l with
      | None => None
      | Some blk =>
          let n := size_t_decr (weak_count blk) in
          if decide (shared_count blk = 0 ∧ n = 0)
          then Some (delete l h,
                     tr ++ [mkEvent l (shared_count blk) n (deallocate_call (variant blk))])
          else Some (<[l := set_weak_count n blk]> h, tr)
      end
  end.

(** ** The pointer member *)

(** [operator->] *)
Definition SharedPtr_arrow (this : var) : M pointer :=
  t ← read_shared this; mret (ptr t).

(** The [ptr] member of every empty owner is null. *)
Definition null_when_empty (s : State) : Prop :=
  ∀ x v, strong s !! x = Some v -> block v = None -> ptr v = nullptr.

(** ** Construction from a pointer of another type *)

(** [SharedPtr<T>(U* ptr, Deleter del, Alloc alloc)] where [U] is not [T]:
    the member [T* ptr] is initialised with the argument converted to
    [T*], [as_T], which is another address when [T] is a base of [U] that
    does not come first in it; the block keeps the [U*] itself, [p].
    [SharedPtr_from_raw] is the case where the conversion keeps the
    address. *)
Definition SharedPtr_from_raw_converting (this : var) (p as_T : pointer) (del : Deleter)
    (alloc : Alloc) (ok : bool) : M unit :=
  constructor_shared this (mkShared as_T None)
    (block_object ← allocate ok;
     construct_block block_object (mkBlock 0 0 (ControlBlockRegular p del alloc));;
     set_block this (Some block_object);;
     t ← read_shared this;
     incr_shared_count (block t)).

(** ** Managed objects that hold owners *)

(** [destroy_ptr] above records the call of the deleter, or of [destroy],
    and takes the destructor of the managed object to run no operation on
    an owner.  An object may hold owners as data members; its destructor
    then destroys them, in the middle of [destroy_ptr]. *)

(** An owner stored in a managed object. *)
Inductive Member : Type :=
| member_shared (x : var)
| member_weak (w : var).

(** The owners stored in the object at an address, in the order in which
    the destructor of the object destroys them. *)
Definition Layout : Type := pointer -> list Member.

(** No object holds an owner. *)
Definition plain : Layout := λ _, [].

(** The destructor of an object with the members [ms]; [dtor] is
    [~SharedPtr]. *)
Fixpoint destroy_members (dtor : var -> M unit) (ms : list Member) : M unit :=
  match ms with
  | [] => mret tt
  | member_shared x :: ms' => dtor x;; destroy_members dtor ms'
  | member_weak w :: ms' => WeakPtr_dtor w;; destroy_members dtor ms'
  end.

(** [destroy_ptr] with the destructor of the object: [del(ptr)] destroys
    the object [ptr] points at before [ptr = nullptr]; [destroy] destroys
    [object]. *)
Definition destroy_ptr_nested (dtor : var -> M unit) (layout : Layout)
    (b : option loc) : M unit :=
  blk ← deref b;
  match variant blk, b with
  | ControlBlockRegular p del alloc, _ =>
      emit b (call_deleter del p);;
      destroy_members dtor (layout p);;
      update_block b (set_variant (ControlBlockRegular nullptr del alloc))
  | ControlBlockMakeShared alloc _, Some l =>
      emit b (call_destroy alloc);;
      destroy_members dtor (layout (embedded_object l))
  | ControlBlockMakeShared _ _, None => undefined
  end.

(** [~SharedPtr] with [dtor] for the [SharedPtr] members of the objects it
    destroys. *)
Definition SharedPtr_dtor_with (dtor : var -> M unit) (layout : Layout)
    (this : var) : M unit :=
  (t ← read_shared this;
   match block t with
   | None => mret tt
   | Some _ =>
       decr_shared_count (block t);;
       blk ← deref (block t);
       if decide (shared_count blk ≠ 0) then mret tt
       else
         destroy_ptr_nested dtor layout (block t);;
         blk ← deref (block t);
         if decide (weak_count blk = 0)
         then deallocate_block (block t);; set_block this None
         else mret tt
   end);;
  end_shared this.

(** [~SharedPtr]: [fuel] bounds how deep objects holding a [SharedPtr] to
    another object nest; beyond it the result is not computed, and given
    as [Undefined]. *)
Fixpoint SharedPtr_dtor_nested (fuel : nat) (layout : Layout) (this : var) : M unit :=
  SharedPtr_dtor_with
    (match fuel with
     | O => λ _, undefined
     | S fuel' => SharedPtr_dtor_nested fuel' layout
     end) layout this.

(** A [Node] with one member, [WeakPtr<Node> self], named [5]: the object
    at [raw_object 7], and the object embedded in the block [1]. *)
Definition node_layout : Layout := λ p,
  match p with
  | raw_object 7 => [member_weak 5]
  | embedded_object 1 => [member_weak 5]
  | _ => []
  end.

(** Two programs that end with one [SharedPtr], [0], bound to the block
    of a [Node] whose member [self] is bound to the same block:
    [Node* n = new Node; SharedPtr<Node> sp(n); n->self = sp;] and
    [auto sp = makeShared<Node>(); sp->self = sp;].  The assignment builds
    a temporary [WeakPtr], [6], from [sp]. *)
Definition node_from_raw : list Op :=
  [OpWeakDefault 5;
   OpSharedFromRaw 0 (raw_object 7) default_delete default_allocator true;
   OpWeakFromShared 6 0; OpWeakMoveAssign 5 6; OpWeakDestroy 6].

Definition node_in_place : list Op :=
  [OpMakeShared 0 42 true; OpWeakDefault 5;
   OpWeakFromShared 6 0; OpWeakMoveAssign 5 6; OpWeakDestroy 6].

(** * Properties *)

(** ** Counting the owners bound to a block *)

Section refs.
Context {V : Type} (f : V -> option loc).

Lemma refs_empty l : refs f l ∅ = 0%nat.
Proof. unfold refs. by rewrite map_filter_empty, map_size_empty. Qed.

Lemma refs_insert_fresh l x v m :
  m !! x = None ->
  refs f l (<[x := v]> m) = if decide (f v = Some l) then S (refs f l m) else refs f l m.
Proof.
  intros Hx. unfold refs. case_decide as Hv.
  - rewrite map_filter_insert_True by done.
    apply map_size_insert_None. by rewrite map_lookup_filter_None; left.
  - rewrite map_filter_insert_False by done. by rewrite delete_id.
Qed.

Lemma refs_delete l x v m :
  m !! x = Some v ->
  refs f l m = if decide (f v = Some l) then S (refs f l (delete x m)) else refs f l (delete x m).
Proof.
  intros Hx. rewrite <- (insert_id m x v) at 1 by done.
  rewrite <- insert_delete_eq. rewrite refs_insert_fresh by apply lookup_delete_eq.
  done.
Qed.

Lemma refs_overwrite l x v0 v m :
  m !! x = Some v0 ->
  (refs f l (<[x := v]> m) + (if decide (f v0 = Some l) then 1 else 0) =
   refs f l m + (if decide (f v = Some l) then 1 else 0))%nat.
Proof.
  intros Hx. rewrite <- insert_delete_eq.
  rewrite refs_insert_fresh by apply lookup_delete_eq.
  rewrite (refs_delete l x v0 m Hx).
  repeat case_decide; lia.
Qed.

Lemma refs_le_size l m : (refs f l m ≤ size m)%nat.
Proof. unfold refs. apply map_subseteq_size, map_filter_subseteq. Qed.

Lemma refs_lookup_pos l x v m :
  m !! x = Some v -> f v = Some l -> (0 < refs f l m)%nat.
Proof.
  intros Hx Hv. rewrite (refs_delete l x v m Hx). rewrite decide_True by done. lia.
Qed.
End refs.

(** ** What each operation does, in closed form *)

Arguments size_t_incr : simpl never.
Arguments size_t_decr : simpl never.

Ltac unfold_M := unfold mbind, M_bind, mret, M_ret, undefined in *.

Ltac unfold_prims :=
  unfold incr_shared_count, decr_shared_count, incr_weak_count, decr_weak_count,
    destroy_ptr, get_ptr, deallocate_block, set_block, set_ptr, set_wblock,
    begin_shared, end_shared, read_shared, write_shared,
    begin_weak, end_weak, read_weak, write_weak,
    update_block, emit, release_storage, construct_block, allocate, deref in *.

Ltac unfold_sets := unfold set_strong, set_weak in *.

Ltac exec :=
  repeat first
    [ rewrite lookup_insert_eq
    | rewrite lookup_delete_eq
    | rewrite lookup_insert_ne by congruence
    | rewrite lookup_delete_ne by congruence
    | match goal with
      | H : ?m !! ?k = _ |- context [?m !! ?k] => rewrite H
      end
    | progress simpl ].

Lemma state_eta s : mkState (heap s) (next s) (trace s) (strong s) (weak s) = s.
Proof. by destruct s. Qed.

Lemma SharedPtr_default_eq x s :
  SharedPtr_default x s =
  match strong s !! x with
  | Some _ => Undefined
  | None => Ok tt (set_strong (<[x := mkShared nullptr None]> (strong s)) s)
  end.
Proof. reflexivity. Qed.

Lemma SharedPtr_from_raw_eq x p del alloc ok s :
  SharedPtr_from_raw x p del alloc ok s =
  match strong s !! x with
  | Some _ => Undefined
  | None =>
      if ok then
        match heap s !! next s with
        | Some _ => Undefined
        | None =>
            Ok tt (mkState (<[next s := mkBlock 1 0 (ControlBlockRegular p del alloc)]> (heap s))
                     (Pos.succ (next s)) (trace s)
                     (<[x := mkShared p (Some (next s))]> (strong s)) (weak s))
        end
      else Throw s
  end.
Proof.
  unfold SharedPtr_from_raw, constructor_shared. unfold_prims. unfold_M. simpl.
  destruct (strong s !! x) eqn:Hx; [done|].
  destruct ok; simpl.
  - destruct (heap s !! next s) eqn:Hn; [done|]. exec.
    by rewrite !insert_insert_eq.
  - rewrite delete_insert_id by done. by rewrite state_eta.
Qed.

Lemma SharedPtr_in_place_eq x alloc args ok s :
  SharedPtr_in_place x alloc args ok s =
  match strong s !! x with
  | Some _ => Undefined
  | None =>
      if ok then
        match heap s !! next s with
        | Some _ => Undefined
        | None =>
            Ok tt (mkState (<[next s := mkBlock 1 0 (ControlBlockMakeShared alloc args)]> (heap s))
                     (Pos.succ (next s)) (trace s)
                     (<[x := mkShared (embedded_object (next s)) (Some (next s))]> (strong s))
                     (weak s))
        end
      else Throw s
  end.
Proof.
  unfold SharedPtr_in_place, constructor_shared. unfold_prims. unfold_M. simpl.
  destruct (strong s !! x) eqn:Hx; [done|].
  destruct ok; simpl.
  - destruct (heap s !! next s) eqn:Hn; [done|]. exec.
    by rewrite !insert_insert_eq.
  - rewrite delete_insert_id by done. by rewrite state_eta.
Qed.

Lemma SharedPtr_copy_eq x y s :
  SharedPtr_copy x y s =
  match strong s !! y, strong s !! x with
  | Some o, None =>
      match block o with
      | None => Ok tt (set_strong (<[x := o]> (strong s)) s)
      | Some l =>
          match heap s !! l with
          | Some blk =>
              Ok tt (mkState
                       (<[l := set_shared_count (size_t_incr (shared_count blk)) blk]> (heap s))
                       (next s) (trace s) (<[x := o]> (strong s)) (weak s))
          | None => Undefined
          end
      end
  | _, _ => Undefined
  end.
Proof.
  unfold SharedPtr_copy. unfold_prims. unfold_M. simpl.
  destruct (strong s !! y) as [[p b]|] eqn:Hy; [|done]. simpl.
  destruct (strong s !! x) eqn:Hx; [done|]. simpl.
  assert (x ≠ y) by congruence.
  rewrite lookup_insert_ne by done. rewrite Hy. simpl.
  destruct b as [l|]; [|done]. exec.
  by destruct (heap s !! l).
Qed.

Lemma SharedPtr_move_eq x y s :
  SharedPtr_move x y s =
  match strong s !! y, strong s !! x with
  | Some o, None =>
      Ok tt (set_strong (<[y := mkShared nullptr None]> (<[x := o]> (strong s))) s)
  | _, _ => Undefined
  end.
Proof.
  unfold SharedPtr_move. unfold_prims. unfold_M. simpl.
  destruct (strong s !! y) as [[p b]|] eqn:Hy; [|done]. simpl.
  destruct (strong s !! x) eqn:Hx; [done|]. simpl.
  assert (x ≠ y) by congruence.
  rewrite lookup_insert_ne by done. rewrite Hy. exec.
  by rewrite insert_insert_eq.
Qed.

Lemma SharedPtr_from_weak_eq x w s :
  SharedPtr_from_weak x w s =
  match weak s !! w with
  | Some (mkWeak (Some l)) =>
      match heap s !! l, strong s !! x with
      | Some blk, None =>
          Ok tt (mkState
                   (<[l := set_shared_count (size_t_incr (shared_count blk)) blk]> (heap s))
                   (next s) (trace s)
                   (<[x := mkShared (object_of l (variant blk)) (Some l)]> (strong s)) (weak s))
      | _, _ => Undefined
      end
  | _ => Undefined
  end.
Proof.
  unfold SharedPtr_from_weak. unfold_prims. unfold_M. simpl.
  destruct (weak s !! w) as [[[l|]]|] eqn:Hw; try done. simpl.
  destruct (heap s !! l) as [[sc wc v]|] eqn:Hl; [|done]. simpl.
  destruct v; simpl; destruct (strong s !! x) eqn:Hx; try done; exec; done.
Qed.

Lemma SharedPtr_dtor_eq x s :
  SharedPtr_dtor x s =
  match strong s !! x with
  | None => Undefined
  | Some v =>
      match block v with
      | None => Ok tt (set_strong (delete x (strong s)) s)
      | Some l =>
          match heap s !! l with
          | None => Undefined
          | Some blk =>
              let n := size_t_decr (shared_count blk) in
              if decide (n ≠ 0)
              then Ok tt (mkState (<[l := set_shared_count n blk]> (heap s)) (next s) (trace s)
                            (delete x (strong s)) (weak s))
              else
                let td := mkEvent l n (weak_count blk) (teardown_call (variant blk)) in
                if decide (weak_count blk = 0)
                then Ok tt (mkState (delete l (heap s)) (next s)
                              (trace s ++ [td; mkEvent l n 0 (deallocate_call (variant blk))])
                              (delete x (strong s)) (weak s))
                else Ok tt (mkState
                              (<[l := mkBlock n (weak_count blk) (torn_down (variant blk))]> (heap s))
                              (next s) (trace s ++ [td]) (delete x (strong s)) (weak s))
          end
      end
  end.
Proof.
  unfold SharedPtr_dtor. unfold_prims. unfold_M. simpl.
  destruct (strong s !! x) as [[p [l|]]|] eqn:Hx; simpl; try done.
  2:{ by rewrite Hx. }
  destruct (heap s !! l) as [blk|] eqn:Hl; simpl; try done.
  rewrite !lookup_insert_eq. simpl.
  case_decide; simpl. { by rewrite Hx. }
  destruct blk as [sc wc [p0 d a|a o]]; simpl in *; exec;
    case_decide as Hw; exec;
    rewrite ?insert_insert_eq, ?delete_insert_eq, ?Hw, <- ?app_assoc; done.
Qed.

Lemma SharedPtr_swap_eq x y s :
  SharedPtr_swap x y s =
  match strong s !! x, strong s !! y with
  | Some t, Some o => Ok tt (set_strong (<[y := t]> (<[x := o]> (strong s))) s)
  | _, _ => Undefined
  end.
Proof.
  unfold SharedPtr_swap. unfold_prims. unfold_M. simpl.
  destruct (strong s !! x) as [[pt bt]|] eqn:Hx; [|done]. simpl.
  destruct (strong s !! y) as [[po bo]|] eqn:Hy; [|done]. simpl.
  rewrite Hx. simpl.
  destruct (decide (x = y)) as [->|Hne].
  - rewrite Hx in Hy. simplify_eq. exec. by rewrite !insert_insert_eq.
  - exec. unfold set_strong. do 2 f_equal.
    apply map_eq. intros k. rewrite !lookup_insert. by repeat case_decide.
Qed.

Lemma SharedPtr_use_count_eq x s :
  SharedPtr_use_count x s =
  match strong s !! x with
  | Some (mkShared _ (Some l)) =>
      match heap s !! l with
      | Some blk => Ok (shared_count blk) s
      | None => Undefined
      end
  | _ => Undefined
  end.
Proof.
  unfold SharedPtr_use_count. unfold_prims. unfold_M. simpl.
  destruct (strong s !! x) as [[p [l|]]|]; try done. simpl.
  by destruct (heap s !! l).
Qed.

Lemma WeakPtr_default_eq w s :
  WeakPtr_default w s =
  match weak s !! w with
  | Some _ => Undefined
  | None => Ok tt (set_weak (<[w := mkWeak None]> (weak s)) s)
  end.
Proof. reflexivity. Qed.

Lemma WeakPtr_from_shared_eq w x s :
  WeakPtr_from_shared w x s =
  match strong s !! x, weak s !! w with
  | Some (mkShared _ (Some l)), None =>
      match heap s !! l with
      | Some blk =>
          Ok tt (mkState (<[l := set_weak_count (size_t_incr (weak_count blk)) blk]> (heap s))
                   (next s) (trace s) (strong s) (<[w := mkWeak (Some l)]> (weak s)))
      | None => Undefined
      end
  | _, _ => Undefined
  end.
Proof.
  unfold WeakPtr_from_shared. unfold_prims. unfold_M. simpl.
  destruct (strong s !! x) as [[p b]|] eqn:Hx; [|done]. simpl.
  destruct (weak s !! w) eqn:Hw; simpl. { by destruct b. }
  exec. destruct b as [l|]; [|done]. by destruct (heap s !! l).
Qed.

Lemma WeakPtr_copy_eq w v s :
  WeakPtr_copy w v s =
  match weak s !! v, weak s !! w with
  | Some (mkWeak (Some l)), None =>
      match heap s !! l with
      | Some blk =>
          Ok tt (mkState (<[l := set_weak_count (size_t_incr (weak_count blk)) blk]> (heap s))
                   (next s) (trace s) (strong s) (<[w := mkWeak (Some l)]> (weak s)))
      | None => Undefined
      end
  | _, _ => Undefined
  end.
Proof.
  unfold WeakPtr_copy. unfold_prims. unfold_M. simpl.
  destruct (weak s !! v) as [[b]|] eqn:Hv; [|done]. simpl.
  destruct (weak s !! w) eqn:Hw; simpl. { by destruct b. }
  exec. destruct b as [l|]; [|done]. by destruct (heap s !! l).
Qed.

Lemma WeakPtr_move_eq w v s :
  WeakPtr_move w v s =
  match weak s !! v, weak s !! w with
  | Some o, None => Ok tt (set_weak (<[v := mkWeak None]> (<[w := o]> (weak s))) s)
  | _, _ => Undefined
  end.
Proof.
  unfold WeakPtr_move. unfold_prims. unfold_M. simpl.
  destruct (weak s !! v) as [[b]|] eqn:Hv; [|done]. simpl.
  destruct (weak s !! w) eqn:Hw; [done|]. simpl.
  assert (w ≠ v) by congruence. by exec.
Qed.

Lemma WeakPtr_swap_eq w v s :
  WeakPtr_swap w v s =
  match weak s !! w, weak s !! v with
  | Some t, Some o => Ok tt (set_weak (<[v := t]> (<[w := o]> (weak s))) s)
  | _, _ => Undefined
  end.
Proof.
  unfold WeakPtr_swap. unfold_prims. unfold_M. simpl.
  destruct (weak s !! w) as [[bt]|] eqn:Hw; [|done]. simpl.
  destruct (weak s !! v) as [[bo]|] eqn:Hv; [|done]. simpl.
  rewrite Hw. simpl.
  destruct (decide (w = v)) as [->|Hne].
  - rewrite Hw in Hv. simplify_eq. exec. by rewrite !insert_insert_eq.
  - by exec.
Qed.

Lemma WeakPtr_dtor_eq w s :
  WeakPtr_dtor w s =
  match weak s !! w with
  | None => Undefined
  | Some v =>
      match wblock v with
      | None => Ok tt (set_weak (delete w (weak s)) s)
      | Some l =>
          match heap s !! l with
          | None => Undefined
          | Some blk =>
              let n := size_t_decr (weak_count blk) in
              if decide (shared_count blk = 0 ∧ n = 0)
              then Ok tt (mkState (delete l (heap s)) (next s)
                            (trace s ++ [mkEvent l (shared_count blk) n
                                           (deallocate_call (variant blk))])
                            (strong s) (delete w (weak s)))
              else Ok tt (mkState (<[l := set_weak_count n blk]> (heap s)) (next s) (trace s)
                            (strong s) (delete w (weak s)))
          end
      end
  end.
Proof.
  unfold WeakPtr_dtor. unfold_prims. unfold_M. simpl.
  destruct (weak s !! w) as [[[l|]]|] eqn:Hw; simpl; try done.
  2:{ by rewrite Hw. }
  destruct (heap s !! l) as [blk|] eqn:Hl; simpl; try done.
  rewrite !lookup_insert_eq. simpl.
  case_decide; simpl; [|by rewrite Hw].
  destruct blk as [sc wc [p0 d a|a o]]; simpl in *; exec;
    rewrite ?insert_insert_eq, ?delete_insert_eq; done.
Qed.

Lemma WeakPtr_expired_eq w s :
  WeakPtr_expired w s =
  match weak s !! w with
  | Some (mkWeak (Some l)) =>
      match heap s !! l with
      | Some blk => Ok (bool_decide (shared_count blk = 0)) s
      | None => Undefined
      end
  | _ => Undefined
  end.
Proof.
  unfold WeakPtr_expired. unfold_prims. unfold_M. simpl.
  destruct (weak s !! w) as [[[l|]]|]; try done. simpl.
  by destruct (heap s !! l).
Qed.

Lemma WeakPtr_lock_eq x w s :
  WeakPtr_lock x w s =
  match weak s !! w with
  | Some (mkWeak (Some l)) =>
      match heap s !! l with
      | Some blk =>
          if decide (shared_count blk = 0)
          then SharedPtr_default x s
          else SharedPtr_from_weak x w s
      | None => Undefined
      end
  | _ => Undefined
  end.
Proof.
  unfold WeakPtr_lock. unfold_M. rewrite WeakPtr_expired_eq.
  destruct (weak s !! w) as [[[l|]]|]; try done.
  destruct (heap s !! l) as [blk|]; [|done].
  by case_bool_decide; case_decide.
Qed.

(** ** The invariant holds initially *)

Lemma Inv_init strict : Inv strict no_origin init.
Proof.
  intros l. unfold strong_refs, weak_refs, allocated. simpl.
  rewrite lookup_empty, !refs_empty.
  assert (bool_decide (l < 1)%positive = false) as ->.
  { apply bool_decide_eq_false. lia. }
  split_and!; [done| |done|done].
  exists [], []. by split_and!.
Qed.

(** *** [size_t] arithmetic within range *)

Lemma size_t_incr_small n :
  0 ≤ n -> n + 1 < size_t_modulus -> size_t_incr n = n + 1.
Proof. intros. unfold size_t_incr. apply Z.mod_small. lia. Qed.

Lemma size_t_decr_small n :
  0 < n -> n < size_t_modulus -> size_t_decr n = n - 1.
Proof. intros. unfold size_t_decr. apply Z.mod_small. lia. Qed.

Lemma size_t_modulus_pos : 1 < size_t_modulus.
Proof. done. Qed.

(** *** Transitions of one block *)

Section block_transitions.
Context (strict : bool) (og : option BlockVariant).
Implicit Types (blk : BaseControlBlock) (sr wr : nat) (cs : list Event).

Lemma block_ok_alloc v :
  block_ok strict og None 0 0 [] false ->
  block_ok strict og (Some (mkBlock 1 0 v)) 1 0 [] true.
Proof.
  intros (_ & _ & _ & Hog). split_and!.
  - unfold block_counts_ok. simpl. split_and!; (done || lia).
  - exists [], []. by split_and!.
  - done.
  - intros Hstrict v0 Hv0. by destruct (Hog Hstrict v0 Hv0).
Qed.

Lemma block_ok_incr_shared blk sr wr cs al :
  block_ok strict og (Some blk) sr wr cs al ->
  (strict = true -> shared_count blk ≠ 0) ->
  Z.of_nat sr + 1 < size_t_modulus ->
  block_ok strict og (Some (set_shared_count (size_t_incr (shared_count blk)) blk))
    (S sr) wr cs al.
Proof.
  intros ((Hs & Hw & Hpos & Hal) & (tds & ds & Hcs & Htd & Hds & -> & Hz) & Ht & Hog) Hlive Hb.
  split_and!.
  - rewrite Hs, size_t_incr_small by lia.
    unfold block_counts_ok. simpl. split_and!; (done || lia).
  - rewrite Hs, size_t_incr_small by lia.
    exists tds, []. split_and!; simpl; (done || lia).
  - intros Hstrict. specialize (Ht Hstrict). specialize (Hlive Hstrict).
    rewrite Hs, size_t_incr_small by lia.
    unfold block_torn_once in *. simpl in *.
    rewrite Ht. rewrite !bool_decide_eq_true_2; (done || lia).
  - intros Hstrict v0 Hv0. destruct (Hog Hstrict v0 Hv0) as (? & Hv & ?).
    split_and!; [done| |done]. intros blk' [= <-] _. simpl. by apply Hv; auto.
Qed.

Lemma block_ok_incr_weak blk sr wr cs al :
  block_ok strict og (Some blk) sr wr cs al ->
  Z.of_nat wr + 1 < size_t_modulus ->
  block_ok strict og (Some (set_weak_count (size_t_incr (weak_count blk)) blk))
    sr (S wr) cs al.
Proof.
  intros ((Hs & Hw & Hpos & Hal) & (tds & ds & Hcs & Htd & Hds & -> & Hz) & Ht & Hog) Hb.
  rewrite Hw, size_t_incr_small by lia.
  split_and!.
  - unfold block_counts_ok. simpl. split_and!; (done || lia).
  - exists tds, []. by split_and!.
  - done.
  - intros Hstrict v0 Hv0. destruct (Hog Hstrict v0 Hv0) as (? & Hv & ?).
    split_and!; [done| |done]. intros blk' [= <-]. simpl. by apply Hv.
Qed.

Lemma block_ok_decr_shared blk sr wr cs al :
  block_ok strict og (Some blk) (S sr) wr cs al ->
  Z.of_nat (S sr) < size_t_modulus ->
  size_t_decr (shared_count blk) ≠ 0 ->
  block_ok strict og (Some (set_shared_count (size_t_decr (shared_count blk)) blk)) sr wr cs al.
Proof.
  intros ((Hs & Hw & Hpos & Hal) & (tds & ds & Hcs & Htd & Hds & -> & Hz) & Ht & Hog) Hb Hn.
  split_and!.
  - rewrite Hs, size_t_decr_small in * by lia.
    unfold block_counts_ok. simpl. split_and!; (done || lia).
  - rewrite Hs, size_t_decr_small in * by lia.
    exists tds, []. split_and!; simpl; (done || lia).
  - intros Hstrict. specialize (Ht Hstrict).
    rewrite Hs, size_t_decr_small in * by lia.
    unfold block_torn_once in *. simpl in *.
    rewrite Ht. rewrite !bool_decide_eq_true_2; (done || lia).
  - intros Hstrict v0 Hv0. destruct (Hog Hstrict v0 Hv0) as (? & Hv & ?).
    split_and!; [done| |done]. intros blk' [= <-] _. simpl. apply Hv; [done|lia].
Qed.

Lemma block_ok_last_shared_pending blk sr wr cs al e v :
  block_ok strict og (Some blk) (S sr) wr cs al ->
  Z.of_nat (S sr) < size_t_modulus ->
  size_t_decr (shared_count blk) = 0 ->
  weak_count blk ≠ 0 ->
  is_teardown e = true ->
  ev_shared e = size_t_decr (shared_count blk) ->
  ev_call e = teardown_call (variant blk) ->
  block_ok strict og (Some (mkBlock (size_t_decr (shared_count blk)) (weak_count blk) v))
    sr wr (cs ++ [e]) al.
Proof.
  intros ((Hs & Hw & Hpos & Hal) & (tds & ds & Hcs & Htd & Hds & -> & Hz) & Ht & Hog) Hb.
  intros Hn Hwk He Hev Hcall.
  assert (sr = 0%nat) as ->.
  { rewrite Hs, size_t_decr_small in Hn by lia. lia. }
  split_and!.
  - rewrite Hn. unfold block_counts_ok. simpl. split_and!; (done || lia).
  - exists (tds ++ [e]), []. rewrite app_nil_r in Hcs. subst cs. split_and!; simpl.
    + by rewrite app_nil_r.
    + apply Forall_app. split; [done|]. repeat constructor; [done|congruence].
    + done.
    + done.
    + intros _. by destruct tds.
  - intros Hstrict. specialize (Ht Hstrict).
    unfold block_torn_once in *. simpl in *.
    rewrite filter_app, length_app, Ht. subst al. simpl. rewrite Hn.
    rewrite ?bool_decide_eq_true_2 by lia. simpl.
    by rewrite filter_cons_True.
  - intros Hstrict v0 Hv0. destruct (Hog Hstrict v0 Hv0) as (? & Hv & Hf).
    split_and!; [done| |].
    + intros blk' [= <-]. simpl. lia.
    + apply Forall_app. split; [done|]. repeat constructor. intros _.
      rewrite Hcall. f_equal. apply Hv; [done|lia].
Qed.

Lemma block_ok_last_shared_free blk sr wr cs al e d :
  block_ok strict og (Some blk) (S sr) wr cs al ->
  Z.of_nat (S sr) < size_t_modulus ->
  size_t_decr (shared_count blk) = 0 ->
  weak_count blk = 0 ->
  is_teardown e = true ->
  ev_shared e = size_t_decr (shared_count blk) ->
  ev_call e = teardown_call (variant blk) ->
  is_deallocation d = true ->
  ev_shared d = size_t_decr (shared_count blk) ->
  ev_weak d = 0 ->
  block_ok strict og None sr wr (cs ++ [e; d]) al.
Proof.
  intros ((Hs & Hw & Hpos & Hal) & (tds & ds & Hcs & Htd & Hds & -> & Hz) & Ht & Hog) Hb.
  intros Hn Hwk He Hev Hcall Hd Hds' Hdw.
  assert (is_teardown d = false) as Hdt.
  { destruct d as [? ? ? []]; simpl in *; done. }
  assert (sr = 0%nat) as ->.
  { rewrite Hs, size_t_decr_small in Hn by lia. lia. }
  assert (wr = 0%nat) as -> by lia.
  split_and!.
  - done.
  - exists (tds ++ [e]), [d]. rewrite app_nil_r in Hcs. subst cs al. split_and!; simpl.
    + by rewrite <- app_assoc.
    + apply Forall_app. split; [done|]. repeat constructor; [done|congruence].
    + repeat constructor; (done || congruence).
    + by destruct tds.
    + done.
  - intros Hstrict. specialize (Ht Hstrict).
    unfold block_torn_once in *. simpl in *.
    rewrite filter_app, length_app, Ht. subst al. simpl.
    rewrite ?bool_decide_eq_true_2 by lia. simpl.
    rewrite filter_cons_True by done.
    rewrite filter_cons_False; [done|]. congruence.
  - intros Hstrict v0 Hv0. destruct (Hog Hstrict v0 Hv0) as (? & Hv & Hf).
    split_and!; [done|done|].
    apply Forall_app. split; [done|]. repeat constructor.
    + intros _. rewrite Hcall. f_equal. apply Hv; [done|lia].
    + congruence.
Qed.

Lemma block_ok_decr_weak blk sr wr cs al :
  block_ok strict og (Some blk) sr (S wr) cs al ->
  Z.of_nat (S wr) < size_t_modulus ->
  ¬ (shared_count blk = 0 ∧ size_t_decr (weak_count blk) = 0) ->
  block_ok strict og (Some (set_weak_count (size_t_decr (weak_count blk)) blk)) sr wr cs al.
Proof.
  intros ((Hs & Hw & Hpos & Hal) & (tds & ds & Hcs & Htd & Hds & -> & Hz) & Ht & Hog) Hb.
  rewrite Hw, size_t_decr_small by lia. intros Hn.
  split_and!.
  - unfold block_counts_ok. simpl. split_and!; (done || lia).
  - exists tds, []. by split_and!.
  - done.
  - intros Hstrict v0 Hv0. destruct (Hog Hstrict v0 Hv0) as (? & Hv & ?).
    split_and!; [done| |done]. intros blk' [= <-]. simpl. by apply Hv.
Qed.

Lemma block_ok_last_weak_free blk sr wr cs al d :
  block_ok strict og (Some blk) sr (S wr) cs al ->
  Z.of_nat (S wr) < size_t_modulus ->
  shared_count blk = 0 ->
  size_t_decr (weak_count blk) = 0 ->
  is_deallocation d = true ->
  ev_shared d = shared_count blk ->
  ev_weak d = size_t_decr (weak_count blk) ->
  block_ok strict og None sr wr (cs ++ [d]) al.
Proof.
  intros ((Hs & Hw & Hpos & Hal) & (tds & ds & Hcs & Htd & Hds & -> & Hz) & Ht & Hog) Hb Hz'.
  rewrite Hw, size_t_decr_small by lia. intros Hn Hd Hds' Hdw.
  assert (is_teardown d = false) as Hdt.
  { destruct d as [? ? ? []]; simpl in *; done. }
  assert (sr = 0%nat) as -> by lia.
  assert (wr = 0%nat) as -> by lia.
  split_and!.
  - done.
  - exists tds, [d]. rewrite app_nil_r in Hcs. subst cs al. split_and!; simpl.
    + done.
    + done.
    + repeat constructor; (done || congruence).
    + by apply Hz.
    + done.
  - intros Hstrict. specialize (Ht Hstrict).
    unfold block_torn_once in *. simpl in *.
    rewrite filter_app, length_app, Ht. subst al. simpl.
    rewrite ?bool_decide_eq_false_2 by lia. simpl.
    rewrite filter_cons_False; [done|]. congruence.
  - intros Hstrict v0 Hv0. destruct (Hog Hstrict v0 Hv0) as (? & Hv & Hf).
    split_and!; [done|done|].
    apply Forall_app. split; [done|]. repeat constructor. congruence.
Qed.
End block_transitions.

(** *** The invariant through the constructors, destructors and swaps *)

Lemma strong_refs_bounded l s : bounded s -> Z.of_nat (strong_refs l s) + 1 < size_t_modulus.
Proof.
  unfold bounded, owners, strong_refs. intros.
  pose proof (refs_le_size block l (strong s)). lia.
Qed.

Lemma weak_refs_bounded l s : bounded s -> Z.of_nat (weak_refs l s) + 1 < size_t_modulus.
Proof.
  unfold bounded, owners, weak_refs. intros.
  pose proof (refs_le_size wblock l (weak s)). lia.
Qed.

Lemma calls_of_app l tr es : calls_of l (tr ++ es) = calls_of l tr ++ calls_of l es.
Proof. apply filter_app. Qed.

Lemma calls_of_other l l' n m c : l ≠ l' -> calls_of l' [mkEvent l n m c] = [].
Proof. intros. unfold calls_of. by rewrite filter_cons_False. Qed.

Lemma calls_of_other2 l l' n m c n' m' c' :
  l ≠ l' -> calls_of l' [mkEvent l n m c; mkEvent l n' m' c'] = [].
Proof. intros. unfold calls_of. rewrite filter_cons_False by done. by rewrite filter_cons_False. Qed.

Lemma calls_of_same l n m c : calls_of l [mkEvent l n m c] = [mkEvent l n m c].
Proof. unfold calls_of. by rewrite filter_cons_True. Qed.

Lemma calls_of_same2 l n m c n' m' c' :
  calls_of l [mkEvent l n m c; mkEvent l n' m' c'] = [mkEvent l n m c; mkEvent l n' m' c'].
Proof. unfold calls_of. rewrite filter_cons_True by done. by rewrite filter_cons_True. Qed.

Lemma is_teardown_call n m l v : is_teardown (mkEvent l n m (teardown_call v)) = true.
Proof. by destruct v. Qed.

Lemma is_deallocation_call n m l v : is_deallocation (mkEvent l n m (deallocate_call v)) = true.
Proof. by destruct v. Qed.

(** An owner bound to [l] makes [l] a block with a positive count. *)
Lemma Inv_strong_bound strict Ω s x v l :
  Inv strict Ω s -> strong s !! x = Some v -> block v = Some l ->
  ∃ blk, heap s !! l = Some blk ∧ shared_count blk ≠ 0.
Proof.
  intros HI Hx Hv. destruct (HI l) as (Hc & _).
  pose proof (refs_lookup_pos block l x v (strong s) Hx Hv) as Hpos.
  fold (strong_refs l s) in Hpos.
  destruct (heap s !! l) as [blk|]; simpl in Hc.
  - exists blk. split; [done|]. lia.
  - lia.
Qed.

Lemma Inv_weak_bound strict Ω s w v l :
  Inv strict Ω s -> weak s !! w = Some v -> wblock v = Some l ->
  ∃ blk, heap s !! l = Some blk ∧ weak_count blk ≠ 0.
Proof.
  intros HI Hw Hv. destruct (HI l) as (Hc & _).
  pose proof (refs_lookup_pos wblock l w v (weak s) Hw Hv) as Hpos.
  fold (weak_refs l s) in Hpos.
  destruct (heap s !! l) as [blk|]; simpl in Hc.
  - exists blk. split; [done|]. lia.
  - lia.
Qed.

(** Storage the allocator has not handed out holds no block. *)
Lemma Inv_next_fresh strict Ω s : Inv strict Ω s -> heap s !! next s = None.
Proof.
  intros HI. destruct (HI (next s)) as (Hc & _).
  destruct (heap s !! next s); [|done].
  destruct Hc as (_ & _ & _ & Hal). unfold allocated in Hal.
  apply bool_decide_eq_true in Hal. lia.
Qed.

Lemma Inv_unallocated strict Ω s :
  Inv strict Ω s ->
  strong_refs (next s) s = 0%nat ∧ weak_refs (next s) s = 0%nat ∧
  calls_of (next s) (trace s) = [].
Proof.
  intros HI. pose proof (Inv_next_fresh _ _ _ HI) as Hn.
  pose proof (HI (next s)) as H. rewrite Hn in H.
  destruct H as ((Hs & Hw) & (tds & ds & Hcs & _ & _ & Hm) & _).
  unfold allocated in Hm. rewrite bool_decide_eq_false_2 in Hm by lia.
  destruct Hm as [-> ->]. by rewrite Hcs.
Qed.

Lemma Inv_unallocated_ok strict Ω s :
  Inv strict Ω s -> block_ok (strict (next s)) (Ω (next s)) None 0 0 [] false.
Proof.
  intros HI. destruct (Inv_unallocated _ _ _ HI) as (Hs & Hw & Hc).
  pose proof (Inv_next_fresh _ _ _ HI) as Hn.
  pose proof (HI (next s)) as H. rewrite Hn, Hs, Hw, Hc in H.
  unfold allocated in H. by rewrite bool_decide_eq_false_2 in H by lia.
Qed.

Lemma allocated_succ l s :
  l ≠ next s -> bool_decide (l < Pos.succ (next s))%positive = allocated l s.
Proof. intros. unfold allocated. apply bool_decide_ext. lia. Qed.

Ltac inv_frame HI l' :=
  specialize (HI l'); unfold strong_refs, weak_refs, allocated in *; simpl in *.

Lemma SharedPtr_default_inv strict Ω x s s' :
  Inv strict Ω s -> SharedPtr_default x s = Ok tt s' ->
  Inv strict Ω s' ∧ owners s' = S (owners s).
Proof.
  intros HI Hrun. rewrite SharedPtr_default_eq in Hrun.
  destruct (strong s !! x) eqn:Hx; [done|]. simplify_eq. split.
  - intros l'. inv_frame HI l'. by rewrite refs_insert_fresh.
  - unfold owners. simpl. by rewrite map_size_insert_None.
Qed.

Lemma SharedPtr_from_raw_inv strict Ω x p del alloc s s' :
  Inv strict Ω s -> SharedPtr_from_raw x p del alloc true s = Ok tt s' ->
  Inv strict Ω s' ∧ owners s' = S (owners s).
Proof.
  intros HI Hrun. rewrite SharedPtr_from_raw_eq in Hrun.
  destruct (strong s !! x) eqn:Hx; [done|].
  pose proof (Inv_next_fresh _ _ _ HI) as Hn. rewrite Hn in Hrun. simplify_eq. split.
  - intros l'. destruct (decide (l' = next s)) as [->|Hne].
    + destruct (Inv_unallocated _ _ _ HI) as (Hs & Hw & Hc).
      pose proof (Inv_unallocated_ok _ _ _ HI) as Hun.
      unfold strong_refs, weak_refs, allocated in *. simpl.
      rewrite lookup_insert_eq, refs_insert_fresh, decide_True, Hs, Hw, Hc by done.
      rewrite bool_decide_eq_true_2 by lia.
      by apply block_ok_alloc, Inv_unallocated_ok.
    + inv_frame HI l'.
      rewrite lookup_insert_ne, refs_insert_fresh, decide_False by (simpl; congruence).
      fold (allocated l' s). by rewrite allocated_succ.
  - unfold owners. simpl. by rewrite map_size_insert_None.
Qed.

Lemma SharedPtr_in_place_inv strict Ω x alloc args s s' :
  Inv strict Ω s -> SharedPtr_in_place x alloc args true s = Ok tt s' ->
  Inv strict Ω s' ∧ owners s' = S (owners s).
Proof.
  intros HI Hrun. rewrite SharedPtr_in_place_eq in Hrun.
  destruct (strong s !! x) eqn:Hx; [done|].
  pose proof (Inv_next_fresh _ _ _ HI) as Hn. rewrite Hn in Hrun. simplify_eq. split.
  - intros l'. destruct (decide (l' = next s)) as [->|Hne].
    + destruct (Inv_unallocated _ _ _ HI) as (Hs & Hw & Hc).
      pose proof (Inv_unallocated_ok _ _ _ HI) as Hun.
      unfold strong_refs, weak_refs, allocated in *. simpl.
      rewrite lookup_insert_eq, refs_insert_fresh, decide_True, Hs, Hw, Hc by done.
      rewrite bool_decide_eq_true_2 by lia.
      by apply block_ok_alloc, Inv_unallocated_ok.
    + inv_frame HI l'.
      rewrite lookup_insert_ne, refs_insert_fresh, decide_False by (simpl; congruence).
      fold (allocated l' s). by rewrite allocated_succ.
  - unfold owners. simpl. by rewrite map_size_insert_None.
Qed.

Lemma SharedPtr_copy_inv strict Ω x y s s' :
  Inv strict Ω s -> bounded s -> SharedPtr_copy x y s = Ok tt s' ->
  Inv strict Ω s' ∧ owners s' = S (owners s).
Proof.
  intros HI Hb Hrun. rewrite SharedPtr_copy_eq in Hrun.
  destruct (strong s !! y) as [o|] eqn:Hy; [|done].
  destruct (strong s !! x) eqn:Hx; [done|].
  assert (owners s' = S (owners s)) as Hown.
  { destruct (block o); [destruct (heap s !! _)|]; simplify_eq;
      unfold owners; simpl; by rewrite map_size_insert_None. }
  split; [|done]. clear Hown.
  destruct (block o) as [l|] eqn:Hbo.
  - destruct (Inv_strong_bound _ _ _ _ _ _ HI Hy Hbo) as (blk & Hl & Hpos).
    rewrite Hl in Hrun. simplify_eq.
    pose proof (strong_refs_bounded l _ Hb) as Hbl.
    intros l'. inv_frame HI l'. rewrite refs_insert_fresh by done.
    destruct (decide (l' = l)) as [->|Hne].
    + rewrite lookup_insert_eq, decide_True by done. rewrite Hl in HI.
      by apply block_ok_incr_shared.
    + rewrite lookup_insert_ne, decide_False by (simpl; congruence). done.
  - simplify_eq. intros l'. inv_frame HI l'.
    rewrite refs_insert_fresh, decide_False by (simpl; congruence). done.
Qed.

Lemma refs_move {V} (f : V -> option loc) l x y o e (m : gmap var V) :
  m !! y = Some o -> m !! x = None -> f e = None ->
  refs f l (<[y := e]> (<[x := o]> m)) = refs f l m.
Proof.
  intros Hy Hx He. assert (x ≠ y) by congruence.
  pose proof (refs_overwrite f l y o e (<[x := o]> m)) as H1.
  rewrite lookup_insert_ne in H1 by done. specialize (H1 Hy).
  rewrite (refs_insert_fresh f l x o m Hx) in H1.
  rewrite He in H1. repeat case_decide; simplify_eq; lia.
Qed.

Lemma refs_swap {V} (f : V -> option loc) l x y t o (m : gmap var V) :
  m !! x = Some t -> m !! y = Some o ->
  refs f l (<[y := t]> (<[x := o]> m)) = refs f l m.
Proof.
  intros Hx Hy. destruct (decide (x = y)) as [->|Hne].
  - simplify_eq. by rewrite insert_insert_eq, insert_id.
  - pose proof (refs_overwrite f l y o t (<[x := o]> m)) as H1.
    rewrite lookup_insert_ne in H1 by done. specialize (H1 Hy).
    pose proof (refs_overwrite f l x t o m Hx) as H2.
    repeat case_decide; lia.
Qed.

Lemma SharedPtr_move_inv strict Ω x y s s' :
  Inv strict Ω s -> SharedPtr_move x y s = Ok tt s' ->
  Inv strict Ω s' ∧ owners s' = S (owners s).
Proof.
  intros HI Hrun. rewrite SharedPtr_move_eq in Hrun.
  destruct (strong s !! y) as [o|] eqn:Hy; [|done].
  destruct (strong s !! x) eqn:Hx; [done|]. simplify_eq. split.
  - intros l'. inv_frame HI l'. by rewrite (refs_move block l' x y o).
  - unfold owners. simpl. assert (x ≠ y) by congruence.
    rewrite map_size_insert_Some by (by rewrite lookup_insert_ne).
    by rewrite map_size_insert_None.
Qed.

Lemma SharedPtr_swap_inv strict Ω x y s s' :
  Inv strict Ω s -> SharedPtr_swap x y s = Ok tt s' ->
  Inv strict Ω s' ∧ owners s' = owners s.
Proof.
  intros HI Hrun. rewrite SharedPtr_swap_eq in Hrun.
  destruct (strong s !! x) as [t|] eqn:Hx; [|done].
  destruct (strong s !! y) as [o|] eqn:Hy; [|done]. simplify_eq. split.
  - intros l'. inv_frame HI l'. by rewrite (refs_swap block l' x y t o).
  - unfold owners. simpl.
    rewrite map_size_insert_Some.
    + by rewrite map_size_insert_Some.
    + rewrite lookup_insert. case_decide; eauto.
Qed.

Lemma SharedPtr_from_weak_inv strict Ω x w s s' :
  Inv strict Ω s -> bounded s ->
  (∀ l, strict l = true -> precondition l (OpSharedFromWeak x w) s = true) ->
  SharedPtr_from_weak x w s = Ok tt s' ->
  Inv strict Ω s' ∧ owners s' = S (owners s).
Proof.
  intros HI Hb Hpre Hrun. rewrite SharedPtr_from_weak_eq in Hrun.
  destruct (weak s !! w) as [[[l|]]|] eqn:Hw; try done.
  destruct (heap s !! l) as [blk|] eqn:Hl; [|done].
  destruct (strong s !! x) eqn:Hx; [done|]. simplify_eq.
  specialize (Hpre l). simpl in Hpre. rewrite Hw in Hpre. simpl in Hpre.
  rewrite decide_True, Hl in Hpre by done. simpl in Hpre.
  split.
  - pose proof (strong_refs_bounded l _ Hb) as Hbl.
    intros l'. inv_frame HI l'. rewrite refs_insert_fresh by done. simpl.
    destruct (decide (l' = l)) as [->|Hne].
    + rewrite lookup_insert_eq, decide_True by done. rewrite Hl in HI.
      apply block_ok_incr_shared; [done| |done].
      intros Hs. specialize (Hpre Hs). by apply bool_decide_eq_true in Hpre.
    + rewrite lookup_insert_ne, decide_False by (simpl; congruence). done.
  - unfold owners. simpl. by rewrite map_size_insert_None.
Qed.

Lemma SharedPtr_dtor_inv strict Ω x s s' :
  Inv strict Ω s -> bounded s -> SharedPtr_dtor x s = Ok tt s' ->
  Inv strict Ω s' ∧ S (owners s') = owners s.
Proof.
  intros HI Hb Hrun. rewrite SharedPtr_dtor_eq in Hrun.
  destruct (strong s !! x) as [v|] eqn:Hx; [|done].
  assert (S (size (delete x (strong s))) = size (strong s)) as Hsz.
  { rewrite map_size_delete_Some by eauto.
    assert (size (strong s) ≠ 0%nat); [|lia].
    apply map_size_ne_0_lookup_2 with x. eauto. }
  destruct (block v) as [l|] eqn:Hv.
  - destruct (heap s !! l) as [blk|] eqn:Hl; [|done].
    pose proof (strong_refs_bounded l _ Hb) as Hbl.
    pose proof (refs_delete block l x v (strong s) Hx) as Hdel.
    rewrite decide_True in Hdel by done.
    assert (∀ l', l' ≠ l ->
              refs block l' (delete x (strong s)) = refs block l' (strong s)) as Hothers.
    { intros l' Hne. rewrite (refs_delete block l' x v (strong s) Hx).
      by rewrite decide_False by congruence. }
    simpl in Hrun. split.
    + intros l'. destruct (decide (l' = l)) as [->|Hne].
      * specialize (HI l). rewrite Hl in HI. unfold strong_refs in HI, Hbl.
        rewrite Hdel in HI, Hbl.
        repeat case_decide; simplify_eq;
          unfold strong_refs, weak_refs, allocated in *; simpl;
          rewrite ?lookup_insert_eq, ?lookup_delete_eq, ?calls_of_app,
            ?calls_of_same, ?calls_of_same2.
        -- apply block_ok_decr_shared; [done|lia|done].
        -- eapply block_ok_last_shared_free; try done; try lia.
           ++ apply is_teardown_call.
           ++ apply is_deallocation_call.
        -- apply block_ok_last_shared_pending; try done; try lia.
           apply is_teardown_call.
      * specialize (HI l'). specialize (Hothers l' Hne).
        repeat case_decide; simplify_eq;
          unfold strong_refs, weak_refs, allocated in *; simpl;
          rewrite ?lookup_insert_ne, ?lookup_delete_ne, ?calls_of_app,
            ?calls_of_other, ?calls_of_other2, ?app_nil_r, ?Hothers by done; done.
    + repeat case_decide; simplify_eq; unfold owners; simpl; lia.
  - simplify_eq. split.
    + intros l'. inv_frame HI l'.
      rewrite (refs_delete block l' x v (strong s) Hx) in HI.
      by rewrite decide_False in HI by congruence.
    + unfold owners. simpl. lia.
Qed.

Lemma WeakPtr_default_inv strict Ω w s s' :
  Inv strict Ω s -> WeakPtr_default w s = Ok tt s' ->
  Inv strict Ω s' ∧ owners s' = S (owners s).
Proof.
  intros HI Hrun. rewrite WeakPtr_default_eq in Hrun.
  destruct (weak s !! w) eqn:Hw; [done|]. simplify_eq. split.
  - intros l'. inv_frame HI l'. by rewrite refs_insert_fresh.
  - unfold owners. simpl. rewrite map_size_insert_None by done. lia.
Qed.

Lemma WeakPtr_from_shared_inv strict Ω w x s s' :
  Inv strict Ω s -> bounded s -> WeakPtr_from_shared w x s = Ok tt s' ->
  Inv strict Ω s' ∧ owners s' = S (owners s).
Proof.
  intros HI Hb Hrun. rewrite WeakPtr_from_shared_eq in Hrun.
  destruct (strong s !! x) as [[p [l|]]|] eqn:Hx; try done.
  destruct (weak s !! w) eqn:Hw; [done|].
  destruct (heap s !! l) as [blk|] eqn:Hl; [|done]. simplify_eq. split.
  - pose proof (weak_refs_bounded l _ Hb) as Hbl.
    intros l'. inv_frame HI l'. rewrite refs_insert_fresh by done. simpl.
    destruct (decide (l' = l)) as [->|Hne].
    + rewrite lookup_insert_eq, decide_True by done. rewrite Hl in HI.
      by apply block_ok_incr_weak.
    + rewrite lookup_insert_ne, decide_False by (simpl; congruence). done.
  - unfold owners. simpl. rewrite map_size_insert_None by done. lia.
Qed.

Lemma WeakPtr_copy_inv strict Ω w v s s' :
  Inv strict Ω s -> bounded s -> WeakPtr_copy w v s = Ok tt s' ->
  Inv strict Ω s' ∧ owners s' = S (owners s).
Proof.
  intros HI Hb Hrun. rewrite WeakPtr_copy_eq in Hrun.
  destruct (weak s !! v) as [[[l|]]|] eqn:Hv; try done.
  destruct (weak s !! w) eqn:Hw; [done|].
  destruct (heap s !! l) as [blk|] eqn:Hl; [|done]. simplify_eq. split.
  - pose proof (weak_refs_bounded l _ Hb) as Hbl.
    intros l'. inv_frame HI l'. rewrite refs_insert_fresh by done. simpl.
    destruct (decide (l' = l)) as [->|Hne].
    + rewrite lookup_insert_eq, decide_True by done. rewrite Hl in HI.
      by apply block_ok_incr_weak.
    + rewrite lookup_insert_ne, decide_False by (simpl; congruence). done.
  - unfold owners. simpl. rewrite map_size_insert_None by done. lia.
Qed.

Lemma WeakPtr_move_inv strict Ω w v s s' :
  Inv strict Ω s -> WeakPtr_move w v s = Ok tt s' ->
  Inv strict Ω s' ∧ owners s' = S (owners s).
Proof.
  intros HI Hrun. rewrite WeakPtr_move_eq in Hrun.
  destruct (weak s !! v) as [o|] eqn:Hv; [|done].
  destruct (weak s !! w) eqn:Hw; [done|]. simplify_eq. split.
  - intros l'. inv_frame HI l'. by rewrite (refs_move wblock l' w v o).
  - unfold owners. simpl. assert (w ≠ v) by congruence.
    rewrite map_size_insert_Some by (by rewrite lookup_insert_ne).
    rewrite map_size_insert_None by done. lia.
Qed.

Lemma WeakPtr_swap_inv strict Ω w v s s' :
  Inv strict Ω s -> WeakPtr_swap w v s = Ok tt s' ->
  Inv strict Ω s' ∧ owners s' = owners s.
Proof.
  intros HI Hrun. rewrite WeakPtr_swap_eq in Hrun.
  destruct (weak s !! w) as [t|] eqn:Hw; [|done].
  destruct (weak s !! v) as [o|] eqn:Hv; [|done]. simplify_eq. split.
  - intros l'. inv_frame HI l'. by rewrite (refs_swap wblock l' w v t o).
  - unfold owners. simpl.
    rewrite map_size_insert_Some.
    + by rewrite map_size_insert_Some.
    + rewrite lookup_insert. case_decide; eauto.
Qed.

Lemma WeakPtr_dtor_inv strict Ω w s s' :
  Inv strict Ω s -> bounded s -> WeakPtr_dtor w s = Ok tt s' ->
  Inv strict Ω s' ∧ S (owners s') = owners s.
Proof.
  intros HI Hb Hrun. rewrite WeakPtr_dtor_eq in Hrun.
  destruct (weak s !! w) as [v|] eqn:Hw; [|done].
  assert (S (size (delete w (weak s))) = size (weak s)) as Hsz.
  { rewrite map_size_delete_Some by eauto.
    assert (size (weak s) ≠ 0%nat); [|lia].
    apply map_size_ne_0_lookup_2 with w. eauto. }
  destruct (wblock v) as [l|] eqn:Hv.
  - destruct (heap s !! l) as [blk|] eqn:Hl; [|done].
    pose proof (weak_refs_bounded l _ Hb) as Hbl.
    pose proof (refs_delete wblock l w v (weak s) Hw) as Hdel.
    rewrite decide_True in Hdel by done.
    assert (∀ l', l' ≠ l ->
              refs wblock l' (delete w (weak s)) = refs wblock l' (weak s)) as Hothers.
    { intros l' Hne. rewrite (refs_delete wblock l' w v (weak s) Hw).
      by rewrite decide_False by congruence. }
    simpl in Hrun. split.
    + intros l'. destruct (decide (l' = l)) as [->|Hne].
      * specialize (HI l). rewrite Hl in HI. unfold weak_refs in HI, Hbl.
        rewrite Hdel in HI, Hbl.
        case_decide as Hz; simplify_eq;
          unfold strong_refs, weak_refs, allocated in *; simpl;
          rewrite ?lookup_insert_eq, ?lookup_delete_eq, ?calls_of_app, ?calls_of_same.
        -- destruct Hz as [Hz1 Hz2].
           eapply block_ok_last_weak_free; try done; try lia.
           apply is_deallocation_call.
        -- apply block_ok_decr_weak; [done|lia|done].
      * specialize (HI l'). specialize (Hothers l' Hne).
        case_decide; simplify_eq;
          unfold strong_refs, weak_refs, allocated in *; simpl;
          rewrite ?lookup_insert_ne, ?lookup_delete_ne, ?calls_of_app,
            ?calls_of_other, ?app_nil_r, ?Hothers by done; done.
    + case_decide; simplify_eq; unfold owners; simpl; lia.
  - simplify_eq. split.
    + intros l'. inv_frame HI l'.
      rewrite (refs_delete wblock l' w v (weak s) Hw) in HI.
      by rewrite decide_False in HI by congruence.
    + unfold owners. simpl. lia.
Qed.

(** ** Composite operations and whole programs *)

Lemma triple_bind {A B} P (c : M A) Q (k : A -> M B) R E :
  triple P c Q E -> (∀ a, triple (Q a) (k a) R E) -> triple P (c ≫= k) R E.
Proof.
  intros Hc Hk s HP. specialize (Hc s HP). unfold mbind, M_bind.
  destruct (c s) as [a s1| |]; [|done..]. by apply Hk.
Qed.

Lemma triple_weaken {A} (P P' : State -> Prop) (c : M A) (Q Q' : A -> State -> Prop)
    (E E' : State -> Prop) :
  triple P' c Q' E' ->
  (∀ s, P s -> P' s) -> (∀ a s, Q' a s -> Q a s) -> (∀ s, E' s -> E s) ->
  triple P c Q E.
Proof.
  intros Hc HP HQ HE s Hs. specialize (Hc s (HP s Hs)).
  destruct (c s); auto.
Qed.

Lemma triple_local_shared P E : triple P local_shared (λ _, P) E.
Proof. by intros s HP. Qed.

Lemma triple_local_weak P E : triple P local_weak (λ _, P) E.
Proof. by intros s HP. Qed.

Lemma Inv_at_bounded strict Ω n s :
  Z.of_nat n + 1 < size_t_modulus -> Inv_at strict Ω n s -> bounded s.
Proof. intros Hn [_ Ho]. unfold bounded. lia. Qed.

Lemma Inv_at_mono strict Ω n m s : (n ≤ m)%nat -> Inv_at strict Ω n s -> Inv_at strict Ω m s.
Proof. intros Hnm [HI Ho]. split; [done|lia]. Qed.

Section triples.
Context (strict : loc -> bool) (Ω : loc -> option BlockVariant) (n : nat).
Hypothesis Hn : Z.of_nat n + 1 < size_t_modulus.

(** An operation that ends the lifetime of an owner object. *)
Lemma triple_of_dtor (c : M unit) E :
  (∀ s s', Inv strict Ω s -> bounded s -> c s = Ok tt s' ->
           Inv strict Ω s' ∧ S (owners s') = owners s) ->
  (∀ s s', c s ≠ Throw s') ->
  triple (Inv_at strict Ω n) c (λ _, Inv_at strict Ω (pred n)) E.
Proof.
  intros Hc Hnt s HI. pose proof (Inv_at_bounded _ _ _ _ Hn HI) as Hb.
  destruct HI as [HI Ho].
  destruct (c s) as [[] s'| |] eqn:Hr; [|by destruct (Hnt _ _ Hr)|done].
  destruct (Hc s s' HI Hb Hr) as [HI' Ho']. split; [done|lia].
Qed.

(** An operation that starts the lifetime of an owner object. *)
Lemma triple_of_ctor (c : M unit) E :
  (∀ s s', Inv strict Ω s -> bounded s -> c s = Ok tt s' ->
           Inv strict Ω s' ∧ owners s' = S (owners s)) ->
  (∀ s s', c s ≠ Throw s') ->
  triple (Inv_at strict Ω n) c (λ _, Inv_at strict Ω (S n)) E.
Proof.
  intros Hc Hnt s HI. pose proof (Inv_at_bounded _ _ _ _ Hn HI) as Hb.
  destruct (c s) as [[] s'| |] eqn:Hr; [|by destruct (Hnt _ _ Hr)|done].
  destruct HI as [HI Ho]. destruct (Hc s s' HI Hb Hr) as [HI' Ho']. split; [done|lia].
Qed.

(** A constructor that allocates: when it throws, nothing has changed. *)
Lemma triple_of_allocating_ctor (c : M unit) :
  (∀ s s', Inv strict Ω s -> bounded s -> c s = Ok tt s' ->
           Inv strict Ω s' ∧ owners s' = S (owners s)) ->
  (∀ s s', c s = Throw s' -> s' = s) ->
  triple (Inv_at strict Ω n) c (λ _, Inv_at strict Ω (S n)) (Inv_at strict Ω n).
Proof.
  intros Hc Hnt s HI. pose proof (Inv_at_bounded _ _ _ _ Hn HI) as Hb.
  destruct (c s) as [[] s'| |] eqn:Hr; [| |done].
  - destruct HI as [HI Ho]. destruct (Hc s s' HI Hb Hr) as [HI' Ho']. split; [done|lia].
  - by rewrite (Hnt s _ Hr).
Qed.

Lemma triple_of_swap (c : M unit) E :
  (∀ s s', Inv strict Ω s -> c s = Ok tt s' -> Inv strict Ω s' ∧ owners s' = owners s) ->
  (∀ s s', c s ≠ Throw s') ->
  triple (Inv_at strict Ω n) c (λ _, Inv_at strict Ω n) E.
Proof.
  intros Hc Hnt s [HI Ho].
  destruct (c s) as [[] s'| |] eqn:Hr; [|by destruct (Hnt _ _ Hr)|done].
  destruct (Hc s s' HI Hr) as [HI' Ho']. split; [done|lia].
Qed.
End triples.

(** *** Which operations can throw *)

Ltac no_throw eq :=
  intros s s'; rewrite eq; unfold set_strong, set_weak; simpl;
  repeat case_match; congruence.

Lemma SharedPtr_default_no_throw x s s' : SharedPtr_default x s ≠ Throw s'.
Proof. revert s s'. no_throw SharedPtr_default_eq. Qed.

Lemma SharedPtr_copy_no_throw x y s s' : SharedPtr_copy x y s ≠ Throw s'.
Proof. revert s s'. no_throw SharedPtr_copy_eq. Qed.

Lemma SharedPtr_move_no_throw x y s s' : SharedPtr_move x y s ≠ Throw s'.
Proof. revert s s'. no_throw SharedPtr_move_eq. Qed.

Lemma SharedPtr_from_weak_no_throw x w s s' : SharedPtr_from_weak x w s ≠ Throw s'.
Proof. revert s s'. no_throw SharedPtr_from_weak_eq. Qed.

Lemma SharedPtr_dtor_no_throw x s s' : SharedPtr_dtor x s ≠ Throw s'.
Proof. revert s s'. no_throw SharedPtr_dtor_eq. Qed.

Lemma SharedPtr_swap_no_throw x y s s' : SharedPtr_swap x y s ≠ Throw s'.
Proof. revert s s'. no_throw SharedPtr_swap_eq. Qed.

Lemma WeakPtr_default_no_throw w s s' : WeakPtr_default w s ≠ Throw s'.
Proof. revert s s'. no_throw WeakPtr_default_eq. Qed.

Lemma WeakPtr_from_shared_no_throw w x s s' : WeakPtr_from_shared w x s ≠ Throw s'.
Proof. revert s s'. no_throw WeakPtr_from_shared_eq. Qed.

Lemma WeakPtr_copy_no_throw w v s s' : WeakPtr_copy w v s ≠ Throw s'.
Proof. revert s s'. no_throw WeakPtr_copy_eq. Qed.

Lemma WeakPtr_move_no_throw w v s s' : WeakPtr_move w v s ≠ Throw s'.
Proof. revert s s'. no_throw WeakPtr_move_eq. Qed.

Lemma WeakPtr_dtor_no_throw w s s' : WeakPtr_dtor w s ≠ Throw s'.
Proof. revert s s'. no_throw WeakPtr_dtor_eq. Qed.

Lemma WeakPtr_swap_no_throw w v s s' : WeakPtr_swap w v s ≠ Throw s'.
Proof. revert s s'. no_throw WeakPtr_swap_eq. Qed.

(** The allocating constructors throw exactly when the allocator fails,
    and then leave the state as it was. *)
Lemma SharedPtr_from_raw_throw x p del alloc ok s s' :
  SharedPtr_from_raw x p del alloc ok s = Throw s' -> ok = false ∧ s' = s.
Proof.
  rewrite SharedPtr_from_raw_eq. repeat case_match; try done. by intros [= ->].
Qed.

Lemma SharedPtr_in_place_throw x alloc args ok s s' :
  SharedPtr_in_place x alloc args ok s = Throw s' -> ok = false ∧ s' = s.
Proof.
  rewrite SharedPtr_in_place_eq. repeat case_match; try done. by intros [= ->].
Qed.

Lemma SharedPtr_from_raw_ok x p del alloc ok s s' :
  SharedPtr_from_raw x p del alloc ok s = Ok tt s' -> ok = true.
Proof. rewrite SharedPtr_from_raw_eq. by repeat case_match. Qed.

Lemma SharedPtr_in_place_ok x alloc args ok s s' :
  SharedPtr_in_place x alloc args ok s = Ok tt s' -> ok = true.
Proof. rewrite SharedPtr_in_place_eq. by repeat case_match. Qed.

(** *** Triples of the constructors, destructors and swaps *)

Section op_triples.
Context (strict : loc -> bool) (Ω : loc -> option BlockVariant) (n : nat).
Hypothesis Hn : Z.of_nat n + 1 < size_t_modulus.

Local Abbreviation ctor c E := (triple (Inv_at strict Ω n) c (λ _, Inv_at strict Ω (S n)) E).

Lemma triple_SharedPtr_default x E : ctor (SharedPtr_default x) E.
Proof.
  apply triple_of_ctor; [done| |].
  - intros s s' HI _. by apply SharedPtr_default_inv.
  - intros s s'. apply SharedPtr_default_no_throw.
Qed.

Lemma triple_SharedPtr_from_raw x p del alloc ok :
  ctor (SharedPtr_from_raw x p del alloc ok) (Inv_at strict Ω n).
Proof.
  apply triple_of_allocating_ctor; [done| |].
  - intros s s' HI _ Hr. pose proof (SharedPtr_from_raw_ok _ _ _ _ _ _ _ Hr) as ->.
    by eapply SharedPtr_from_raw_inv.
  - intros s s' H. by destruct (SharedPtr_from_raw_throw _ _ _ _ _ _ _ H).
Qed.

Lemma triple_SharedPtr_in_place x alloc args ok :
  ctor (SharedPtr_in_place x alloc args ok) (Inv_at strict Ω n).
Proof.
  apply triple_of_allocating_ctor; [done| |].
  - intros s s' HI _ Hr. pose proof (SharedPtr_in_place_ok _ _ _ _ _ _ Hr) as ->.
    by eapply SharedPtr_in_place_inv.
  - intros s s' H. by destruct (SharedPtr_in_place_throw _ _ _ _ _ _ H).
Qed.

Lemma triple_SharedPtr_copy x y E : ctor (SharedPtr_copy x y) E.
Proof.
  apply triple_of_ctor; [done| |].
  - intros s s'. apply SharedPtr_copy_inv.
  - intros s s'. apply SharedPtr_copy_no_throw.
Qed.

Lemma triple_SharedPtr_move x y E : ctor (SharedPtr_move x y) E.
Proof.
  apply triple_of_ctor; [done| |].
  - intros s s' HI _. by apply SharedPtr_move_inv.
  - intros s s'. apply SharedPtr_move_no_throw.
Qed.

Lemma triple_SharedPtr_from_weak x w E :
  triple (λ s, Inv_at strict Ω n s ∧
               (∀ l, strict l = true -> precondition l (OpSharedFromWeak x w) s = true))
    (SharedPtr_from_weak x w) (λ _, Inv_at strict Ω (S n)) E.
Proof.
  intros s [HI Hpre]. pose proof (Inv_at_bounded _ _ _ _ Hn HI) as Hb.
  destruct HI as [HI Ho].
  destruct (SharedPtr_from_weak x w s) as [[] s'| |] eqn:Hr; [| |done].
  - destruct (SharedPtr_from_weak_inv _ _ _ _ _ _ HI Hb Hpre Hr) as [HI' Ho'].
    split; [done|lia].
  - by destruct (SharedPtr_from_weak_no_throw _ _ _ _ Hr).
Qed.

Lemma triple_SharedPtr_dtor x E :
  triple (Inv_at strict Ω n) (SharedPtr_dtor x) (λ _, Inv_at strict Ω (pred n)) E.
Proof.
  apply triple_of_dtor; [done| |].
  - intros s s'. apply SharedPtr_dtor_inv.
  - intros s s'. apply SharedPtr_dtor_no_throw.
Qed.

Lemma triple_SharedPtr_swap x y E :
  triple (Inv_at strict Ω n) (SharedPtr_swap x y) (λ _, Inv_at strict Ω n) E.
Proof.
  apply triple_of_swap.
  - intros s s'. apply SharedPtr_swap_inv.
  - intros s s'. apply SharedPtr_swap_no_throw.
Qed.

Lemma triple_WeakPtr_default w E : ctor (WeakPtr_default w) E.
Proof.
  apply triple_of_ctor; [done| |].
  - intros s s' HI _. by apply WeakPtr_default_inv.
  - intros s s'. apply WeakPtr_default_no_throw.
Qed.

Lemma triple_WeakPtr_from_shared w x E : ctor (WeakPtr_from_shared w x) E.
Proof.
  apply triple_of_ctor; [done| |].
  - intros s s'. apply WeakPtr_from_shared_inv.
  - intros s s'. apply WeakPtr_from_shared_no_throw.
Qed.

Lemma triple_WeakPtr_copy w v E : ctor (WeakPtr_copy w v) E.
Proof.
  apply triple_of_ctor; [done| |].
  - intros s s'. apply WeakPtr_copy_inv.
  - intros s s'. apply WeakPtr_copy_no_throw.
Qed.

Lemma triple_WeakPtr_move w v E : ctor (WeakPtr_move w v) E.
Proof.
  apply triple_of_ctor; [done| |].
  - intros s s' HI _. by apply WeakPtr_move_inv.
  - intros s s'. apply WeakPtr_move_no_throw.
Qed.

Lemma triple_WeakPtr_dtor w E :
  triple (Inv_at strict Ω n) (WeakPtr_dtor w) (λ _, Inv_at strict Ω (pred n)) E.
Proof.
  apply triple_of_dtor; [done| |].
  - intros s s'. apply WeakPtr_dtor_inv.
  - intros s s'. apply WeakPtr_dtor_no_throw.
Qed.

Lemma triple_WeakPtr_swap w v E :
  triple (Inv_at strict Ω n) (WeakPtr_swap w v) (λ _, Inv_at strict Ω n) E.
Proof.
  apply triple_of_swap.
  - intros s s'. apply WeakPtr_swap_inv.
  - intros s s'. apply WeakPtr_swap_no_throw.
Qed.
End op_triples.

(** *** Assignments, [reset] and [lock] *)

Section composite.
Context (strict : loc -> bool) (Ω : loc -> option BlockVariant) (n : nat).
Hypothesis Hn : Z.of_nat n + 3 < size_t_modulus.

Local Abbreviation keeps c :=
  (triple (Inv_at strict Ω n) c (λ _, Inv_at strict Ω n) (Inv_at strict Ω n)).

Lemma triple_SharedPtr_assign x y : keeps (SharedPtr_assign x y).
Proof.
  unfold SharedPtr_assign.
  eapply triple_bind; [apply triple_local_shared|]. intros c.
  eapply triple_bind; [apply triple_SharedPtr_copy; lia|]. intros ?.
  eapply triple_bind; [apply triple_SharedPtr_swap|]. intros ?.
  apply (triple_SharedPtr_dtor strict Ω (S n)). lia.
Qed.

Lemma triple_SharedPtr_move_assign_at m x y :
  Z.of_nat m + 2 < size_t_modulus ->
  triple (Inv_at strict Ω m) (SharedPtr_move_assign x y) (λ _, Inv_at strict Ω m)
    (Inv_at strict Ω n).
Proof.
  intros Hm. unfold SharedPtr_move_assign.
  eapply triple_bind; [apply triple_local_shared|]. intros c.
  eapply triple_bind; [apply triple_SharedPtr_move; lia|]. intros ?.
  eapply triple_bind; [apply triple_SharedPtr_swap|]. intros ?.
  apply (triple_SharedPtr_dtor strict Ω (S m)). lia.
Qed.

Lemma triple_SharedPtr_move_assign x y : keeps (SharedPtr_move_assign x y).
Proof. apply triple_SharedPtr_move_assign_at. lia. Qed.

Lemma triple_SharedPtr_reset x : keeps (SharedPtr_reset x).
Proof.
  unfold SharedPtr_reset.
  eapply triple_bind; [apply triple_local_shared|]. intros tmp.
  eapply triple_bind; [apply triple_SharedPtr_default; lia|]. intros ?.
  eapply triple_bind; [apply triple_SharedPtr_move_assign_at; lia|]. intros ?.
  apply (triple_SharedPtr_dtor strict Ω (S n)). lia.
Qed.

Lemma triple_SharedPtr_reset_to x p ok : keeps (SharedPtr_reset_to x p ok).
Proof.
  unfold SharedPtr_reset_to.
  eapply triple_bind; [apply triple_local_shared|]. intros tmp.
  eapply triple_bind; [apply triple_SharedPtr_from_raw; lia|]. intros ?.
  eapply triple_bind; [apply triple_SharedPtr_move_assign_at; lia|]. intros ?.
  apply (triple_SharedPtr_dtor strict Ω (S n)). lia.
Qed.

Lemma triple_WeakPtr_assign w v : keeps (WeakPtr_assign w v).
Proof.
  unfold WeakPtr_assign.
  eapply triple_bind; [apply triple_local_weak|]. intros c.
  eapply triple_bind; [apply triple_WeakPtr_copy; lia|]. intros ?.
  eapply triple_bind; [apply triple_WeakPtr_swap|]. intros ?.
  apply (triple_WeakPtr_dtor strict Ω (S n)). lia.
Qed.

Lemma triple_WeakPtr_move_assign w v : keeps (WeakPtr_move_assign w v).
Proof. apply triple_WeakPtr_assign. Qed.

(** [lock] builds from the observer only when the object is alive. *)
Lemma triple_WeakPtr_lock x w E :
  triple (Inv_at strict Ω n) (WeakPtr_lock x w) (λ _, Inv_at strict Ω (S n)) E.
Proof.
  intros s HI. rewrite WeakPtr_lock_eq.
  destruct (weak s !! w) as [[[l|]]|] eqn:Hw; try done.
  destruct (heap s !! l) as [blk|] eqn:Hl; [|done].
  case_decide as Hz.
  - apply (triple_SharedPtr_default strict Ω n); [lia|done].
  - apply (triple_SharedPtr_from_weak strict Ω n); [lia|]. split; [done|].
    intros l' _. simpl. rewrite Hw. simpl. case_decide; [|done]. simplify_eq.
    rewrite Hl. simpl. by apply bool_decide_eq_true.
Qed.

(** Every operation keeps the invariant and adds at most one owner. *)
Lemma triple_step op :
  triple (λ s, Inv_at strict Ω n s ∧ (∀ l, strict l = true -> precondition l op s = true))
    (step op) (λ _, Inv_at strict Ω (S n)) (Inv_at strict Ω n).
Proof.
  assert (∀ c : M unit,
    triple (Inv_at strict Ω n) c (λ _, Inv_at strict Ω n) (Inv_at strict Ω n) ->
    triple (λ s, Inv_at strict Ω n s ∧ (∀ l, strict l = true -> precondition l op s = true))
      c (λ _, Inv_at strict Ω (S n)) (Inv_at strict Ω n)) as Hkeeps.
  { intros c Hc. eapply triple_weaken; [exact Hc| | |]; simpl.
    - by intros s [H _].
    - intros _ s. apply Inv_at_mono. lia.
    - done. }
  assert (∀ c : M unit,
    triple (Inv_at strict Ω n) c (λ _, Inv_at strict Ω (S n)) (Inv_at strict Ω n) ->
    triple (λ s, Inv_at strict Ω n s ∧ (∀ l, strict l = true -> precondition l op s = true))
      c (λ _, Inv_at strict Ω (S n)) (Inv_at strict Ω n)) as Hctor.
  { intros c Hc. eapply triple_weaken; [exact Hc| | |]; simpl; try done.
    by intros s [H _]. }
  assert (∀ c : M unit,
    triple (Inv_at strict Ω n) c (λ _, Inv_at strict Ω (pred n)) (Inv_at strict Ω n) ->
    triple (λ s, Inv_at strict Ω n s ∧ (∀ l, strict l = true -> precondition l op s = true))
      c (λ _, Inv_at strict Ω (S n)) (Inv_at strict Ω n)) as Hdtor.
  { intros c Hc. eapply triple_weaken; [exact Hc| | |]; simpl.
    - by intros s [H _].
    - intros _ s. apply Inv_at_mono. lia.
    - done. }
  destruct op; simpl step.
  - apply Hctor, triple_SharedPtr_default. lia.
  - apply Hctor, triple_SharedPtr_from_raw. lia.
  - apply Hctor, triple_SharedPtr_in_place. lia.
  - apply Hctor, triple_SharedPtr_in_place. lia.
  - apply Hctor, triple_SharedPtr_copy. lia.
  - apply Hctor, triple_SharedPtr_move. lia.
  - apply triple_SharedPtr_from_weak. lia.
  - apply Hkeeps, triple_SharedPtr_assign.
  - apply Hkeeps, triple_SharedPtr_move_assign.
  - apply Hkeeps, triple_SharedPtr_reset.
  - apply Hkeeps, triple_SharedPtr_reset_to.
  - apply Hkeeps, triple_SharedPtr_swap.
  - apply Hdtor, triple_SharedPtr_dtor. lia.
  - apply Hctor, triple_WeakPtr_default. lia.
  - apply Hctor, triple_WeakPtr_from_shared. lia.
  - apply Hctor, triple_WeakPtr_copy. lia.
  - apply Hctor, triple_WeakPtr_move. lia.
  - apply Hkeeps, triple_WeakPtr_assign.
  - apply Hkeeps, triple_WeakPtr_move_assign.
  - apply Hkeeps, triple_WeakPtr_swap.
  - apply Hctor, triple_WeakPtr_lock.
  - apply Hdtor, triple_WeakPtr_dtor. lia.
Qed.
End composite.

(** *** Whole programs *)

Lemma run_Inv_at strict Ω ops : ∀ n s s',
  Inv_at strict Ω n s ->
  Z.of_nat (n + length ops) + 2 < size_t_modulus ->
  (∀ l, strict l = true -> within_contract l ops s) ->
  run ops s = Some s' ->
  Inv_at strict Ω (n + length ops) s'.
Proof.
  induction ops as [|op ops IH]; intros n s s' HI Hn Hc Hrun;
    cbn [within_contract run length] in *.
  - simplify_eq. by rewrite Nat.add_0_r.
  - assert (Z.of_nat n + 3 < size_t_modulus) as Hn3 by lia.
    pose proof (triple_step strict Ω n Hn3 op s) as Hstep.
    assert (∀ l, strict l = true ->
              precondition l op s = true ∧
              match after (step op s) with
              | Some s' => within_contract l ops s'
              | None => True
              end) as Hc' by (intros l Hs; exact (Hc l Hs)).
    clear Hc. rename Hc' into Hc.
    destruct (step op s) as [[] s1|s1|] eqn:Hop; cbn [after] in *; [| |done].
    + replace (n + S (length ops))%nat with (S n + length ops)%nat by lia.
      apply (IH (S n) s1); [|lia| |done].
      * apply Hstep. split; [done|]. intros l Hs. by destruct (Hc l Hs).
      * intros l Hs. by destruct (Hc l Hs) as [_ Hc'].
    + replace (n + S (length ops))%nat with (S n + length ops)%nat by lia.
      apply (IH (S n) s1); [|lia| |done].
      * apply Inv_at_mono with n; [lia|].
        apply Hstep. split; [done|]. intros l Hs. by destruct (Hc l Hs).
      * intros l Hs. by destruct (Hc l Hs) as [_ Hc'].
Qed.

(** The states programs reach: the counting invariant holds in all of
    them, the strict one for the blocks whose contract the program keeps. *)
Lemma reachable_Inv ops s :
  Z.of_nat (length ops) + 2 < size_t_modulus ->
  run ops init = Some s -> Inv no_block no_origin s.
Proof.
  intros Hlen Hrun.
  apply (run_Inv_at no_block no_origin ops 0 init s); [|done|done|done].
  split; [apply Inv_init|]. done.
Qed.

Lemma reachable_Inv_strict l ops s :
  Z.of_nat (length ops) + 2 < size_t_modulus ->
  within_contract l ops init ->
  run ops init = Some s -> Inv (only l) no_origin s.
Proof.
  intros Hlen Hc Hrun.
  apply (run_Inv_at (only l) no_origin ops 0 init s); [|done| |done].
  - split; [apply Inv_init|]. done.
  - intros l' Hl'. apply bool_decide_eq_true in Hl'. by subst.
Qed.

(** *** Operations only add to the trace and to the allocator's mark *)

Lemma extends_refl s : extends s s.
Proof. split; [lia|]. exists []. by rewrite app_nil_r. Qed.

Lemma extends_trans s0 s1 s2 : extends s0 s1 -> extends s1 s2 -> extends s0 s2.
Proof.
  intros [Hn1 [es1 H1]] [Hn2 [es2 H2]]. split; [lia|].
  exists (es1 ++ es2). by rewrite H2, H1, app_assoc.
Qed.

Ltac extends_by eq :=
  intros s s'; rewrite eq; unfold_sets; simpl;
  repeat case_match; simpl; intros; simplify_eq;
  (split; simpl; [lia|]);
  first [ by (exists []; rewrite app_nil_r) | by eexists ].

Lemma SharedPtr_default_extends x s s' :
  after (SharedPtr_default x s) = Some s' -> extends s s'.
Proof. revert s s'. extends_by SharedPtr_default_eq. Qed.

Lemma SharedPtr_from_raw_extends x p del alloc ok s s' :
  after (SharedPtr_from_raw x p del alloc ok s) = Some s' -> extends s s'.
Proof. revert s s'. extends_by SharedPtr_from_raw_eq. Qed.

Lemma SharedPtr_in_place_extends x alloc args ok s s' :
  after (SharedPtr_in_place x alloc args ok s) = Some s' -> extends s s'.
Proof. revert s s'. extends_by SharedPtr_in_place_eq. Qed.

Lemma SharedPtr_copy_extends x y s s' :
  after (SharedPtr_copy x y s) = Some s' -> extends s s'.
Proof. revert s s'. extends_by SharedPtr_copy_eq. Qed.

Lemma SharedPtr_move_extends x y s s' :
  after (SharedPtr_move x y s) = Some s' -> extends s s'.
Proof. revert s s'. extends_by SharedPtr_move_eq. Qed.

Lemma SharedPtr_from_weak_extends x w s s' :
  after (SharedPtr_from_weak x w s) = Some s' -> extends s s'.
Proof. revert s s'. extends_by SharedPtr_from_weak_eq. Qed.

Lemma SharedPtr_dtor_extends x s s' :
  after (SharedPtr_dtor x s) = Some s' -> extends s s'.
Proof. revert s s'. extends_by SharedPtr_dtor_eq. Qed.

Lemma SharedPtr_swap_extends x y s s' :
  after (SharedPtr_swap x y s) = Some s' -> extends s s'.
Proof. revert s s'. extends_by SharedPtr_swap_eq. Qed.

Lemma WeakPtr_default_extends w s s' :
  after (WeakPtr_default w s) = Some s' -> extends s s'.
Proof. revert s s'. extends_by WeakPtr_default_eq. Qed.

Lemma WeakPtr_from_shared_extends w x s s' :
  after (WeakPtr_from_shared w x s) = Some s' -> extends s s'.
Proof. revert s s'. extends_by WeakPtr_from_shared_eq. Qed.

Lemma WeakPtr_copy_extends w v s s' :
  after (WeakPtr_copy w v s) = Some s' -> extends s s'.
Proof. revert s s'. extends_by WeakPtr_copy_eq. Qed.

Lemma WeakPtr_move_extends w v s s' :
  after (WeakPtr_move w v s) = Some s' -> extends s s'.
Proof. revert s s'. extends_by WeakPtr_move_eq. Qed.

Lemma WeakPtr_dtor_extends w s s' :
  after (WeakPtr_dtor w s) = Some s' -> extends s s'.
Proof. revert s s'. extends_by WeakPtr_dtor_eq. Qed.

Lemma WeakPtr_swap_extends w v s s' :
  after (WeakPtr_swap w v s) = Some s' -> extends s s'.
Proof. revert s s'. extends_by WeakPtr_swap_eq. Qed.

Lemma triple_extends {A} (c : M A) s0 :
  (∀ s s', after (c s) = Some s' -> extends s s') ->
  triple (extends s0) c (λ _, extends s0) (extends s0).
Proof.
  intros Hc s Hs. specialize (Hc s).
  destruct (c s) as [a s'|s'|]; [..|done]; eapply extends_trans; eauto.
Qed.

Lemma extends_of_triple {A} (c : M A) :
  (∀ s0, triple (extends s0) c (λ _, extends s0) (extends s0)) ->
  ∀ s s', after (c s) = Some s' -> extends s s'.
Proof.
  intros Hc s s' Hr. specialize (Hc s s (extends_refl s)).
  destruct (c s); simpl in Hr; by simplify_eq.
Qed.

Lemma triple_extends_local_shared s0 :
  triple (extends s0) local_shared (λ _, extends s0) (extends s0).
Proof. apply triple_local_shared. Qed.

Lemma triple_extends_local_weak s0 :
  triple (extends s0) local_weak (λ _, extends s0) (extends s0).
Proof. apply triple_local_weak. Qed.

Lemma SharedPtr_assign_extends x y s s' :
  after (SharedPtr_assign x y s) = Some s' -> extends s s'.
Proof.
  revert s s'. apply extends_of_triple. intros s0. unfold SharedPtr_assign.
  eapply triple_bind; [apply triple_extends_local_shared|intros ?].
  eapply triple_bind; [apply triple_extends, SharedPtr_copy_extends|intros ?].
  eapply triple_bind; [apply triple_extends, SharedPtr_swap_extends|intros ?].
  apply triple_extends, SharedPtr_dtor_extends.
Qed.

Lemma SharedPtr_move_assign_extends x y s s' :
  after (SharedPtr_move_assign x y s) = Some s' -> extends s s'.
Proof.
  revert s s'. apply extends_of_triple. intros s0. unfold SharedPtr_move_assign.
  eapply triple_bind; [apply triple_extends_local_shared|intros ?].
  eapply triple_bind; [apply triple_extends, SharedPtr_move_extends|intros ?].
  eapply triple_bind; [apply triple_extends, SharedPtr_swap_extends|intros ?].
  apply triple_extends, SharedPtr_dtor_extends.
Qed.

Lemma SharedPtr_reset_extends x s s' :
  after (SharedPtr_reset x s) = Some s' -> extends s s'.
Proof.
  revert s s'. apply extends_of_triple. intros s0. unfold SharedPtr_reset.
  eapply triple_bind; [apply triple_extends_local_shared|intros ?].
  eapply triple_bind; [apply triple_extends, SharedPtr_default_extends|intros ?].
  eapply triple_bind; [apply triple_extends, SharedPtr_move_assign_extends|intros ?].
  apply triple_extends, SharedPtr_dtor_extends.
Qed.

Lemma SharedPtr_reset_to_extends x p ok s s' :
  after (SharedPtr_reset_to x p ok s) = Some s' -> extends s s'.
Proof.
  revert s s'. apply extends_of_triple. intros s0. unfold SharedPtr_reset_to.
  eapply triple_bind; [apply triple_extends_local_shared|intros ?].
  eapply triple_bind; [apply triple_extends, SharedPtr_from_raw_extends|intros ?].
  eapply triple_bind; [apply triple_extends, SharedPtr_move_assign_extends|intros ?].
  apply triple_extends, SharedPtr_dtor_extends.
Qed.

Lemma WeakPtr_assign_extends w v s s' :
  after (WeakPtr_assign w v s) = Some s' -> extends s s'.
Proof.
  revert s s'. apply extends_of_triple. intros s0. unfold WeakPtr_assign.
  eapply triple_bind; [apply triple_extends_local_weak|intros ?].
  eapply triple_bind; [apply triple_extends, WeakPtr_copy_extends|intros ?].
  eapply triple_bind; [apply triple_extends, WeakPtr_swap_extends|intros ?].
  apply triple_extends, WeakPtr_dtor_extends.
Qed.

Lemma WeakPtr_lock_extends x w s s' :
  after (WeakPtr_lock x w s) = Some s' -> extends s s'.
Proof.
  rewrite WeakPtr_lock_eq. repeat case_match; try done.
  - apply SharedPtr_default_extends.
  - apply SharedPtr_from_weak_extends.
Qed.

Lemma step_extends op s s' : after (step op s) = Some s' -> extends s s'.
Proof.
  destruct op; simpl step; unfold makeShared, allocateShared.
  - apply SharedPtr_default_extends.
  - apply SharedPtr_from_raw_extends.
  - apply SharedPtr_in_place_extends.
  - apply SharedPtr_in_place_extends.
  - apply SharedPtr_copy_extends.
  - apply SharedPtr_move_extends.
  - apply SharedPtr_from_weak_extends.
  - apply SharedPtr_assign_extends.
  - apply SharedPtr_move_assign_extends.
  - apply SharedPtr_reset_extends.
  - apply SharedPtr_reset_to_extends.
  - apply SharedPtr_swap_extends.
  - apply SharedPtr_dtor_extends.
  - apply WeakPtr_default_extends.
  - apply WeakPtr_from_shared_extends.
  - apply WeakPtr_copy_extends.
  - apply WeakPtr_move_extends.
  - apply WeakPtr_assign_extends.
  - apply WeakPtr_assign_extends.
  - apply WeakPtr_swap_extends.
  - apply WeakPtr_lock_extends.
  - apply WeakPtr_dtor_extends.
Qed.

Lemma run_extends ops : ∀ s s', run ops s = Some s' -> extends s s'.
Proof.
  induction ops as [|op ops IH]; intros s s' Hrun; simpl in Hrun.
  - simplify_eq. apply extends_refl.
  - destruct (after (step op s)) as [s1|] eqn:Hop; [|done].
    eapply extends_trans; [by apply (step_extends op)|by apply IH].
Qed.

(** ** Reading the invariant off the trace *)

Lemma teardown_not_deallocation e : is_teardown e = true -> is_deallocation e = false.
Proof. by destruct e as [? ? ? []]. Qed.

Lemma deallocation_not_teardown e : is_deallocation e = true -> is_teardown e = false.
Proof. by destruct e as [? ? ? []]. Qed.

Lemma filter_all {A} (P : A -> Prop) `{∀ x, Decision (P x)} (l : list A) :
  Forall P l -> filter P l = l.
Proof.
  induction 1 as [|x l Hx _ IH]; [done|]. by rewrite filter_cons_True, IH.
Qed.

Lemma filter_none {A} (P : A -> Prop) `{∀ x, Decision (P x)} (l : list A) :
  Forall (λ x, ¬ P x) l -> filter P l = [].
Proof.
  induction 1 as [|x l Hx _ IH]; [done|]. by rewrite filter_cons_False.
Qed.

(** The teardowns and the deallocations of a block are the two parts of
    its calls. *)
Lemma calls_split tds ds :
  Forall teardown_at_zero tds -> Forall deallocation_at_zero ds ->
  filter (λ e, is_teardown e = true) (tds ++ ds) = tds ∧
  filter (λ e, is_deallocation e = true) (tds ++ ds) = ds.
Proof.
  intros Htd Hds. rewrite !filter_app. split.
  - rewrite filter_all, filter_none, app_nil_r; [done| |].
    + eapply Forall_impl; [exact Hds|]. intros e (He & _).
      by rewrite (deallocation_not_teardown e He).
    + eapply Forall_impl; [exact Htd|]. by intros e (He & _).
  - rewrite filter_none, filter_all; [done| |].
    + eapply Forall_impl; [exact Hds|]. by intros e (He & _).
    + eapply Forall_impl; [exact Htd|]. intros e (He & _).
      by rewrite (teardown_not_deallocation e He).
Qed.

(** A deallocation among the calls of a block is the last of them, and
    teardowns come before it. *)
Lemma deallocation_is_last tds ds (A B : list Event) d :
  Forall teardown_at_zero tds -> Forall deallocation_at_zero ds ->
  (length ds ≤ 1)%nat ->
  tds ++ ds = A ++ d :: B -> is_deallocation d = true ->
  A = tds ∧ ds = [d] ∧ B = [].
Proof.
  intros Htd Hds Hlen Heq Hd.
  assert (d ∉ tds) as Hnot.
  { intros Hin. rewrite Forall_forall in Htd. destruct (Htd d Hin) as [Ht _].
    by rewrite (deallocation_not_teardown d Hd) in Ht. }
  destruct ds as [|d0 [|? ?]]; simpl in Hlen; [| |lia].
  - rewrite app_nil_r in Heq. subst tds. destruct Hnot. set_solver.
  - destruct (decide (B = [])) as [->|HB].
    + apply app_inj_tail in Heq as [-> ->]. done.
    + destruct (exists_last HB) as (B' & b & ->).
      rewrite app_comm_cons, app_assoc in Heq.
      apply app_inj_tail in Heq as [-> _]. destruct Hnot. set_solver.
Qed.

Lemma calls_of_cons_same l d tr : ev_block d = l -> calls_of l (d :: tr) = d :: calls_of l tr.
Proof. intros. unfold calls_of. by rewrite filter_cons_True. Qed.

Lemma teardowns_app l tr es : teardowns l (tr ++ es) = teardowns l tr ++ teardowns l es.
Proof. unfold teardowns. by rewrite calls_of_app, filter_app. Qed.

(** Within the contract, the number of teardowns of a block tells whether
    a [SharedPtr] is still bound to it. *)
Lemma teardown_count strict Ω s l :
  Inv strict Ω s -> strict l = true ->
  length (teardowns l (trace s)) =
    (if decide (allocated l s = true ∧ strong_refs l s = 0%nat) then 1%nat else 0%nat) ∧
  Forall (λ e, ev_shared e = 0) (teardowns l (trace s)).
Proof.
  intros HI Hl. destruct (HI l) as (Hc & (tds & ds & Hcs & Htd & Hds & Hm) & Ht & _).
  specialize (Ht Hl). unfold block_torn_once in Ht.
  destruct (calls_split tds ds Htd Hds) as [Hft _].
  unfold teardowns. split.
  - rewrite Ht. set (ob := heap s !! l) in *. set (al := allocated l s) in *.
    clearbody ob al. destruct ob as [blk|]; unfold block_counts_ok, object_alive in *.
    + destruct Hc as (Hs & _ & _ & ->).
      destruct (decide (strong_refs l s = 0%nat)) as [Hr|Hr].
      * rewrite decide_True by done. by rewrite bool_decide_eq_false_2 by lia.
      * rewrite decide_False by (by intros [_ ?]). by rewrite bool_decide_eq_true_2 by lia.
    + destruct Hc as [Hs _]. destruct al.
      * by rewrite decide_True.
      * by rewrite decide_False by (by intros [? _]).
  - rewrite Hcs, Hft. eapply Forall_impl; [exact Htd|]. by intros e (_ & He).
Qed.

(** ** Assignment and [reset] in closed form *)

Lemma fresh_shared_None s : strong s !! fresh (dom (strong s)) = None.
Proof. apply not_elem_of_dom, is_fresh. Qed.

Lemma fresh_weak_None s : weak s !! fresh (dom (weak s)) = None.
Proof. apply not_elem_of_dom, is_fresh. Qed.

(** What the destructor leaves of the stores. *)
Lemma SharedPtr_dtor_stores x s s' :
  SharedPtr_dtor x s = Ok tt s' ->
  strong s' = delete x (strong s) ∧ weak s' = weak s ∧ next s' = next s.
Proof.
  rewrite SharedPtr_dtor_eq. unfold_sets. repeat case_match; simpl; intros; by simplify_eq.
Qed.

(** Move assignment from another object: the source is emptied, the
    target takes what the source had, and the local [copy], now holding
    what the target had, is destroyed. *)
Lemma SharedPtr_move_assign_eq x y s t o :
  x ≠ y -> strong s !! x = Some t -> strong s !! y = Some o ->
  let copy := fresh (dom (strong s)) in
  SharedPtr_move_assign x y s =
  SharedPtr_dtor copy
    (set_strong (<[copy := t]> (<[x := o]> (<[y := mkShared nullptr None]> (strong s)))) s).
Proof.
  intros Hne Hx Hy copy. unfold SharedPtr_move_assign, local_shared. unfold_M.
  fold copy. pose proof (fresh_shared_None s) as Hc. fold copy in Hc.
  assert (copy ≠ x) by congruence. assert (copy ≠ y) by congruence.
  rewrite SharedPtr_move_eq, Hy, Hc. unfold set_strong. simpl.
  rewrite SharedPtr_swap_eq. simpl.
  rewrite lookup_insert_ne, lookup_insert_ne, Hx by done.
  rewrite lookup_insert_ne, lookup_insert_eq by done. simpl.
  f_equal. unfold set_strong. simpl. f_equal.
  apply map_eq. intros k. rewrite !lookup_insert.
  repeat case_decide; simplify_eq; done.
Qed.

(** [reset()] leaves the object empty. *)
Lemma SharedPtr_reset_leaves_empty x s s' t :
  strong s !! x = Some t ->
  SharedPtr_reset x s = Ok tt s' -> strong s' !! x = Some (mkShared nullptr None).
Proof.
  intros Hx. unfold SharedPtr_reset, local_shared. unfold_M.
  pose proof (fresh_shared_None s) as Htmp.
  set (tmp := fresh (dom (strong s))) in *.
  rewrite SharedPtr_default_eq, Htmp.
  set (s1 := set_strong (<[tmp := mkShared nullptr None]> (strong s)) s).
  assert (strong s1 !! tmp = Some (mkShared nullptr None)) as Htmp1 by apply lookup_insert_eq.
  pose proof (fresh_shared_None s1) as Hcopy.
  assert (x ≠ tmp) as Hne by congruence.
  assert (strong s1 !! x = Some t) as Hx1.
  { unfold s1. simpl. by rewrite lookup_insert_ne. }
  rewrite (SharedPtr_move_assign_eq x tmp s1 t (mkShared nullptr None) Hne Hx1 Htmp1).
  cbv zeta.
  set (copy := fresh (dom (strong s1))) in *.
  assert (x ≠ copy) as Hne' by congruence.
  match goal with |- context [SharedPtr_dtor copy ?st] => set (s2 := st) end.
  destruct (SharedPtr_dtor copy s2) as [[] s3| |] eqn:Hd; try done.
  destruct (SharedPtr_dtor_stores _ _ _ Hd) as (Hst3 & _ & _).
  intros Hd'. destruct (SharedPtr_dtor_stores _ _ _ Hd') as (-> & _ & _).
  rewrite Hst3. unfold s2. simpl.
  rewrite lookup_delete_ne, lookup_delete_ne, lookup_insert_ne by done.
  apply lookup_insert_eq.
Qed.

(** From where a block is created on, the invariant can ask the contract
    of it and track its members. *)
Lemma Inv_set_origin Ω s l v0 :
  Inv no_block Ω s ->
  block_torn_once (heap s !! l) (calls_of l (trace s)) (allocated l s) ->
  block_origin_ok v0 (heap s !! l) (calls_of l (trace s)) (allocated l s) ->
  Inv (only l) (λ l', if decide (l' = l) then Some v0 else Ω l') s.
Proof.
  intros HI Ht Hog l'. destruct (HI l') as (Hc & Hcalls & _ & _).
  unfold only. split_and!; try done.
  - intros Hl. apply bool_decide_eq_true in Hl. by subst.
  - intros Hl v Hv. apply bool_decide_eq_true in Hl. subst.
    rewrite decide_True in Hv by done. by simplify_eq.
Qed.

(** ** Construction from a pointer of another type *)

Lemma SharedPtr_from_raw_converting_same x p del alloc ok :
  SharedPtr_from_raw_converting x p p del alloc ok = SharedPtr_from_raw x p del alloc ok.
Proof. reflexivity. Qed.

Lemma SharedPtr_from_raw_converting_eq x p q del alloc ok s :
  SharedPtr_from_raw_converting x p q del alloc ok s =
  match strong s !! x with
  | Some _ => Undefined
  | None =>
      if ok then
        match heap s !! next s with
        | Some _ => Undefined
        | None =>
            Ok tt (mkState (<[next s := mkBlock 1 0 (ControlBlockRegular p del alloc)]> (heap s))
                     (Pos.succ (next s)) (trace s)
                     (<[x := mkShared q (Some (next s))]> (strong s)) (weak s))
        end
      else Throw s
  end.
Proof.
  unfold SharedPtr_from_raw_converting, constructor_shared. unfold_prims. unfold_M. simpl.
  destruct (strong s !! x) eqn:Hx; [done|].
  destruct ok; simpl.
  - destruct (heap s !! next s) eqn:Hn; [done|]. exec.
    by rewrite !insert_insert_eq.
  - rewrite delete_insert_id by done. by rewrite state_eta.
Qed.

Lemma SharedPtr_from_raw_converting_inv strict Ω x p q del alloc s s' :
  Inv strict Ω s -> SharedPtr_from_raw_converting x p q del alloc true s = Ok tt s' ->
  Inv strict Ω s' ∧ owners s' = S (owners s).
Proof.
  intros HI Hrun. rewrite SharedPtr_from_raw_converting_eq in Hrun.
  destruct (strong s !! x) eqn:Hx; [done|].
  pose proof (Inv_next_fresh _ _ _ HI) as Hn. rewrite Hn in Hrun. simplify_eq. split.
  - intros l'. destruct (decide (l' = next s)) as [->|Hne].
    + destruct (Inv_unallocated _ _ _ HI) as (Hs & Hw & Hc).
      pose proof (Inv_unallocated_ok _ _ _ HI) as Hun.
      unfold strong_refs, weak_refs, allocated in *. simpl.
      rewrite lookup_insert_eq, refs_insert_fresh, decide_True, Hs, Hw, Hc by done.
      rewrite bool_decide_eq_true_2 by lia.
      by apply block_ok_alloc, Inv_unallocated_ok.
    + inv_frame HI l'.
      rewrite lookup_insert_ne, refs_insert_fresh, decide_False by (simpl; congruence).
      fold (allocated l' s). by rewrite allocated_succ.
  - unfold owners. simpl. by rewrite map_size_insert_None.
Qed.

(** ** Managed objects that hold owners *)

(** While no object holds an owner, the destructor that runs the
    destructors of the objects is the destructor [SharedPtr_dtor]. *)
Lemma SharedPtr_dtor_with_plain dtor x s :
  SharedPtr_dtor_with dtor plain x s = SharedPtr_dtor x s.
Proof.
  rewrite SharedPtr_dtor_eq.
  unfold SharedPtr_dtor_with, destroy_ptr_nested. unfold_prims. unfold_M. simpl.
  destruct (strong s !! x) as [[p [l|]]|] eqn:Hx; simpl; try done.
  2:{ by rewrite Hx. }
  destruct (heap s !! l) as [blk|] eqn:Hl; simpl; try done.
  rewrite !lookup_insert_eq. simpl.
  case_decide; simpl. { by rewrite Hx. }
  destruct blk as [sc wc [p0 d a|a o]]; simpl in *; exec;
    case_decide as Hw; exec;
    rewrite ?insert_insert_eq, ?delete_insert_eq, ?Hw, <- ?app_assoc; done.
Qed.

Lemma SharedPtr_dtor_nested_plain fuel x s :
  SharedPtr_dtor_nested fuel plain x s = SharedPtr_dtor x s.
Proof. destruct fuel; apply SharedPtr_dtor_with_plain. Qed.

(** * The properties of the specification *)

(** ** C1: the block is freed exactly once, after teardown, with both counts at 0 *)

(** X23. While no managed object holds an owner, so that the destructor
    of none runs an operation on an owner ([plain], where
    [SharedPtr_dtor_nested] is [SharedPtr_dtor]): for every program and
    every block, [deallocate_block] has been called on the block exactly
    once when the block was created and no [SharedPtr] and no [WeakPtr]
    is bound to it any more, and not at all otherwise; a call of it comes
    after a call of [destroy_ptr] on the block, was made with both counts
    at 0, and is the last call the block makes.  The order in which the
    two counts reach 0 is any the program chooses. *)
Theorem deallocate_block_exactly_once ops s l :
  Z.of_nat (length ops) + 2 < size_t_modulus ->
  run ops init = Some s ->
  length (deallocations l (trace s)) =
    (if decide (allocated l s = true ∧ strong_refs l s = 0%nat ∧ weak_refs l s = 0%nat)
     then 1%nat else 0%nat) ∧
  ∀ pre d post,
    trace s = pre ++ d :: post -> ev_block d = l -> is_deallocation d = true ->
    teardowns l pre ≠ [] ∧ ev_shared d = 0 ∧ ev_weak d = 0 ∧ calls_of l post = [].
Proof.
  intros Hlen Hrun. pose proof (reachable_Inv ops s Hlen Hrun l) as HI.
  destruct HI as (Hc & (tds & ds & Hcs & Htd & Hds & Hm) & _).
  destruct (calls_split tds ds Htd Hds) as [Hft Hfd].
  set (ob := heap s !! l) in *. set (al := allocated l s) in *. clearbody ob al.
  assert (length ds ≤ 1)%nat as Hle.
  { destruct ob; [destruct Hm as [-> _]; simpl; lia|].
    destruct al; destruct Hm as [? ?]; subst; simpl; lia. }
  split.
  - unfold deallocations. rewrite Hcs, Hfd.
    destruct ob as [blk|]; simpl in Hc.
    + destruct Hm as [-> _]. destruct Hc as (_ & _ & Hpos & _).
      rewrite decide_False; [done|]. intros (_ & ? & ?). lia.
    + destruct Hc as [Hs Hw]. destruct al; destruct Hm as [? Hd].
      * rewrite decide_True; done.
      * subst. rewrite decide_False; [done|]. by intros (? & _).
  - intros pre d post Htr Hd Hdd.
    rewrite Htr in Hcs. rewrite calls_of_app, calls_of_cons_same in Hcs by done.
    symmetry in Hcs.
    destruct (deallocation_is_last _ _ _ _ _ Htd Hds Hle Hcs Hdd) as (Hpre & -> & Hpost).
    apply Forall_inv in Hds. destruct Hds as (_ & Hz1 & Hz2).
    split_and!; try done.
    unfold teardowns. rewrite Hpre. rewrite (filter_all _ tds).
    + destruct ob; [by destruct Hm|].
      destruct al; by destruct Hm.
    + eapply Forall_impl; [exact Htd|]. by intros e (He & _).
Qed.

Lemma deallocate_block_exactly_once_witness :
  (∃ s, run scenario_weak_first init = Some s ∧
        length (deallocations 1%positive (trace s)) = 1%nat) ∧
  (∃ s, run scenario_strong_first init = Some s ∧
        length (deallocations 1%positive (trace s)) = 0%nat) ∧
  (∃ s, run (scenario_strong_first ++ [OpWeakDestroy 5]) init = Some s ∧
        length (deallocations 1%positive (trace s)) = 1%nat).
Proof.
  split_and!; (eexists; split; [vm_compute; reflexivity|]).
  - match goal with
    | |- length (deallocations _ (trace ?s)) = _ =>
        destruct (deallocate_block_exactly_once scenario_weak_first s 1%positive)
          as [Hd _]; [vm_compute; reflexivity..|]
    end.
    rewrite Hd. vm_compute. reflexivity.
  - match goal with
    | |- length (deallocations _ (trace ?s)) = _ =>
        destruct (deallocate_block_exactly_once scenario_strong_first s 1%positive)
          as [Hd _]; [vm_compute; reflexivity..|]
    end.
    rewrite Hd. vm_compute. reflexivity.
  - match goal with
    | |- length (deallocations _ (trace ?s)) = _ =>
        destruct (deallocate_block_exactly_once
                    (scenario_strong_first ++ [OpWeakDestroy 5]) s 1%positive)
          as [Hd _]; [vm_compute; reflexivity..|]
    end.
    rewrite Hd. vm_compute. reflexivity.
Defined.

(** C1. The claim fails on the code for a managed object that holds a
    [WeakPtr] bound to its own block, here a [Node] with the member
    [WeakPtr<Node> self].  When the last [SharedPtr] is destroyed,
    [shared_count] goes to 0 (l.193) and [destroy_ptr] calls the deleter
    (l.29), which destroys the object and with it the member; the
    destructor of the member finds both counts at 0 and calls
    [deallocate_block] (l.292-293): the block is freed before
    [destroy_ptr] has completed.  [destroy_ptr] then writes [ptr] in the
    freed block (l.30), and [~SharedPtr] goes on to read [weak_count] in
    it (l.196): the destructor is undefined behaviour, whatever the fuel. *)
Theorem deallocate_block_inside_destroy_ptr :
  ∃ s s1 s2,
    run node_from_raw init = Some s ∧
    strong s !! 0%nat = Some (mkShared (raw_object 7) (Some 1%positive)) ∧
    weak s !! 5%nat = Some (mkWeak (Some 1%positive)) ∧
    heap s !! 1%positive =
      Some (mkBlock 1 1 (ControlBlockRegular (raw_object 7) default_delete default_allocator)) ∧
    decr_shared_count (Some 1%positive) s = Ok tt s1 ∧
    (emit (Some 1%positive) (call_deleter default_delete (raw_object 7));;
     destroy_members (λ _, undefined) (node_layout (raw_object 7))) s1 = Ok tt s2 ∧
    map ev_call (calls_of 1%positive (trace s2)) =
      [call_deleter default_delete (raw_object 7); call_deallocate default_allocator] ∧
    heap s2 !! 1%positive = None ∧
    update_block (Some 1%positive)
      (set_variant (ControlBlockRegular nullptr default_delete default_allocator)) s2
      = Undefined ∧
    ∀ fuel, SharedPtr_dtor_nested fuel node_layout 0 s = Undefined.
Proof.
  eexists. eexists. eexists.
  split; [vm_compute; reflexivity|].
  split; [vm_compute; reflexivity|].
  split; [vm_compute; reflexivity|].
  split; [vm_compute; reflexivity|].
  split; [vm_compute; reflexivity|].
  split; [vm_compute; reflexivity|].
  split; [vm_compute; reflexivity|].
  split; [vm_compute; reflexivity|].
  split; [vm_compute; reflexivity|].
  intros fuel. destruct fuel; vm_compute; reflexivity.
Qed.

(** The same with the object embedded in the block: [destroy] destroys
    the object and its member, whose destructor frees the block, the
    object in it still being destroyed; [destroy_ptr] returns, and
    [~SharedPtr] reads [weak_count] in the freed block (l.196). *)
Lemma deallocate_block_inside_destroy :
  ∃ s s1 s2,
    run node_in_place init = Some s ∧
    decr_shared_count (Some 1%positive) s = Ok tt s1 ∧
    destroy_ptr_nested (λ _, undefined) node_layout (Some 1%positive) s1 = Ok tt s2 ∧
    map ev_call (calls_of 1%positive (trace s2)) =
      [call_destroy default_allocator; call_deallocate default_allocator] ∧
    heap s2 !! 1%positive = None ∧
    deref (Some 1%positive) s2 = Undefined ∧
    ∀ fuel, SharedPtr_dtor_nested fuel node_layout 0 s = Undefined.
Proof.
  eexists. eexists. eexists.
  split; [vm_compute; reflexivity|].
  split; [vm_compute; reflexivity|].
  split; [vm_compute; reflexivity|].
  split; [vm_compute; reflexivity|].
  split; [vm_compute; reflexivity|].
  split; [vm_compute; reflexivity|].
  intros fuel. destruct fuel; vm_compute; reflexivity.
Qed.

(** ** C2: teardown runs exactly once, when the last [SharedPtr] goes *)

(** C2, as stated, fails: the claim is about every sequence of owner
    operations, and a [SharedPtr] built directly from an expired
    [WeakPtr] makes [destroy_ptr] run on the block a second time when it
    is destroyed. *)
Lemma destroy_ptr_twice_outside_the_contract :
  ¬ (∀ ops s l,
       Z.of_nat (length ops) + 3 < size_t_modulus ->
       run ops init = Some s ->
       length (teardowns l (trace s)) =
         (if decide (allocated l s = true ∧ strong_refs l s = 0%nat)
          then 1%nat else 0%nat)).
Proof.
  intros H.
  eassert (run [OpMakeShared 0 42 true; OpWeakFromShared 0 0; OpSharedDestroy 0;
                OpSharedFromWeak 1 0; OpSharedDestroy 1] init = Some _) as Hrun.
  { vm_compute. reflexivity. }
  eapply (H _ _ 1%positive) in Hrun; [|vm_compute; reflexivity].
  vm_compute in Hrun. discriminate.
Qed.

(** C2, as amended. For every block and every program that keeps the
    contract for that block (no [SharedPtr] is built directly from a
    [WeakPtr] of the block once its object has expired; [lock] is free):
    [destroy_ptr] has run on the block exactly once when the block was
    created and no [SharedPtr] is bound to it any more, and not at all
    while one is; each run of it was made with [shared_count] at 0; and an
    operation runs it on an existing block exactly when the operation
    takes the number of [SharedPtr]s bound to the block to 0. *)
Theorem destroy_ptr_exactly_once ops s l :
  Z.of_nat (length ops) + 3 < size_t_modulus ->
  within_contract l ops init ->
  run ops init = Some s ->
  length (teardowns l (trace s)) =
    (if decide (allocated l s = true ∧ strong_refs l s = 0%nat) then 1%nat else 0%nat) ∧
  Forall (λ e, ev_shared e = 0) (teardowns l (trace s)) ∧
  ∀ op s',
    precondition l op s = true -> after (step op s) = Some s' -> allocated l s = true ->
    ∃ es, trace s' = trace s ++ es ∧
          (teardowns l es ≠ [] ↔ strong_refs l s ≠ 0%nat ∧ strong_refs l s' = 0%nat).
Proof.
  intros Hlen Hc Hrun.
  assert (only l l = true) as Hl by (by apply bool_decide_eq_true).
  assert (∀ l', only l l' = true -> l' = l) as Honly.
  { intros l' Hl'. by apply bool_decide_eq_true in Hl'. }
  assert (Inv_at (only l) no_origin (0 + length ops) s) as HIa.
  { apply (run_Inv_at (only l) no_origin ops 0 init s); [|lia| |done].
    - split; [apply Inv_init|done].
    - intros l' Hl'. by rewrite (Honly l' Hl'). }
  pose proof HIa as [HI _].
  destruct (teardown_count _ _ _ l HI Hl) as [Hcount Hzero].
  split_and!; [done|done|].
  intros op s' Hpre Hstep Hal.
  assert (Inv (only l) no_origin s') as HI'.
  { assert (Z.of_nat (0 + length ops) + 3 < size_t_modulus) as Hn3 by lia.
    assert (∀ l', only l l' = true -> precondition l' op s = true) as Hpre'.
    { intros l' Hl'. by rewrite (Honly l' Hl'). }
    pose proof (triple_step (only l) no_origin _ Hn3 op s (conj HIa Hpre')) as Ht.
    destruct (step op s); simpl in Hstep; simplify_eq; by destruct Ht. }
  destruct (step_extends op s s' Hstep) as [Hnext [es Hes]].
  exists es. split; [done|].
  destruct (teardown_count _ _ _ l HI' Hl) as [Hcount' _].
  rewrite Hes, teardowns_app, length_app, Hcount in Hcount'.
  assert (allocated l s' = true) as Hal'.
  { unfold allocated in *. apply bool_decide_eq_true in Hal.
    apply bool_decide_eq_true. lia. }
  rewrite Hal, Hal' in Hcount'.
  destruct (teardowns l es); simpl in Hcount'; repeat case_decide;
    intuition (done || lia).
Qed.

Lemma destroy_ptr_exactly_once_witness :
  (∃ s, run scenario_strong_first init = Some s ∧
        length (teardowns 1%positive (trace s)) = 1%nat) ∧
  (∃ s, run [OpMakeShared 0 42 true; OpSharedCopy 1 0; OpSharedDestroy 0] init = Some s ∧
        length (teardowns 1%positive (trace s)) = 0%nat).
Proof.
  split_and!; (eexists; split; [vm_compute; reflexivity|]).
  - match goal with
    | |- length (teardowns _ (trace ?s)) = _ =>
        destruct (destroy_ptr_exactly_once scenario_strong_first s 1%positive)
          as [Hd _];
          [vm_compute; reflexivity|vm_compute; repeat split|vm_compute; reflexivity|]
    end.
    rewrite Hd. vm_compute. reflexivity.
  - match goal with
    | |- length (teardowns _ (trace ?s)) = _ =>
        destruct (destroy_ptr_exactly_once
                    [OpMakeShared 0 42 true; OpSharedCopy 1 0; OpSharedDestroy 0]
                    s 1%positive)
          as [Hd _];
          [vm_compute; reflexivity|vm_compute; repeat split|vm_compute; reflexivity|]
    end.
    rewrite Hd. vm_compute. reflexivity.
Defined.

(** A [SharedPtr] built directly from an expired [WeakPtr] makes
    [destroy_ptr] run a second time when it is destroyed; the regular
    block then calls the deleter on the null pointer. *)
Lemma construction_from_expired_tears_down_twice :
  ∃ s, run [OpSharedFromRaw 0 (raw_object 7) 3%N default_allocator true;
            OpWeakFromShared 0 0; OpSharedDestroy 0;
            OpSharedFromWeak 1 0; OpSharedDestroy 1] init = Some s ∧
       map ev_call (teardowns 1%positive (trace s)) =
         [call_deleter 3%N (raw_object 7); call_deleter 3%N nullptr].
Proof. eexists. split; vm_compute; reflexivity. Qed.

(** ** C3: [shared_count] is the number of [SharedPtr]s, and [use_count] returns it *)

(** C3. For every program, at every point, the [shared_count] of a block
    is the number of [SharedPtr] objects bound to the block, and
    [use_count] on any of them returns that number. *)
Theorem use_count_is_number_of_owners ops s :
  Z.of_nat (length ops) + 2 < size_t_modulus ->
  run ops init = Some s ->
  (∀ l blk, heap s !! l = Some blk -> shared_count blk = Z.of_nat (strong_refs l s)) ∧
  (∀ x v l, strong s !! x = Some v -> block v = Some l ->
     ∃ blk, heap s !! l = Some blk ∧
            shared_count blk = Z.of_nat (strong_refs l s) ∧
            SharedPtr_use_count x s = Ok (Z.of_nat (strong_refs l s)) s).
Proof.
  intros Hlen Hrun. pose proof (reachable_Inv ops s Hlen Hrun) as HI.
  assert (∀ l blk, heap s !! l = Some blk ->
            shared_count blk = Z.of_nat (strong_refs l s)) as Hcount.
  { intros l blk Hl. destruct (HI l) as (Hc & _). rewrite Hl in Hc. by destruct Hc. }
  split; [done|].
  intros x [p b] l Hx Hb. simpl in Hb. subst b.
  destruct (Inv_strong_bound _ _ _ _ _ _ HI Hx eq_refl) as (blk & Hl & _).
  exists blk. split_and!; [done|by apply Hcount|].
  rewrite SharedPtr_use_count_eq, Hx, Hl. by rewrite (Hcount l blk Hl).
Qed.

Lemma use_count_is_number_of_owners_witness :
  ∃ s, run [OpMakeShared 0 42 true; OpSharedCopy 1 0; OpSharedMove 2 0] init = Some s ∧
       SharedPtr_use_count 1 s = Ok 2 s.
Proof.
  eexists. split; [vm_compute; reflexivity|].
  match goal with
  | |- SharedPtr_use_count _ ?s = _ =>
      destruct (use_count_is_number_of_owners
                  [OpMakeShared 0 42 true; OpSharedCopy 1 0; OpSharedMove 2 0] s)
        as [_ H]; [vm_compute; reflexivity|vm_compute; reflexivity|];
      destruct (H 1%nat (mkShared (embedded_object 1) (Some 1%positive)) 1%positive)
        as (blk & _ & _ & Hu); [vm_compute; reflexivity|reflexivity|]
  end.
  exact Hu.
Defined.

(** ** C4: moves *)

(** C4, as stated, fails: a move assignment changes the [shared_count] of
    the block the target was bound to. *)
Lemma move_assign_changes_a_count :
  ¬ (∀ x y s s', SharedPtr_move_assign x y s = Ok tt s' ->
       ∀ l, shared_count <$> heap s' !! l = shared_count <$> heap s !! l).
Proof.
  intros H.
  pose (s := default init
               (run [OpMakeShared 0 1 true; OpSharedCopy 1 0; OpMakeShared 2 2 true] init)).
  eassert (SharedPtr_move_assign 0 2 s = Ok tt _) as Hm.
  { vm_compute. reflexivity. }
  pose proof (H _ _ _ _ Hm 1%positive) as Hcount.
  vm_compute in Hcount. discriminate.
Qed.

(** C4, as amended. Move construction of a [SharedPtr] or of a [WeakPtr]
    changes no block and makes no call, gives the new object what the
    source had and leaves the source empty.  Move assignment of a
    [SharedPtr] from another object leaves the source empty and gives the
    target what the source had; the counts it changes are those that
    destroying a [SharedPtr] holding what the target had changes: none
    when the target was empty, else only those of the target's former
    block. *)
Theorem move_transfers_without_counting :
  (∀ x y s o,
     strong s !! y = Some o -> strong s !! x = None ->
     SharedPtr_move x y s =
       Ok tt (mkState (heap s) (next s) (trace s)
                (<[y := mkShared nullptr None]> (<[x := o]> (strong s))) (weak s))) ∧
  (∀ w v s o,
     weak s !! v = Some o -> weak s !! w = None ->
     WeakPtr_move w v s =
       Ok tt (mkState (heap s) (next s) (trace s) (strong s)
                (<[v := mkWeak None]> (<[w := o]> (weak s))))) ∧
  (∀ x y s t o,
     x ≠ y -> strong s !! x = Some t -> strong s !! y = Some o ->
     (∀ l, block t = Some l -> is_Some (heap s !! l)) ->
     ∃ copy s1 s',
       strong s !! copy = None ∧
       heap s1 = heap s ∧ trace s1 = trace s ∧ strong s1 !! copy = Some t ∧
       SharedPtr_dtor copy s1 = Ok tt s' ∧
       SharedPtr_move_assign x y s = Ok tt s' ∧
       strong s' = <[x := o]> (<[y := mkShared nullptr None]> (strong s)) ∧
       weak s' = weak s ∧
       (∀ l, block t ≠ Some l -> heap s' !! l = heap s !! l) ∧
       (block t = None -> heap s' = heap s ∧ trace s' = trace s)).
Proof.
  split_and!.
  - intros x y s o Hy Hx. by rewrite SharedPtr_move_eq, Hy, Hx.
  - intros w v s o Hv Hw. by rewrite WeakPtr_move_eq, Hv, Hw.
  - intros x y s t o Hne Hx Hy Hlive.
    pose proof (SharedPtr_move_assign_eq x y s t o Hne Hx Hy) as Heq. simpl in Heq.
    pose proof (fresh_shared_None s) as Hc.
    set (copy := fresh (dom (strong s))) in *.
    set (s1 := set_strong
                 (<[copy := t]> (<[x := o]> (<[y := mkShared nullptr None]> (strong s)))) s)
      in *.
    assert (strong s1 !! copy = Some t) as Hc1 by apply lookup_insert_eq.
    assert (∃ s', SharedPtr_dtor copy s1 = Ok tt s' ∧
                  (∀ l, block t ≠ Some l -> heap s' !! l = heap s !! l) ∧
                  (block t = None -> heap s' = heap s ∧ trace s' = trace s))
      as (s' & Hd & Hothers & Hempty).
    { rewrite SharedPtr_dtor_eq, Hc1.
      destruct (block t) as [l|] eqn:Hb.
      - destruct (Hlive l eq_refl) as [blk Hl].
        change (heap s1) with (heap s). rewrite Hl. simpl.
        repeat case_decide; eexists; (split; [reflexivity|]); simpl;
          (split; [|done]); intros l' Hl';
          by rewrite ?lookup_insert_ne, ?lookup_delete_ne by congruence.
      - eexists. split; [reflexivity|]. by split. }
    exists copy, s1, s'. split_and!; try done.
    + by rewrite Heq.
    + destruct (SharedPtr_dtor_stores _ _ _ Hd) as (-> & _ & _). simpl.
      by rewrite delete_insert_id by (by rewrite !lookup_insert_ne by congruence).
    + by destruct (SharedPtr_dtor_stores _ _ _ Hd) as (_ & -> & _).
Qed.

Lemma move_transfers_without_counting_witness :
  ∃ s, run [OpMakeShared 0 1 true; OpSharedCopy 1 0; OpMakeShared 2 2 true] init = Some s ∧
       ∃ s', SharedPtr_move_assign 0 2 s = Ok tt s' ∧
             strong s' !! 2%nat = Some (mkShared nullptr None) ∧
             heap s' !! 2%positive = heap s !! 2%positive.
Proof.
  eexists. split; [vm_compute; reflexivity|].
  destruct move_transfers_without_counting as (_ & _ & H).
  match goal with
  | |- ∃ s', SharedPtr_move_assign _ _ ?s = _ ∧ _ =>
      destruct (H 0%nat 2%nat s (mkShared (embedded_object 1) (Some 1%positive))
                  (mkShared (embedded_object 2) (Some 2%positive)))
        as (copy & s1 & s' & _ & _ & _ & _ & _ & Hm & Hst & _ & Hothers & _);
        [done|vm_compute; reflexivity|vm_compute; reflexivity| |]
  end.
  - intros l [= <-]. vm_compute. eauto.
  - exists s'. split; [exact Hm|]. split.
    + rewrite Hst. vm_compute. reflexivity.
    + apply Hothers. simpl. discriminate.
Defined.

(** [WeakPtr]'s move assignment is its copy assignment: the source stays
    bound and [weak_count] goes up. *)
Lemma WeakPtr_move_assign_is_copy_assign w v :
  WeakPtr_move_assign w v = WeakPtr_assign w v.
Proof. reflexivity. Qed.

Lemma WeakPtr_move_assign_keeps_source :
  ∃ s s', run [OpMakeShared 0 1 true; OpWeakFromShared 0 0; OpWeakDefault 1] init = Some s ∧
          WeakPtr_move_assign 1 0 s = Ok tt s' ∧
          weak s' !! 0%nat = Some (mkWeak (Some 1%positive)) ∧
          weak_count <$> heap s !! 1%positive = Some 1 ∧
          weak_count <$> heap s' !! 1%positive = Some 2.
Proof.
  eexists _, _. split; [vm_compute; reflexivity|].
  split; [vm_compute; reflexivity|]. vm_compute. repeat split.
Qed.

(** ** C5: [lock] *)

(** X24. [lock] on a [WeakPtr] bound to a block: while the object is
    alive the result is a [SharedPtr] bound to the same block and holding
    the pointer [get_ptr] returns on the block, and [shared_count] is one
    more; nothing else changes.  Once the object has expired the result is
    an empty [SharedPtr], and no block and no call changes. *)
Theorem lock_promotes_or_gives_empty x w s l blk :
  weak s !! w = Some (mkWeak (Some l)) ->
  heap s !! l = Some blk ->
  strong s !! x = None ->
  0 ≤ shared_count blk -> shared_count blk + 1 < size_t_modulus ->
  (shared_count blk ≠ 0 ->
     WeakPtr_expired w s = Ok false s ∧
     WeakPtr_lock x w s =
       Ok tt (mkState (<[l := set_shared_count (shared_count blk + 1) blk]> (heap s))
                (next s) (trace s)
                (<[x := mkShared (object_of l (variant blk)) (Some l)]> (strong s))
                (weak s))) ∧
  (shared_count blk = 0 ->
     WeakPtr_expired w s = Ok true s ∧
     WeakPtr_lock x w s =
       Ok tt (mkState (heap s) (next s) (trace s)
                (<[x := mkShared nullptr None]> (strong s)) (weak s))).
Proof.
  intros Hw Hl Hx H0 Hmax.
  rewrite WeakPtr_lock_eq, WeakPtr_expired_eq, Hw, Hl. split; intros Hsc.
  - rewrite decide_False, bool_decide_eq_false_2 by done. split; [done|].
    rewrite SharedPtr_from_weak_eq, Hw, Hl, Hx.
    by rewrite size_t_incr_small.
  - rewrite decide_True, bool_decide_eq_true_2 by done. split; [done|].
    by rewrite SharedPtr_default_eq, Hx.
Qed.

Lemma lock_promotes_or_gives_empty_witness :
  ∃ s, run [OpMakeShared 0 42 true; OpWeakFromShared 0 0] init = Some s ∧
       WeakPtr_expired 0 s = Ok false s ∧
       ∃ s', WeakPtr_lock 1 0 s = Ok tt s' ∧
             strong s' !! 1%nat = Some (mkShared (embedded_object 1) (Some 1%positive)) ∧
             SharedPtr_use_count 1 s' = Ok 2 s'.
Proof.
  eexists. split; [vm_compute; reflexivity|].
  match goal with
  | |- WeakPtr_expired _ ?s = _ ∧ _ =>
      destruct (lock_promotes_or_gives_empty 1 0 s 1%positive
                  (mkBlock 1 1 (ControlBlockMakeShared default_allocator 42)))
        as [[He Hl] _]; try (vm_compute; reflexivity); try done
  end.
  split; [exact He|]. eexists. split; [exact Hl|]. split; vm_compute; reflexivity.
Defined.

(** C5. The claim fails on the code for a [WeakPtr] of a [SharedPtr<T>]
    built from a [U*] whose conversion to [T*] changes the address, here
    [SharedPtr<B> s0(new D)] with [struct D : A, B]: the object is at
    [raw_object 7] and its [B] part at [raw_object 8].  [s0] points at the
    [B] part, the block keeps the [D*]; [lock] takes what [get_ptr]
    returns and casts it to [B*] with no adjustment (l.140), so that the
    owner it returns shares the block, [shared_count] being one more, but
    points at [raw_object 7], not where [s0] points. *)
Theorem lock_returns_the_unadjusted_pointer :
  ∃ s s',
    (SharedPtr_from_raw_converting 0 (raw_object 7) (raw_object 8)
       default_delete default_allocator true;;
     WeakPtr_from_shared 0 0) init = Ok tt s ∧
    SharedPtr_get 0 s = Ok (raw_object 8) s ∧
    get_ptr (Some 1%positive) s = Ok (raw_object 7) s ∧
    WeakPtr_expired 0 s = Ok false s ∧
    WeakPtr_lock 1 0 s = Ok tt s' ∧
    SharedPtr_use_count 1 s' = Ok 2 s' ∧
    SharedPtr_get 0 s' = Ok (raw_object 8) s' ∧
    SharedPtr_get 1 s' = Ok (raw_object 7) s'.
Proof.
  eexists. eexists.
  split; [vm_compute; reflexivity|].
  split; [vm_compute; reflexivity|].
  split; [vm_compute; reflexivity|].
  split; [vm_compute; reflexivity|].
  split; [vm_compute; reflexivity|].
  split; [vm_compute; reflexivity|].
  split; vm_compute; reflexivity.
Qed.

(** ** C6: [expired] *)

(** C6. [expired] on a [WeakPtr] bound to a block returns whether
    [shared_count] is 0; and in every state a program reaches, destroying
    the last [SharedPtr] of a block to which a [WeakPtr] is still bound
    leaves the block allocated, with no deallocation, and [expired] true
    on that [WeakPtr]. *)
Theorem expired_iff_no_strong_owner :
  (∀ w s l blk,
     weak s !! w = Some (mkWeak (Some l)) -> heap s !! l = Some blk ->
     WeakPtr_expired w s = Ok (bool_decide (shared_count blk = 0)) s) ∧
  (∀ ops s x v w l,
     Z.of_nat (length ops) + 2 < size_t_modulus ->
     run ops init = Some s ->
     strong s !! x = Some v -> block v = Some l -> strong_refs l s = 1%nat ->
     weak s !! w = Some (mkWeak (Some l)) ->
     ∃ s', SharedPtr_dtor x s = Ok tt s' ∧
           is_Some (heap s' !! l) ∧
           deallocations l (trace s') = [] ∧
           WeakPtr_expired w s' = Ok true s').
Proof.
  split.
  - intros w s l blk Hw Hl. by rewrite WeakPtr_expired_eq, Hw, Hl.
  - intros ops s x v w l Hlen Hrun Hx Hv Hone Hw.
    pose proof (reachable_Inv ops s Hlen Hrun) as HI.
    destruct (Inv_weak_bound _ _ _ _ _ _ HI Hw eq_refl) as (blk & Hl & Hwk).
    pose proof (HI l) as Hb. rewrite Hl, Hone in Hb.
    destruct Hb as ((Hs & _) & (tds & ds & Hcs & Htd & Hds & -> & _) & _).
    assert (size_t_decr (shared_count blk) = 0) as Hz.
    { rewrite Hs. by vm_compute. }
    eexists. rewrite SharedPtr_dtor_eq, Hx, Hv, Hl. simpl.
    rewrite decide_False by (by intros ?).
    rewrite decide_False by done.
    split; [reflexivity|]. simpl. split_and!.
    + by rewrite lookup_insert_eq.
    + unfold deallocations. rewrite calls_of_app, calls_of_same, Hcs, app_nil_r.
      rewrite filter_app.
      rewrite (filter_none _ tds).
      * rewrite filter_cons_False; [done|].
        by rewrite teardown_not_deallocation by apply is_teardown_call.
      * eapply Forall_impl; [exact Htd|]. intros e (He & _).
        by rewrite (teardown_not_deallocation e He).
    + rewrite WeakPtr_expired_eq. simpl. rewrite Hw, lookup_insert_eq. simpl.
      by rewrite Hz.
Qed.

Lemma expired_iff_no_strong_owner_witness :
  ∃ s, run [OpMakeShared 0 42 true; OpWeakFromShared 0 0] init = Some s ∧
       WeakPtr_expired 0 s = Ok false s ∧
       ∃ s', SharedPtr_dtor 0 s = Ok tt s' ∧ is_Some (heap s' !! 1%positive) ∧
             deallocations 1%positive (trace s') = [] ∧ WeakPtr_expired 0 s' = Ok true s'.
Proof.
  eexists. split; [vm_compute; reflexivity|].
  destruct expired_iff_no_strong_owner as [Hexp Hlast]. split.
  - match goal with
    | |- WeakPtr_expired _ ?s = _ =>
        apply (Hexp 0%nat s 1%positive
                 (mkBlock 1 1 (ControlBlockMakeShared default_allocator 42)));
          vm_compute; reflexivity
    end.
  - match goal with
    | |- ∃ s', SharedPtr_dtor _ ?s = _ ∧ _ =>
        apply (Hlast [OpMakeShared 0 42 true; OpWeakFromShared 0 0] s 0%nat
                 (mkShared (embedded_object 1) (Some 1%positive)) 0%nat 1%positive);
          vm_compute; reflexivity
    end.
Defined.

(** ** C7: copy construction *)

(** C7. The copy constructor (converting or not): the new [SharedPtr]
    has the pointer and the block of the one copied; when that block is
    not null its [shared_count] is one more and nothing else changes; when
    it is null no block changes. *)
Theorem copy_shares_block_and_counts x y s o :
  strong s !! y = Some o ->
  strong s !! x = None ->
  (∀ l blk, block o = Some l -> heap s !! l = Some blk ->
     0 ≤ shared_count blk -> shared_count blk + 1 < size_t_modulus ->
     SharedPtr_copy x y s =
       Ok tt (mkState (<[l := set_shared_count (shared_count blk + 1) blk]> (heap s))
                (next s) (trace s) (<[x := o]> (strong s)) (weak s))) ∧
  (block o = None ->
     SharedPtr_copy x y s =
       Ok tt (mkState (heap s) (next s) (trace s) (<[x := o]> (strong s)) (weak s))).
Proof.
  intros Hy Hx. rewrite SharedPtr_copy_eq, Hy, Hx. split.
  - intros l blk Hb Hl H0 Hmax. rewrite Hb, Hl. by rewrite size_t_incr_small.
  - intros Hb. by rewrite Hb.
Qed.

Lemma copy_shares_block_and_counts_witness :
  ∃ s, run [OpMakeShared 0 42 true; OpSharedDefault 1] init = Some s ∧
       (∃ s', SharedPtr_copy 2 0 s = Ok tt s' ∧ SharedPtr_use_count 2 s' = Ok 2 s') ∧
       (∃ s', SharedPtr_copy 2 1 s = Ok tt s' ∧ heap s' = heap s).
Proof.
  eexists. split; [vm_compute; reflexivity|]. split.
  - match goal with
    | |- ∃ s', SharedPtr_copy _ _ ?s = _ ∧ _ =>
        destruct (copy_shares_block_and_counts 2 0 s
                    (mkShared (embedded_object 1) (Some 1%positive)))
          as [H _]; try (vm_compute; reflexivity);
        specialize (H 1%positive
                      (mkBlock 1 0 (ControlBlockMakeShared default_allocator 42)))
    end.
    eexists. split; [apply H; vm_compute; (reflexivity || discriminate)|].
    vm_compute; reflexivity.
  - match goal with
    | |- ∃ s', SharedPtr_copy _ _ ?s = _ ∧ _ =>
        destruct (copy_shares_block_and_counts 2 1 s (mkShared nullptr None))
          as [_ H]; try (vm_compute; reflexivity)
    end.
    eexists. split; [apply H; reflexivity|]. reflexivity.
Defined.

(** ** C8: the deleter is called once, with the pointer given at construction *)

(** C8, as stated, fails: the claim is about every owner built from a
    raw pointer, whatever the program does next, and a [SharedPtr] built
    directly from an expired [WeakPtr] of the block makes the deleter run
    a second time, on the null pointer. *)
Lemma deleter_called_twice_outside_the_contract :
  ¬ (∀ ops x p del alloc s2 s3,
       Z.of_nat (1 + length ops) + 2 < size_t_modulus ->
       SharedPtr_from_raw x p del alloc true init = Ok tt s2 ->
       run ops s2 = Some s3 ->
       map ev_call (teardowns (next init) (trace s3)) =
         if decide (strong_refs (next init) s3 = 0%nat) then [call_deleter del p] else []).
Proof.
  intros H.
  eassert (SharedPtr_from_raw 0 (raw_object 7) 3%N default_allocator true init = Ok tt _)
    as Hnew.
  { vm_compute. reflexivity. }
  match type of Hnew with
  | _ = Ok tt ?s2 =>
      eassert (run [OpWeakFromShared 0 0; OpSharedDestroy 0; OpSharedFromWeak 1 0;
                    OpSharedDestroy 1] s2 = Some _) as Hrun
  end.
  { vm_compute. reflexivity. }
  eapply (H _ _ _ _ _ _ _) in Hrun; [|vm_compute; reflexivity|exact Hnew].
  vm_compute in Hrun. discriminate.
Qed.

(** C8, as amended. A [SharedPtr] built from a raw pointer [p] with
    deleter [del], at any point of any program, [p] being converted to the
    pointer type of the owner or not; the program that follows keeps the
    contract for the new block (no [SharedPtr] is built directly from a
    [WeakPtr] of that block once its object has expired): from then on
    the deleter calls of the block are none while a [SharedPtr] is bound
    to the block, and exactly the one call [del(p)] once none is. *)
Theorem deleter_called_once_with_the_pointer ops1 ops2 x p as_T del alloc s1 s2 s3 :
  Z.of_nat (length ops1 + 1 + length ops2) + 2 < size_t_modulus ->
  run ops1 init = Some s1 ->
  SharedPtr_from_raw_converting x p as_T del alloc true s1 = Ok tt s2 ->
  run ops2 s2 = Some s3 -> within_contract (next s1) ops2 s2 ->
  strong s2 !! x = Some (mkShared as_T (Some (next s1))) ∧
  map ev_call (teardowns (next s1) (trace s3)) =
    if decide (strong_refs (next s1) s3 = 0%nat) then [call_deleter del p] else [].
Proof.
  intros Hlen Hrun1 Hnew Hrun2 Hc2.
  set (v0 := ControlBlockRegular p del alloc).
  assert (Inv_at no_block no_origin (0 + length ops1) s1) as HI1.
  { apply (run_Inv_at no_block no_origin ops1 0 init s1); [|lia|done|done].
    split; [apply Inv_init|done]. }
  assert (Inv_at no_block no_origin (S (length ops1)) s2) as [HI2 Ho2].
  { destruct HI1 as [HI1 Ho1].
    destruct (SharedPtr_from_raw_converting_inv _ _ _ _ _ _ _ _ _ HI1 Hnew) as [HI2 Ho2].
    split; [done|]. simpl in Ho1. lia. }
  destruct HI1 as [HI1 _].
  pose proof (Inv_next_fresh _ _ _ HI1) as Hfresh.
  destruct (Inv_unallocated _ _ _ HI1) as (_ & _ & Hnocalls).
  rewrite SharedPtr_from_raw_converting_eq in Hnew.
  destruct (strong s1 !! x) eqn:Hx; [done|]. rewrite Hfresh in Hnew.
  injection Hnew as <-. split; [apply lookup_insert_eq|].
  match type of HI2 with Inv _ _ ?s => set (s2 := s) in * end.
  assert (heap s2 !! next s1 = Some (mkBlock 1 0 v0)) as Hl2 by apply lookup_insert_eq.
  assert (allocated (next s1) s2 = true) as Hal2.
  { apply bool_decide_eq_true. simpl. lia. }
  change (trace s1) with (trace s2) in Hnocalls.
  set (l := next s1) in *.
  assert (only l l = true) as Hll by (by apply bool_decide_eq_true).
  assert (Inv (only l) (λ l', if decide (l' = l) then Some v0 else no_origin l') s2)
    as HI2'.
  { apply Inv_set_origin; [done| |]; rewrite Hl2, Hnocalls, Hal2.
    - done.
    - split_and!; [done| |done]. by intros blk [= <-] _. }
  assert (Inv (only l) (λ l', if decide (l' = l) then Some v0 else no_origin l') s3)
    as HI3.
  { apply (run_Inv_at (only l) _ ops2 (S (length ops1)) s2 s3); [done|lia| |done].
    intros l' Hl'. apply bool_decide_eq_true in Hl'. by subst. }
  destruct (teardown_count _ _ _ l HI3 Hll) as [Hcount _].
  destruct (HI3 l) as (_ & _ & _ & Hog).
  destruct (Hog Hll v0) as (Hal & _ & Hcalls); [by rewrite decide_True|].
  rewrite Hal in Hcount.
  assert (Forall (λ e, ev_call e = call_deleter del p) (teardowns l (trace s3))) as Hall.
  { unfold teardowns. apply Forall_forall. intros e He.
    apply list_elem_of_filter in He as [Hte He].
    rewrite Forall_forall in Hcalls. by apply Hcalls. }
  destruct (teardowns l (trace s3)) as [|e [|e' tds]]; simpl in *.
  - rewrite decide_False; [done|]. intros Hz. by rewrite decide_True in Hcount.
  - apply Forall_inv in Hall. rewrite Hall.
    rewrite decide_True; [done|].
    destruct (decide (strong_refs l s3 = 0%nat)); [done|].
    by rewrite decide_False in Hcount by (by intros [_ ?]).
  - exfalso. revert Hcount. destruct (decide (true = true ∧ _)); lia.
Qed.

Lemma deleter_called_once_with_the_pointer_witness :
  ∃ s2 s3,
    SharedPtr_from_raw_converting 1 (raw_object 7) (raw_object 8) 3%N default_allocator true
      init = Ok tt s2 ∧
    run [OpSharedCopy 2 1; OpSharedDestroy 1; OpWeakFromShared 0 2; OpSharedDestroy 2] s2
      = Some s3 ∧
    map ev_call (teardowns 1%positive (trace s3)) = [call_deleter 3%N (raw_object 7)].
Proof.
  eassert (SharedPtr_from_raw_converting 1 (raw_object 7) (raw_object 8) 3%N
             default_allocator true init = Ok tt _) as Hnew.
  { vm_compute. reflexivity. }
  match type of Hnew with
  | _ = Ok tt ?s2 =>
      eassert (run [OpSharedCopy 2 1; OpSharedDestroy 1; OpWeakFromShared 0 2;
                    OpSharedDestroy 2] s2 = Some _) as Hrun
  end.
  { vm_compute. reflexivity. }
  eexists _, _. split; [exact Hnew|]. split; [exact Hrun|].
  assert (Z.of_nat (length (@nil Op) + 1 + 4) + 2 < size_t_modulus) as Hlen.
  { vm_compute. reflexivity. }
  match type of Hrun with
  | run ?ops ?s2 = _ => assert (within_contract 1%positive ops s2) as Hc
  end.
  { vm_compute. repeat split. }
  match type of Hrun with
  | run ?ops ?s2 = Some ?s3 =>
      pose proof (proj2 (deleter_called_once_with_the_pointer [] ops 1%nat (raw_object 7)
                           (raw_object 8) 3%N default_allocator init s2 s3
                           Hlen eq_refl Hnew Hrun Hc)) as Hd
  end.
  etransitivity; [exact Hd|]. vm_compute. reflexivity.
Defined.

(** ** C9: allocation failure *)

(** C9, as stated, fails on the separate-allocation path: when the
    allocator fails there is no control block, yet the object the caller
    handed in is still there, no deleter having been called on it. *)
Lemma failed_construction_leaves_the_object :
  SharedPtr_from_raw 0 (raw_object 7) 3%N default_allocator false init = Throw init ∧
  ¬ managed (raw_object 7) init ∧
  ¬ deleted (raw_object 7) (trace init).
Proof.
  split_and!.
  - reflexivity.
  - intros (l & blk & del & alloc & Hl & _). simpl in Hl. by rewrite lookup_empty in Hl.
  - intros (e & del & He & _). simpl in He. by apply elem_of_nil in He.
Qed.

(** C9, as amended. When the allocator fails, the constructor from a raw
    pointer, the in-place constructor, the factories and [reset] to a
    pointer throw and leave the whole state as it was: no block, no owner,
    no count changed, no call made (so the object handed in by raw pointer
    is still the caller's, not deleted).  When it succeeds, the two
    constructors leave one new block, with [shared_count] 1 and
    [weak_count] 0, and the new owner bound to it and pointing at the
    object. *)
Theorem allocation_failure_changes_nothing :
  (∀ x p del alloc s,
     strong s !! x = None -> SharedPtr_from_raw x p del alloc false s = Throw s) ∧
  (∀ x alloc args s,
     strong s !! x = None ->
     SharedPtr_in_place x alloc args false s = Throw s ∧
     allocateShared x alloc args false s = Throw s ∧
     makeShared x args false s = Throw s) ∧
  (∀ x p s, SharedPtr_reset_to x p false s = Throw s) ∧
  (∀ x p del alloc s,
     strong s !! x = None -> heap s !! next s = None ->
     SharedPtr_from_raw x p del alloc true s =
       Ok tt (mkState (<[next s := mkBlock 1 0 (ControlBlockRegular p del alloc)]> (heap s))
                (Pos.succ (next s)) (trace s)
                (<[x := mkShared p (Some (next s))]> (strong s)) (weak s))) ∧
  (∀ x alloc args s,
     strong s !! x = None -> heap s !! next s = None ->
     SharedPtr_in_place x alloc args true s =
       Ok tt (mkState (<[next s := mkBlock 1 0 (ControlBlockMakeShared alloc args)]> (heap s))
                (Pos.succ (next s)) (trace s)
                (<[x := mkShared (embedded_object (next s)) (Some (next s))]> (strong s))
                (weak s))).
Proof.
  split_and!.
  - intros x p del alloc s Hx. by rewrite SharedPtr_from_raw_eq, Hx.
  - intros x alloc args s Hx. unfold makeShared, allocateShared.
    rewrite !SharedPtr_in_place_eq, !Hx. by split_and!.
  - intros x p s. unfold SharedPtr_reset_to, local_shared. unfold_M.
    by rewrite SharedPtr_from_raw_eq, fresh_shared_None.
  - intros x p del alloc s Hx Hn. by rewrite SharedPtr_from_raw_eq, Hx, Hn.
  - intros x alloc args s Hx Hn. by rewrite SharedPtr_in_place_eq, Hx, Hn.
Qed.

Lemma allocation_failure_changes_nothing_witness :
  SharedPtr_from_raw 0 (raw_object 7) 3%N default_allocator false init = Throw init ∧
  SharedPtr_in_place 0 default_allocator 42 false init = Throw init ∧
  ∃ s, SharedPtr_from_raw 0 (raw_object 7) 3%N default_allocator true init = Ok tt s ∧
       SharedPtr_use_count 0 s = Ok 1 s.
Proof.
  destruct allocation_failure_changes_nothing as (Hraw & Hin & _ & Hok & _).
  split_and!.
  - apply Hraw. reflexivity.
  - destruct (Hin 0%nat default_allocator 42 init) as [H _]; [reflexivity|exact H].
  - eexists. split; [apply Hok; reflexivity|]. vm_compute. reflexivity.
Defined.

(** ** C10: destroying an empty owner *)

(** C10. Destroying a [SharedPtr] whose block is null, or a [WeakPtr]
    whose block is null, only ends the object: no block changes and no
    call is made.  Default-constructed and moved-from owners, and a
    [SharedPtr] after [reset()], are such owners. *)
Theorem destroying_an_empty_owner_is_a_no_op :
  (∀ x s v,
     strong s !! x = Some v -> block v = None ->
     SharedPtr_dtor x s =
       Ok tt (mkState (heap s) (next s) (trace s) (delete x (strong s)) (weak s))) ∧
  (∀ w s,
     weak s !! w = Some (mkWeak None) ->
     WeakPtr_dtor w s =
       Ok tt (mkState (heap s) (next s) (trace s) (strong s) (delete w (weak s)))) ∧
  (∀ x s s', SharedPtr_default x s = Ok tt s' ->
     strong s' !! x = Some (mkShared nullptr None)) ∧
  (∀ x y s s', SharedPtr_move x y s = Ok tt s' ->
     strong s' !! y = Some (mkShared nullptr None)) ∧
  (∀ x s s' t, strong s !! x = Some t -> SharedPtr_reset x s = Ok tt s' ->
     strong s' !! x = Some (mkShared nullptr None)) ∧
  (∀ w s s', WeakPtr_default w s = Ok tt s' -> weak s' !! w = Some (mkWeak None)) ∧
  (∀ w v s s', WeakPtr_move w v s = Ok tt s' -> weak s' !! v = Some (mkWeak None)).
Proof.
  split_and!.
  - intros x s v Hx Hv. by rewrite SharedPtr_dtor_eq, Hx, Hv.
  - intros w s Hw. by rewrite WeakPtr_dtor_eq, Hw.
  - intros x s s'. rewrite SharedPtr_default_eq. case_match; [done|].
    intros [= <-]. apply lookup_insert_eq.
  - intros x y s s'. rewrite SharedPtr_move_eq. repeat case_match; try done.
    intros [= <-]. apply lookup_insert_eq.
  - intros x s s' t. apply SharedPtr_reset_leaves_empty.
  - intros w s s'. rewrite WeakPtr_default_eq. case_match; [done|].
    intros [= <-]. apply lookup_insert_eq.
  - intros w v s s'. rewrite WeakPtr_move_eq. repeat case_match; try done.
    intros [= <-]. apply lookup_insert_eq.
Qed.

Lemma destroying_an_empty_owner_is_a_no_op_witness :
  ∃ s, run [OpMakeShared 0 42 true; OpSharedMove 1 0; OpWeakDefault 0] init = Some s ∧
       (∃ s', SharedPtr_dtor 0 s = Ok tt s' ∧ heap s' = heap s ∧ trace s' = trace s) ∧
       (∃ s', WeakPtr_dtor 0 s = Ok tt s' ∧ heap s' = heap s ∧ trace s' = trace s).
Proof.
  eexists. split; [vm_compute; reflexivity|].
  destruct destroying_an_empty_owner_is_a_no_op as (Hs & Hw & _).
  split.
  - eexists. split; [apply (Hs 0%nat _ (mkShared nullptr None)); reflexivity|].
    split; reflexivity.
  - eexists. split; [apply Hw; reflexivity|]. split; reflexivity.
Defined.

(** * Further properties of the operations *)

(** ** Helpers *)

Lemma state_ext (s s' : State) :
  heap s' = heap s -> next s' = next s -> trace s' = trace s ->
  strong s' = strong s -> weak s' = weak s -> s' = s.
Proof. destruct s, s'. simpl. by intros -> -> -> -> ->. Qed.

Lemma size_t_decr_incr n :
  0 ≤ n -> n < size_t_modulus -> size_t_decr (size_t_incr n) = n.
Proof.
  intros H0 Hm. unfold size_t_decr, size_t_incr.
  rewrite Zminus_mod_idemp_l. replace (n + 1 - 1) with n by lia.
  by apply Z.mod_small.
Qed.

Lemma set_shared_count_id blk : set_shared_count (shared_count blk) blk = blk.
Proof. by destruct blk. Qed.

Lemma set_weak_count_id blk : set_weak_count (weak_count blk) blk = blk.
Proof. by destruct blk. Qed.

(** ** [swap] *)

(** X1. [SharedPtr::swap] exchanges what the two objects hold, touches no
    block and makes no call; swapping again restores the state. *)
Theorem SharedPtr_swap_exchanges_and_undoes x y s t o :
  strong s !! x = Some t -> strong s !! y = Some o ->
  ∃ s1, SharedPtr_swap x y s = Ok tt s1 ∧
        heap s1 = heap s ∧ trace s1 = trace s ∧ weak s1 = weak s ∧
        strong s1 !! x = Some o ∧ strong s1 !! y = Some t ∧
        (∀ z, z ≠ x -> z ≠ y -> strong s1 !! z = strong s !! z) ∧
        SharedPtr_swap x y s1 = Ok tt s.
Proof.
  intros Hx Hy. eexists. rewrite SharedPtr_swap_eq, Hx, Hy.
  split; [reflexivity|]. unfold set_strong. simpl.
  assert ((<[y := t]> (<[x := o]> (strong s)) : gmap var SharedPtr) !! x = Some o) as Hx1.
  { rewrite lookup_insert. case_decide; [by simplify_eq|]. apply lookup_insert_eq. }
  split_and!; try done.
  - apply lookup_insert_eq.
  - intros z Hzx Hzy. by rewrite !lookup_insert_ne.
  - rewrite SharedPtr_swap_eq. simpl. rewrite Hx1, lookup_insert_eq.
    f_equal. apply state_ext; simpl; try done.
    apply map_eq. intros k. rewrite !lookup_insert.
    repeat case_decide; simplify_eq; done.
Qed.

Lemma SharedPtr_swap_exchanges_and_undoes_witness :
  ∃ s, run [OpMakeShared 0 42 true; OpSharedDefault 1] init = Some s ∧
       ∃ s1, SharedPtr_swap 0 1 s = Ok tt s1 ∧
             strong s1 !! 0%nat = Some (mkShared nullptr None) ∧
             SharedPtr_swap 0 1 s1 = Ok tt s.
Proof.
  eexists. split; [vm_compute; reflexivity|].
  match goal with
  | |- ∃ s1, SharedPtr_swap _ _ ?s = _ ∧ _ =>
      destruct (SharedPtr_swap_exchanges_and_undoes 0%nat 1%nat s
                  (mkShared (embedded_object 1) (Some 1%positive)) (mkShared nullptr None))
        as (s1 & Hs & _ & _ & _ & Hx & _ & _ & Hback); [vm_compute; reflexivity..|]
  end.
  exists s1. split; [exact Hs|]. split; [exact Hx|exact Hback].
Defined.

(** X2. [WeakPtr::swap] exchanges the blocks the two objects are bound
    to, touches no block and makes no call; swapping again restores the
    state. *)
Theorem WeakPtr_swap_exchanges_and_undoes w v s t o :
  weak s !! w = Some t -> weak s !! v = Some o ->
  ∃ s1, WeakPtr_swap w v s = Ok tt s1 ∧
        heap s1 = heap s ∧ trace s1 = trace s ∧ strong s1 = strong s ∧
        weak s1 !! w = Some o ∧ weak s1 !! v = Some t ∧
        (∀ z, z ≠ w -> z ≠ v -> weak s1 !! z = weak s !! z) ∧
        WeakPtr_swap w v s1 = Ok tt s.
Proof.
  intros Hw Hv. eexists. rewrite WeakPtr_swap_eq, Hw, Hv.
  split; [reflexivity|]. unfold set_weak. simpl.
  assert ((<[v := t]> (<[w := o]> (weak s)) : gmap var WeakPtr) !! w = Some o) as Hw1.
  { rewrite lookup_insert. case_decide; [by simplify_eq|]. apply lookup_insert_eq. }
  split_and!; try done.
  - apply lookup_insert_eq.
  - intros z Hzw Hzv. by rewrite !lookup_insert_ne.
  - rewrite WeakPtr_swap_eq. simpl. rewrite Hw1, lookup_insert_eq.
    f_equal. apply state_ext; simpl; try done.
    apply map_eq. intros k. rewrite !lookup_insert.
    repeat case_decide; simplify_eq; done.
Qed.

Lemma WeakPtr_swap_exchanges_and_undoes_witness :
  ∃ s, run [OpMakeShared 0 42 true; OpWeakFromShared 0 0; OpWeakDefault 1] init = Some s ∧
       ∃ s1, WeakPtr_swap 0 1 s = Ok tt s1 ∧
             weak s1 !! 0%nat = Some (mkWeak None) ∧
             WeakPtr_swap 0 1 s1 = Ok tt s.
Proof.
  eexists. split; [vm_compute; reflexivity|].
  match goal with
  | |- ∃ s1, WeakPtr_swap _ _ ?s = _ ∧ _ =>
      destruct (WeakPtr_swap_exchanges_and_undoes 0%nat 1%nat s
                  (mkWeak (Some 1%positive)) (mkWeak None))
        as (s1 & Hs & _ & _ & _ & Hx & _ & _ & Hback); [vm_compute; reflexivity..|]
  end.
  exists s1. split; [exact Hs|]. split; [exact Hx|exact Hback].
Defined.

(** ** Self-assignment *)

(** X3. Copy-assigning a [SharedPtr] to itself changes nothing: the count
    goes up for the local copy and down again when it is destroyed. *)
Theorem SharedPtr_self_assign_is_identity x s t :
  strong s !! x = Some t ->
  (∀ l, block t = Some l ->
     ∃ blk, heap s !! l = Some blk ∧ 0 < shared_count blk < size_t_modulus) ->
  SharedPtr_assign x x s = Ok tt s.
Proof.
  intros Hx Hlive. unfold SharedPtr_assign, local_shared. unfold_M.
  pose proof (fresh_shared_None s) as Hc.
  set (c := fresh (dom (strong s))) in *.
  assert (c ≠ x) as Hne by congruence.
  rewrite SharedPtr_copy_eq, Hx, Hc.
  assert (delete c (<[c := t]> (<[x := t]> (<[c := t]> (strong s)))) = strong s) as Hst.
  { apply map_eq. intros k. rewrite lookup_delete, !lookup_insert.
    repeat case_decide; simplify_eq; done. }
  destruct (block t) as [l|] eqn:Hb.
  - destruct (Hlive l eq_refl) as (blk & Hl & Hpos & Hmax). rewrite Hl.
    rewrite SharedPtr_swap_eq. simpl.
    rewrite lookup_insert_ne, Hx, lookup_insert_eq by done.
    rewrite SharedPtr_dtor_eq. unfold set_strong. simpl.
    rewrite lookup_insert_eq, Hb, lookup_insert_eq. simpl.
    rewrite size_t_decr_incr by lia.
    rewrite decide_True by lia.
    f_equal. apply state_ext; simpl; try done.
    rewrite insert_insert_eq. unfold set_shared_count at 1. simpl.
    fold (set_shared_count (shared_count blk) blk). rewrite set_shared_count_id.
    by apply insert_id.
  - rewrite SharedPtr_swap_eq. unfold set_strong. simpl.
    rewrite lookup_insert_ne, Hx, lookup_insert_eq by done.
    rewrite SharedPtr_dtor_eq. simpl. rewrite lookup_insert_eq, Hb.
    unfold set_strong. simpl. f_equal. by apply state_ext.
Qed.

Lemma SharedPtr_self_assign_is_identity_witness :
  ∃ s, run [OpMakeShared 0 42 true; OpSharedDefault 1] init = Some s ∧
       SharedPtr_assign 0 0 s = Ok tt s ∧ SharedPtr_assign 1 1 s = Ok tt s.
Proof.
  eexists. split; [vm_compute; reflexivity|].
  match goal with
  | |- SharedPtr_assign _ _ ?s = _ ∧ _ =>
      split;
        [apply (SharedPtr_self_assign_is_identity 0%nat s
                  (mkShared (embedded_object 1) (Some 1%positive)))
        |apply (SharedPtr_self_assign_is_identity 1%nat s (mkShared nullptr None))]
  end.
  - vm_compute. reflexivity.
  - intros l [= <-].
    exists (mkBlock 1 0 (ControlBlockMakeShared default_allocator 42)).
    split; [vm_compute; reflexivity|]. split; reflexivity.
  - vm_compute. reflexivity.
  - intros l [=].
Defined.

(** X4. Move-assigning a [SharedPtr] to itself leaves it as it was: the
    local copy takes what it holds and the swap hands it back. *)
Theorem SharedPtr_self_move_assign_is_identity x s t :
  strong s !! x = Some t ->
  SharedPtr_move_assign x x s = Ok tt s.
Proof.
  intros Hx. unfold SharedPtr_move_assign, local_shared. unfold_M.
  pose proof (fresh_shared_None s) as Hc.
  set (c := fresh (dom (strong s))) in *.
  assert (c ≠ x) as Hne by congruence.
  rewrite SharedPtr_move_eq, Hx, Hc.
  rewrite SharedPtr_swap_eq. unfold set_strong. simpl.
  rewrite lookup_insert_eq, lookup_insert_ne, lookup_insert_eq by done.
  rewrite SharedPtr_dtor_eq. simpl. rewrite lookup_insert_eq. simpl.
  unfold set_strong. simpl. f_equal. apply state_ext; simpl; try done.
  apply map_eq. intros k. rewrite lookup_delete, !lookup_insert.
  repeat case_decide; simplify_eq; done.
Qed.

Lemma SharedPtr_self_move_assign_is_identity_witness :
  ∃ s, run [OpMakeShared 0 42 true] init = Some s ∧
       SharedPtr_move_assign 0 0 s = Ok tt s.
Proof.
  eexists. split; [vm_compute; reflexivity|].
  match goal with
  | |- SharedPtr_move_assign _ _ ?s = _ =>
      apply (SharedPtr_self_move_assign_is_identity 0%nat s
               (mkShared (embedded_object 1) (Some 1%positive)))
  end.
  vm_compute. reflexivity.
Defined.

(** ** The destructor through [release_shared] *)

Lemma SharedPtr_dtor_release x s :
  SharedPtr_dtor x s =
  match strong s !! x with
  | None => Undefined
  | Some t =>
      match release_shared t (heap s) (trace s) with
      | Some (h, tr) => Ok tt (mkState h (next s) tr (delete x (strong s)) (weak s))
      | None => Undefined
      end
  end.
Proof.
  rewrite SharedPtr_dtor_eq. unfold release_shared, set_strong.
  destruct (strong s !! x) as [t|]; [|done].
  destruct (block t) as [l|]; [|done].
  destruct (heap s !! l) as [blk|]; [|done]. simpl.
  by repeat case_decide.
Qed.

(** A block the owner is not bound to stays as it is, whatever it is. *)
Lemma release_shared_insert_other t h tr l' b :
  block t ≠ Some l' ->
  release_shared t (<[l' := b]> h) tr =
  (λ r, (<[l' := b]> r.1, r.2)) <$> release_shared t h tr.
Proof.
  intros Hne. unfold release_shared.
  destruct (block t) as [l|]; [|done].
  assert (l' ≠ l) by congruence.
  rewrite lookup_insert_ne by done.
  destruct (h !! l) as [blk|]; [|done]. simpl.
  repeat case_decide; simpl; f_equal; f_equal;
    by rewrite ?(insert_insert_ne _ l' l), ?delete_insert_ne by done.
Qed.

Lemma release_shared_lookup_other t h tr h' tr' l' :
  release_shared t h tr = Some (h', tr') -> block t ≠ Some l' -> h' !! l' = h !! l'.
Proof.
  unfold release_shared. intros Hr Hne.
  destruct (block t) as [l|]; [|by simplify_eq].
  assert (l ≠ l') by congruence.
  destruct (h !! l) as [blk|]; [|done]. simpl in Hr.
  repeat case_decide; simplify_eq;
    by rewrite ?lookup_insert_ne, ?lookup_delete_ne by done.
Qed.

(** ** Copy assignment *)

(** Copy assignment from another object: the local [copy] is built from
    the source, takes what the target had in the swap, and is destroyed. *)
Lemma SharedPtr_assign_eq x y s t o :
  x ≠ y -> strong s !! x = Some t -> strong s !! y = Some o ->
  let copy := fresh (dom (strong s)) in
  SharedPtr_assign x y s =
  match block o with
  | None =>
      SharedPtr_dtor copy (set_strong (<[copy := t]> (<[x := o]> (strong s))) s)
  | Some l =>
      match heap s !! l with
      | Some blk =>
          SharedPtr_dtor copy
            (mkState (<[l := set_shared_count (size_t_incr (shared_count blk)) blk]> (heap s))
               (next s) (trace s) (<[copy := t]> (<[x := o]> (strong s))) (weak s))
      | None => Undefined
      end
  end.
Proof.
  intros Hne Hx Hy copy. unfold SharedPtr_assign, local_shared. unfold_M.
  fold copy. pose proof (fresh_shared_None s) as Hc. fold copy in Hc.
  assert (copy ≠ x) by congruence. assert (copy ≠ y) by congruence.
  rewrite SharedPtr_copy_eq, Hy, Hc.
  assert (<[copy := t]> (<[x := o]> (<[copy := o]> (strong s))) =
          <[copy := t]> (<[x := o]> (strong s))) as Hst.
  { apply map_eq. intros k. rewrite !lookup_insert.
    repeat case_decide; simplify_eq; done. }
  destruct (block o) as [l|].
  - destruct (heap s !! l) as [blk|]; [|done].
    rewrite SharedPtr_swap_eq. simpl.
    rewrite lookup_insert_ne, Hx, lookup_insert_eq by done.
    unfold set_strong. simpl. by rewrite Hst.
  - rewrite SharedPtr_swap_eq. unfold set_strong at 1. simpl.
    rewrite lookup_insert_ne, Hx, lookup_insert_eq by done.
    unfold set_strong. simpl. by rewrite Hst.
Qed.

(** An owner that is not the last of its block is released without a
    call. *)
Lemma release_shared_quiet t h tr h' tr' :
  (∀ l blk, block t = Some l -> h !! l = Some blk -> size_t_decr (shared_count blk) ≠ 0) ->
  release_shared t h tr = Some (h', tr') -> tr' = tr.
Proof.
  unfold release_shared. intros Hq Hr.
  destruct (block t) as [l|]; [|by simplify_eq].
  destruct (h !! l) as [blk|] eqn:Hl; [|done]. simpl in Hr.
  specialize (Hq l blk eq_refl Hl).
  repeat case_decide; by simplify_eq.
Qed.

Lemma SharedPtr_copy_trace x y s s' : SharedPtr_copy x y s = Ok tt s' -> trace s' = trace s.
Proof.
  rewrite SharedPtr_copy_eq. unfold set_strong.
  repeat case_match; try done; by intros [= <-].
Qed.

Lemma SharedPtr_move_trace x y s s' : SharedPtr_move x y s = Ok tt s' -> trace s' = trace s.
Proof.
  rewrite SharedPtr_move_eq. unfold set_strong.
  repeat case_match; try done; by intros [= <-].
Qed.

(** X5. Copy assignment between two objects bound to different blocks, or
    to an empty target, the target not being the last owner of its block:
    it does what destroying the target and copy-constructing it anew from
    the source does, and makes no call (no [destroy_ptr] runs, so that
    this holds whatever the managed objects hold). *)
Theorem SharedPtr_assign_is_destroy_then_copy x y s t o :
  x ≠ y -> strong s !! x = Some t -> strong s !! y = Some o ->
  block t ≠ block o ∨ block t = None ->
  (∀ l blk, block t = Some l -> heap s !! l = Some blk ->
     size_t_decr (shared_count blk) ≠ 0) ->
  SharedPtr_assign x y s = (SharedPtr_dtor x;; SharedPtr_copy x y) s ∧
  (∀ s', SharedPtr_assign x y s = Ok tt s' -> trace s' = trace s).
Proof.
  intros Hne Hx Hy Hdiff Hquiet.
  assert (SharedPtr_assign x y s = (SharedPtr_dtor x;; SharedPtr_copy x y) s) as Heq.
  { rewrite (SharedPtr_assign_eq x y s t o Hne Hx Hy). cbv zeta.
    pose proof (fresh_shared_None s) as Hc.
    set (c := fresh (dom (strong s))) in *.
    assert (c ≠ x) by congruence.
    assert (delete c (<[c := t]> (<[x := o]> (strong s))) = <[x := o]> (delete x (strong s)))
      as Hst.
    { apply map_eq. intros k. rewrite !lookup_delete, !lookup_insert, ?lookup_delete.
      repeat case_decide; simplify_eq; done. }
    unfold_M. rewrite (SharedPtr_dtor_release x s), Hx.
    destruct (block o) as [l|] eqn:Ho.
    - assert (block t ≠ Some l) as Htl by (destruct Hdiff; congruence).
      destruct (heap s !! l) as [blk|] eqn:Hl.
      + rewrite SharedPtr_dtor_release. simpl. rewrite lookup_insert_eq.
        rewrite release_shared_insert_other by done.
        destruct (release_shared t (heap s) (trace s)) as [[h' tr']|] eqn:Hr; [|done].
        simpl. rewrite SharedPtr_copy_eq. simpl.
        rewrite lookup_delete_ne, Hy, lookup_delete_eq, Ho by done.
        rewrite (release_shared_lookup_other _ _ _ _ _ l Hr Htl), Hl.
        by rewrite Hst.
      + destruct (release_shared t (heap s) (trace s)) as [[h' tr']|] eqn:Hr; [|done].
        rewrite SharedPtr_copy_eq. simpl.
        rewrite lookup_delete_ne, Hy, lookup_delete_eq, Ho by done.
        by rewrite (release_shared_lookup_other _ _ _ _ _ l Hr Htl), Hl.
    - rewrite SharedPtr_dtor_release. unfold set_strong. simpl. rewrite lookup_insert_eq.
      destruct (release_shared t (heap s) (trace s)) as [[h' tr']|] eqn:Hr; [|done].
      rewrite SharedPtr_copy_eq. simpl.
      rewrite lookup_delete_ne, Hy, lookup_delete_eq, Ho by done.
      unfold set_strong. simpl. by rewrite Hst. }
  split; [done|].
  intros s'. rewrite Heq. unfold_M. rewrite SharedPtr_dtor_release, Hx.
  destruct (release_shared t (heap s) (trace s)) as [[h' tr']|] eqn:Hr; [|done].
  rewrite (release_shared_quiet _ _ _ _ _ Hquiet Hr).
  intros Hcopy. by apply SharedPtr_copy_trace in Hcopy.
Qed.

Lemma SharedPtr_assign_is_destroy_then_copy_witness :
  ∃ s, run [OpMakeShared 0 42 true; OpSharedCopy 2 0; OpMakeShared 1 7 true] init = Some s ∧
       SharedPtr_assign 0 1 s = (SharedPtr_dtor 0;; SharedPtr_copy 0 1) s.
Proof.
  eexists. split; [vm_compute; reflexivity|].
  match goal with
  | |- SharedPtr_assign _ _ ?s = _ =>
      apply (SharedPtr_assign_is_destroy_then_copy 0%nat 1%nat s
               (mkShared (embedded_object 1) (Some 1%positive))
               (mkShared (embedded_object 2) (Some 2%positive)))
  end.
  - discriminate.
  - vm_compute. reflexivity.
  - vm_compute. reflexivity.
  - left. discriminate.
  - intros l blk [= <-] Hl. vm_compute in Hl. injection Hl as <-. discriminate.
Defined.

(** X6. Copy assignment between two objects bound to the same block leaves
    every block and the trace as they are; the target takes the source's
    pointer. *)
Theorem SharedPtr_assign_same_block x y s t o l blk :
  x ≠ y -> strong s !! x = Some t -> strong s !! y = Some o ->
  block t = Some l -> block o = Some l -> heap s !! l = Some blk ->
  0 < shared_count blk < size_t_modulus ->
  SharedPtr_assign x y s =
    Ok tt (mkState (heap s) (next s) (trace s) (<[x := o]> (strong s)) (weak s)).
Proof.
  intros Hne Hx Hy Ht Ho Hl Hn.
  rewrite (SharedPtr_assign_eq x y s t o Hne Hx Hy). cbv zeta. rewrite Ho, Hl.
  pose proof (fresh_shared_None s) as Hc.
  set (c := fresh (dom (strong s))) in *.
  rewrite SharedPtr_dtor_eq. simpl. rewrite lookup_insert_eq, Ht, lookup_insert_eq. simpl.
  rewrite size_t_decr_incr by lia. rewrite decide_True by lia.
  f_equal. f_equal.
  - rewrite insert_insert_eq. unfold set_shared_count at 1. simpl.
    fold (set_shared_count (shared_count blk) blk). rewrite set_shared_count_id.
    by apply insert_id.
  - rewrite delete_insert_id; [done|].
    rewrite lookup_insert_ne by congruence. done.
Qed.

Lemma SharedPtr_assign_same_block_witness :
  ∃ s, run [OpMakeShared 0 42 true; OpSharedCopy 1 0] init = Some s ∧
       ∃ s', SharedPtr_assign 0 1 s = Ok tt s' ∧ heap s' = heap s ∧ trace s' = trace s.
Proof.
  eexists. split; [vm_compute; reflexivity|].
  eexists. split.
  - match goal with
    | |- SharedPtr_assign _ _ ?s = _ =>
        apply (SharedPtr_assign_same_block 0%nat 1%nat s
                 (mkShared (embedded_object 1) (Some 1%positive))
                 (mkShared (embedded_object 1) (Some 1%positive)) 1%positive
                 (mkBlock 2 0 (ControlBlockMakeShared default_allocator 42)))
    end.
    + discriminate.
    + vm_compute. reflexivity.
    + vm_compute. reflexivity.
    + reflexivity.
    + reflexivity.
    + vm_compute. reflexivity.
    + split; reflexivity.
  - split; reflexivity.
Defined.

(** ** [reset] *)

(** X7. [reset()] does what destroying the object and default-constructing
    it anew does. *)
Theorem SharedPtr_reset_is_destroy_then_default x s t :
  strong s !! x = Some t ->
  SharedPtr_reset x s = (SharedPtr_dtor x;; SharedPtr_default x) s.
Proof.
  intros Hx. unfold SharedPtr_reset, local_shared. unfold_M.
  pose proof (fresh_shared_None s) as Htmp.
  set (tmp := fresh (dom (strong s))) in *.
  rewrite SharedPtr_default_eq, Htmp.
  set (s1 := set_strong (<[tmp := mkShared nullptr None]> (strong s)) s).
  assert (strong s1 !! tmp = Some (mkShared nullptr None)) as Htmp1 by apply lookup_insert_eq.
  pose proof (fresh_shared_None s1) as Hcopy.
  assert (x ≠ tmp) as Hne by congruence.
  assert (strong s1 !! x = Some t) as Hx1.
  { unfold s1. simpl. by rewrite lookup_insert_ne. }
  rewrite (SharedPtr_move_assign_eq x tmp s1 t (mkShared nullptr None) Hne Hx1 Htmp1).
  cbv zeta.
  set (copy := fresh (dom (strong s1))) in *.
  assert (x ≠ copy) as Hne' by congruence.
  assert (tmp ≠ copy) as Hne'' by congruence.
  assert (strong s !! copy = None) as Hcopy0.
  { unfold s1 in Hcopy. simpl in Hcopy. by rewrite lookup_insert_ne in Hcopy. }
  rewrite !SharedPtr_dtor_release. unfold set_strong. simpl.
  rewrite lookup_insert_eq, Hx.
  destruct (release_shared t (heap s) (trace s)) as [[h' tr']|]; [|done].
  rewrite SharedPtr_dtor_release. simpl.
  rewrite lookup_delete_ne, lookup_insert_ne, lookup_insert_ne, lookup_insert_eq by done.
  unfold release_shared. simpl.
  rewrite SharedPtr_default_eq. simpl. rewrite lookup_delete_eq.
  unfold set_strong. simpl. do 2 f_equal.
  apply map_eq. intros k. rewrite !lookup_delete, !lookup_insert, ?lookup_delete, ?lookup_insert.
  repeat case_decide; simplify_eq; congruence.
Qed.

Lemma SharedPtr_reset_is_destroy_then_default_witness :
  ∃ s, run [OpMakeShared 0 42 true] init = Some s ∧
       SharedPtr_reset 0 s = (SharedPtr_dtor 0;; SharedPtr_default 0) s.
Proof.
  eexists. split; [vm_compute; reflexivity|].
  match goal with
  | |- SharedPtr_reset _ ?s = _ =>
      apply (SharedPtr_reset_is_destroy_then_default 0%nat s
               (mkShared (embedded_object 1) (Some 1%positive)))
  end.
  vm_compute. reflexivity.
Defined.

(** X8. [reset(new_ptr)], when the allocation succeeds, does what
    destroying the object and constructing it anew from [new_ptr] does;
    the new block is allocated before the old one is released. *)
Theorem SharedPtr_reset_to_is_destroy_then_construct x p s t :
  strong s !! x = Some t ->
  heap s !! next s = None ->
  block t ≠ Some (next s) ->
  SharedPtr_reset_to x p true s =
    (SharedPtr_dtor x;; SharedPtr_from_raw x p default_delete default_allocator true) s.
Proof.
  intros Hx Hn Htn. unfold SharedPtr_reset_to, local_shared. unfold_M.
  pose proof (fresh_shared_None s) as Htmp.
  set (tmp := fresh (dom (strong s))) in *.
  rewrite SharedPtr_from_raw_eq, Htmp, Hn.
  match goal with |- context [SharedPtr_move_assign x tmp ?st] => set (s1 := st) end.
  assert (strong s1 !! tmp = Some (mkShared p (Some (next s)))) as Htmp1
    by apply lookup_insert_eq.
  pose proof (fresh_shared_None s1) as Hcopy.
  assert (x ≠ tmp) as Hne by congruence.
  assert (strong s1 !! x = Some t) as Hx1.
  { unfold s1. simpl. by rewrite lookup_insert_ne. }
  rewrite (SharedPtr_move_assign_eq x tmp s1 t _ Hne Hx1 Htmp1). cbv zeta.
  set (copy := fresh (dom (strong s1))) in *.
  assert (x ≠ copy) as Hne' by congruence.
  assert (tmp ≠ copy) as Hne'' by congruence.
  assert (strong s !! copy = None) as Hcopy0.
  { unfold s1 in Hcopy. simpl in Hcopy. by rewrite lookup_insert_ne in Hcopy. }
  rewrite !SharedPtr_dtor_release. unfold set_strong. simpl.
  rewrite lookup_insert_eq, Hx.
  rewrite release_shared_insert_other by done.
  destruct (release_shared t (heap s) (trace s)) as [[h' tr']|] eqn:Hr; [|done].
  simpl. rewrite SharedPtr_dtor_release. simpl.
  rewrite lookup_delete_ne, lookup_insert_ne, lookup_insert_ne, lookup_insert_eq by done.
  unfold release_shared at 1. simpl.
  rewrite SharedPtr_from_raw_eq. simpl. rewrite lookup_delete_eq.
  rewrite (release_shared_lookup_other _ _ _ _ _ (next s) Hr Htn), Hn.
  do 2 f_equal.
  apply map_eq. intros k. rewrite !lookup_delete, !lookup_insert, ?lookup_delete, ?lookup_insert.
  repeat case_decide; simplify_eq; congruence.
Qed.

Lemma SharedPtr_reset_to_is_destroy_then_construct_witness :
  ∃ s, run [OpMakeShared 0 42 true] init = Some s ∧
       SharedPtr_reset_to 0 (raw_object 7) true s =
         (SharedPtr_dtor 0;;
          SharedPtr_from_raw 0 (raw_object 7) default_delete default_allocator true) s.
Proof.
  eexists. split; [vm_compute; reflexivity|].
  match goal with
  | |- SharedPtr_reset_to _ _ _ ?s = _ =>
      apply (SharedPtr_reset_to_is_destroy_then_construct 0%nat (raw_object 7) s
               (mkShared (embedded_object 1) (Some 1%positive)))
  end.
  - vm_compute. reflexivity.
  - vm_compute. reflexivity.
  - discriminate.
Defined.

(** ** Move assignment *)

(** X9. Move assignment of a [SharedPtr] from another object, the target
    not being the last owner of its block: it does what destroying the
    target and move-constructing it anew from the source does, and makes
    no call (no [destroy_ptr] runs, so that this holds whatever the
    managed objects hold). *)
Theorem SharedPtr_move_assign_is_destroy_then_move x y s t o :
  x ≠ y -> strong s !! x = Some t -> strong s !! y = Some o ->
  (∀ l blk, block t = Some l -> heap s !! l = Some blk ->
     size_t_decr (shared_count blk) ≠ 0) ->
  SharedPtr_move_assign x y s = (SharedPtr_dtor x;; SharedPtr_move x y) s ∧
  (∀ s', SharedPtr_move_assign x y s = Ok tt s' -> trace s' = trace s).
Proof.
  intros Hne Hx Hy Hquiet.
  assert (SharedPtr_move_assign x y s = (SharedPtr_dtor x;; SharedPtr_move x y) s) as Heq.
  { rewrite (SharedPtr_move_assign_eq x y s t o Hne Hx Hy). cbv zeta.
    pose proof (fresh_shared_None s) as Hc.
    set (c := fresh (dom (strong s))) in *.
    assert (c ≠ x) by congruence. assert (c ≠ y) by congruence.
    unfold_M. rewrite !SharedPtr_dtor_release, Hx. unfold set_strong. simpl.
    rewrite lookup_insert_eq.
    destruct (release_shared t (heap s) (trace s)) as [[h' tr']|]; [|done].
    rewrite SharedPtr_move_eq. simpl.
    rewrite lookup_delete_ne, Hy, lookup_delete_eq by done.
    unfold set_strong. simpl. do 2 f_equal.
    apply map_eq. intros k. rewrite !lookup_delete, !lookup_insert, ?lookup_delete.
    repeat case_decide; simplify_eq; congruence. }
  split; [done|].
  intros s'. rewrite Heq. unfold_M. rewrite SharedPtr_dtor_release, Hx.
  destruct (release_shared t (heap s) (trace s)) as [[h' tr']|] eqn:Hr; [|done].
  rewrite (release_shared_quiet _ _ _ _ _ Hquiet Hr).
  intros Hmove. by apply SharedPtr_move_trace in Hmove.
Qed.

Lemma SharedPtr_move_assign_is_destroy_then_move_witness :
  ∃ s, run [OpMakeShared 0 42 true; OpSharedCopy 2 0; OpMakeShared 1 7 true] init = Some s ∧
       SharedPtr_move_assign 0 1 s = (SharedPtr_dtor 0;; SharedPtr_move 0 1) s.
Proof.
  eexists. split; [vm_compute; reflexivity|].
  match goal with
  | |- SharedPtr_move_assign _ _ ?s = _ =>
      apply (SharedPtr_move_assign_is_destroy_then_move 0%nat 1%nat s
               (mkShared (embedded_object 1) (Some 1%positive))
               (mkShared (embedded_object 2) (Some 2%positive)))
  end.
  - discriminate.
  - vm_compute. reflexivity.
  - vm_compute. reflexivity.
  - intros l blk [= <-] Hl. vm_compute in Hl. injection Hl as <-. discriminate.
Defined.

(** * What holds in every state a program reaches *)

Lemma reachable_Inv_at ops s :
  Z.of_nat (length ops) + 2 < size_t_modulus ->
  run ops init = Some s ->
  Inv no_block no_origin s ∧ bounded s.
Proof.
  intros Hlen Hrun.
  destruct (run_Inv_at no_block no_origin ops 0 init s) as [HI Ho]; [|done|done|done|].
  { split; [apply Inv_init|]. done. }
  split; [done|]. unfold bounded. simpl in Ho. lia.
Qed.

Lemma refs_pos_lookup {V} (f : V -> option loc) l (m : gmap var V) :
  (0 < refs f l m)%nat -> ∃ x v, m !! x = Some v ∧ f v = Some l.
Proof.
  unfold refs. intros Hpos.
  destruct (map_choose (filter (λ kv : var * V, f kv.2 = Some l) m)) as (x & v & Hxv).
  { intros Heq. rewrite Heq, map_size_empty in Hpos. lia. }
  apply map_lookup_filter_Some in Hxv as [Hx Hv]. by exists x, v.
Qed.

(** The block of a bound [SharedPtr], with its counts in range. *)
Lemma Inv_strong_live strict Ω s x v l :
  Inv strict Ω s -> bounded s -> strong s !! x = Some v -> block v = Some l ->
  ∃ blk, heap s !! l = Some blk ∧
         0 < shared_count blk ∧ shared_count blk + 1 < size_t_modulus ∧
         0 ≤ weak_count blk ∧ weak_count blk + 1 < size_t_modulus.
Proof.
  intros HI Hb Hx Hv. destruct (HI l) as (Hc & _).
  pose proof (refs_lookup_pos block l x v (strong s) Hx Hv) as Hpos.
  fold (strong_refs l s) in Hpos.
  pose proof (strong_refs_bounded l s Hb). pose proof (weak_refs_bounded l s Hb).
  destruct (heap s !! l) as [blk|]; simpl in Hc; [|lia].
  exists blk. split; [done|]. lia.
Qed.

(** The block of a bound [WeakPtr], with its counts in range. *)
Lemma Inv_weak_live strict Ω s w v l :
  Inv strict Ω s -> bounded s -> weak s !! w = Some v -> wblock v = Some l ->
  ∃ blk, heap s !! l = Some blk ∧
         0 ≤ shared_count blk ∧ shared_count blk + 1 < size_t_modulus ∧
         0 < weak_count blk ∧ weak_count blk + 1 < size_t_modulus.
Proof.
  intros HI Hb Hw Hv. destruct (HI l) as (Hc & _).
  pose proof (refs_lookup_pos wblock l w v (weak s) Hw Hv) as Hpos.
  fold (weak_refs l s) in Hpos.
  pose proof (strong_refs_bounded l s Hb). pose proof (weak_refs_bounded l s Hb).
  destruct (heap s !! l) as [blk|]; simpl in Hc; [|lia].
  exists blk. split; [done|]. lia.
Qed.

Lemma WeakPtr_use_count_eq w s :
  WeakPtr_use_count w s =
  match weak s !! w with
  | Some (mkWeak (Some l)) =>
      match heap s !! l with
      | Some blk => Ok (shared_count blk) s
      | None => Undefined
      end
  | _ => Undefined
  end.
Proof.
  unfold WeakPtr_use_count. unfold_prims. unfold_M. simpl.
  destruct (weak s !! w) as [[[l|]]|]; try done. simpl.
  by destruct (heap s !! l).
Qed.

(** X10. In every state a program reaches no owner dangles: the block of
    a bound [SharedPtr] is allocated and counts at least that owner, the
    block of a bound [WeakPtr] is allocated and counts at least that
    observer.  So the destructor of a [WeakPtr] is defined, and so is,
    with no call made, that of a [SharedPtr] that is empty or not the
    last owner of its block (the destructor of the last owner runs
    [destroy_ptr], and with it the destructor of the managed object). *)
Theorem owners_never_dangle ops s :
  Z.of_nat (length ops) + 2 < size_t_modulus ->
  run ops init = Some s ->
  (∀ x v l, strong s !! x = Some v -> block v = Some l ->
     ∃ blk, heap s !! l = Some blk ∧ 0 < shared_count blk) ∧
  (∀ w v l, weak s !! w = Some v -> wblock v = Some l ->
     ∃ blk, heap s !! l = Some blk ∧ 0 < weak_count blk) ∧
  (∀ x v, strong s !! x = Some v ->
     (∀ l, block v = Some l -> strong_refs l s ≠ 1%nat) ->
     ∃ s', SharedPtr_dtor x s = Ok tt s' ∧ trace s' = trace s) ∧
  (∀ w, is_Some (weak s !! w) -> ∃ s', WeakPtr_dtor w s = Ok tt s').
Proof.
  intros Hlen Hrun. destruct (reachable_Inv_at ops s Hlen Hrun) as [HI Hb].
  split_and!.
  - intros x v l Hx Hv.
    destruct (Inv_strong_live _ _ _ _ _ _ HI Hb Hx Hv) as (blk & Hl & ? & _).
    by exists blk.
  - intros w v l Hw Hv.
    destruct (Inv_weak_live _ _ _ _ _ _ HI Hb Hw Hv) as (blk & Hl & _ & _ & ? & _).
    by exists blk.
  - intros x v Hx Hlast. rewrite SharedPtr_dtor_eq, Hx.
    destruct (block v) as [l|] eqn:Hv; [|by eexists].
    destruct (Inv_strong_live _ _ _ _ _ _ HI Hb Hx Hv) as (blk & Hl & H0 & Hmax & _).
    specialize (Hlast l eq_refl).
    destruct (HI l) as (Hc & _). rewrite Hl in Hc. destruct Hc as (Hsc & _).
    rewrite Hl. cbv zeta. rewrite size_t_decr_small by lia.
    rewrite decide_True by lia. by eexists.
  - intros w [v Hw]. rewrite WeakPtr_dtor_eq, Hw.
    destruct (wblock v) as [l|] eqn:Hv; [|by eexists].
    destruct (Inv_weak_live _ _ _ _ _ _ HI Hb Hw Hv) as (blk & Hl & _).
    rewrite Hl. cbv zeta. repeat case_decide; by eexists.
Qed.

Lemma owners_never_dangle_witness :
  ∃ s, run [OpMakeShared 0 42 true; OpWeakFromShared 0 0; OpSharedDestroy 0] init = Some s ∧
       (∃ blk, heap s !! 1%positive = Some blk ∧ 0 < weak_count blk) ∧
       (∃ s', WeakPtr_dtor 0 s = Ok tt s').
Proof.
  eexists. split; [vm_compute; reflexivity|].
  match goal with
  | |- (∃ blk, heap ?s !! _ = _ ∧ _) ∧ _ =>
      destruct (owners_never_dangle
                  [OpMakeShared 0 42 true; OpWeakFromShared 0 0; OpSharedDestroy 0] s)
        as (_ & Hw & _ & Hd); [vm_compute; reflexivity..|];
      split;
        [apply (Hw 0%nat (mkWeak (Some 1%positive)) 1%positive)
        |apply (Hd 0%nat); exists (mkWeak (Some 1%positive))]
  end.
  - vm_compute. reflexivity.
  - reflexivity.
  - vm_compute. reflexivity.
Defined.

(** X11. In every state a program reaches, every allocated block has an
    owner bound to it, a [SharedPtr] or a [WeakPtr]: once all the owner
    objects are destroyed, no block is left. *)
Theorem every_block_has_an_owner ops s :
  Z.of_nat (length ops) + 2 < size_t_modulus ->
  run ops init = Some s ->
  (∀ l blk, heap s !! l = Some blk ->
     (∃ x v, strong s !! x = Some v ∧ block v = Some l) ∨
     (∃ w v, weak s !! w = Some v ∧ wblock v = Some l)) ∧
  (strong s = ∅ -> weak s = ∅ -> heap s = ∅).
Proof.
  intros Hlen Hrun. pose proof (reachable_Inv ops s Hlen Hrun) as HI.
  assert (∀ l blk, heap s !! l = Some blk ->
     (∃ x v, strong s !! x = Some v ∧ block v = Some l) ∨
     (∃ w v, weak s !! w = Some v ∧ wblock v = Some l)) as Hown.
  { intros l blk Hl. destruct (HI l) as (Hc & _). rewrite Hl in Hc.
    destruct Hc as (_ & _ & Hpos & _).
    destruct (decide (0 < strong_refs l s)%nat) as [Hs|Hs].
    - left. by apply refs_pos_lookup.
    - right. apply refs_pos_lookup. fold (weak_refs l s). lia. }
  split; [done|].
  intros Hs Hw. apply map_empty. intros l.
  destruct (heap s !! l) as [blk|] eqn:Hl; [|done].
  destruct (Hown l blk Hl) as [(x & v & Hx & _)|(w & v & Hx & _)].
  - by rewrite Hs, lookup_empty in Hx.
  - by rewrite Hw, lookup_empty in Hx.
Qed.

Lemma every_block_has_an_owner_witness :
  ∃ s, run [OpMakeShared 0 42 true; OpWeakFromShared 0 0; OpSharedDestroy 0; OpWeakDestroy 0]
         init = Some s ∧
       heap s = ∅.
Proof.
  eexists. split; [vm_compute; reflexivity|].
  match goal with
  | |- heap ?s = ∅ =>
      destruct (every_block_has_an_owner
                  [OpMakeShared 0 42 true; OpWeakFromShared 0 0; OpSharedDestroy 0;
                   OpWeakDestroy 0] s)
        as (_ & Hempty); [vm_compute; reflexivity..|];
      apply Hempty
  end.
  - vm_compute. reflexivity.
  - vm_compute. reflexivity.
Defined.

(** X12. In every state a program reaches, the [weak_count] of a block is
    the number of [WeakPtr] objects bound to the block, and on any of
    them [use_count] returns the number of [SharedPtr] objects bound to
    the block and [expired] whether there is none. *)
Theorem weak_count_is_number_of_observers ops s :
  Z.of_nat (length ops) + 2 < size_t_modulus ->
  run ops init = Some s ->
  (∀ l blk, heap s !! l = Some blk -> weak_count blk = Z.of_nat (weak_refs l s)) ∧
  (∀ w v l, weak s !! w = Some v -> wblock v = Some l ->
     WeakPtr_use_count w s = Ok (Z.of_nat (strong_refs l s)) s ∧
     WeakPtr_expired w s = Ok (bool_decide (strong_refs l s = 0%nat)) s).
Proof.
  intros Hlen Hrun. pose proof (reachable_Inv ops s Hlen Hrun) as HI.
  split.
  - intros l blk Hl. destruct (HI l) as (Hc & _). rewrite Hl in Hc.
    by destruct Hc as (_ & ? & _).
  - intros w [b] l Hw Hb. simpl in Hb. subst b.
    destruct (Inv_weak_bound _ _ _ _ _ _ HI Hw eq_refl) as (blk & Hl & _).
    destruct (HI l) as (Hc & _). rewrite Hl in Hc. destruct Hc as (Hsc & _).
    rewrite WeakPtr_use_count_eq, WeakPtr_expired_eq, Hw, Hl, Hsc. split; [done|].
    f_equal. apply bool_decide_ext. lia.
Qed.

Lemma weak_count_is_number_of_observers_witness :
  ∃ s, run [OpMakeShared 0 42 true; OpSharedCopy 1 0; OpWeakFromShared 0 0] init = Some s ∧
       WeakPtr_use_count 0 s = Ok 2 s ∧ WeakPtr_expired 0 s = Ok false s.
Proof.
  eexists. split; [vm_compute; reflexivity|].
  match goal with
  | |- WeakPtr_use_count _ ?s = _ ∧ _ =>
      destruct (weak_count_is_number_of_observers
                  [OpMakeShared 0 42 true; OpSharedCopy 1 0; OpWeakFromShared 0 0] s)
        as (_ & H); [vm_compute; reflexivity..|];
      destruct (H 0%nat (mkWeak (Some 1%positive)) 1%positive) as [Hu He];
        [vm_compute; reflexivity|reflexivity|]
  end.
  split; [exact Hu|exact He].
Defined.

(** X13. The members that read the block do so without a null check: in
    every state a program reaches, [use_count], the construction of a
    [WeakPtr] from a [SharedPtr] or from a [WeakPtr], [expired] and [lock]
    are defined on an owner bound to a block, and undefined behaviour on
    an empty one. *)
Theorem block_readers_need_a_bound_owner ops s :
  Z.of_nat (length ops) + 2 < size_t_modulus ->
  run ops init = Some s ->
  (∀ x v, strong s !! x = Some v ->
     match block v with
     | Some _ =>
         (∃ n, SharedPtr_use_count x s = Ok n s) ∧
         (∀ w, weak s !! w = None -> ∃ s', WeakPtr_from_shared w x s = Ok tt s')
     | None =>
         SharedPtr_use_count x s = Undefined ∧
         (∀ w, WeakPtr_from_shared w x s = Undefined)
     end) ∧
  (∀ w v, weak s !! w = Some v ->
     match wblock v with
     | Some _ =>
         (∃ n, WeakPtr_use_count w s = Ok n s) ∧
         (∃ e, WeakPtr_expired w s = Ok e s) ∧
         (∀ x, strong s !! x = None -> ∃ s', WeakPtr_lock x w s = Ok tt s') ∧
         (∀ w', weak s !! w' = None -> ∃ s', WeakPtr_copy w' w s = Ok tt s')
     | None =>
         WeakPtr_use_count w s = Undefined ∧
         WeakPtr_expired w s = Undefined ∧
         (∀ x, WeakPtr_lock x w s = Undefined) ∧
         (∀ x, SharedPtr_from_weak x w s = Undefined) ∧
         (∀ w', WeakPtr_copy w' w s = Undefined) ∧
         (∀ w', WeakPtr_assign w' w s = Undefined) ∧
         (∀ w', WeakPtr_move_assign w' w s = Undefined)
     end).
Proof.
  intros Hlen Hrun. pose proof (reachable_Inv ops s Hlen Hrun) as HI.
  split.
  - intros x [p [l|]] Hx; simpl.
    + destruct (Inv_strong_bound _ _ _ _ _ _ HI Hx eq_refl) as (blk & Hl & _).
      split.
      * rewrite SharedPtr_use_count_eq, Hx, Hl. by eexists.
      * intros w Hw. rewrite WeakPtr_from_shared_eq, Hx, Hw, Hl. by eexists.
    + split.
      * by rewrite SharedPtr_use_count_eq, Hx.
      * intros w. by rewrite WeakPtr_from_shared_eq, Hx.
  - intros w [[l|]] Hw; simpl.
    + destruct (Inv_weak_bound _ _ _ _ _ _ HI Hw eq_refl) as (blk & Hl & _).
      split_and!.
      * rewrite WeakPtr_use_count_eq, Hw, Hl. by eexists.
      * rewrite WeakPtr_expired_eq, Hw, Hl. by eexists.
      * intros x Hx. rewrite WeakPtr_lock_eq, Hw, Hl. case_decide.
        -- rewrite SharedPtr_default_eq, Hx. by eexists.
        -- rewrite SharedPtr_from_weak_eq, Hw, Hl, Hx. by eexists.
      * intros w' Hw'. rewrite WeakPtr_copy_eq, Hw, Hw', Hl. by eexists.
    + assert (∀ w', WeakPtr_copy w' w s = Undefined) as Hcopy.
      { intros w'. by rewrite WeakPtr_copy_eq, Hw. }
      split_and!.
      * by rewrite WeakPtr_use_count_eq, Hw.
      * by rewrite WeakPtr_expired_eq, Hw.
      * intros x. by rewrite WeakPtr_lock_eq, Hw.
      * intros x. by rewrite SharedPtr_from_weak_eq, Hw.
      * done.
      * intros w'. unfold WeakPtr_assign, local_weak. unfold_M. by rewrite Hcopy.
      * intros w'. unfold WeakPtr_move_assign, local_weak. unfold_M. by rewrite Hcopy.
Qed.

Lemma block_readers_need_a_bound_owner_witness :
  ∃ s, run [OpSharedDefault 0; OpWeakDefault 0] init = Some s ∧
       SharedPtr_use_count 0 s = Undefined ∧
       WeakPtr_from_shared 1 0 s = Undefined ∧
       WeakPtr_expired 0 s = Undefined ∧
       WeakPtr_copy 1 0 s = Undefined.
Proof.
  eexists. split; [vm_compute; reflexivity|].
  match goal with
  | |- SharedPtr_use_count _ ?s = _ ∧ _ =>
      destruct (block_readers_need_a_bound_owner [OpSharedDefault 0; OpWeakDefault 0] s)
        as (Hs & Hw); [vm_compute; reflexivity..|];
      pose proof (Hs 0%nat (mkShared nullptr None)) as Hs0;
      pose proof (Hw 0%nat (mkWeak None)) as Hw0
  end.
  destruct Hs0 as [Hu Hf]; [vm_compute; reflexivity|].
  destruct Hw0 as (_ & He & _ & _ & Hc & _); [vm_compute; reflexivity|].
  split; [exact Hu|]. split; [apply Hf|]. split; [exact He|apply Hc].
Defined.

(** ** Temporaries *)

(** X14. In every state a program reaches, a temporary [SharedPtr] copied
    from an owner, or returned by [lock], and destroyed at once leaves the
    whole state as it was: no count has changed and no call is made. *)
Theorem SharedPtr_temporary_leaves_no_trace ops s x :
  Z.of_nat (length ops) + 2 < size_t_modulus ->
  run ops init = Some s ->
  strong s !! x = None ->
  (∀ y, is_Some (strong s !! y) ->
     (SharedPtr_copy x y;; SharedPtr_dtor x) s = Ok tt s) ∧
  (∀ w v, weak s !! w = Some v -> is_Some (wblock v) ->
     (WeakPtr_lock x w;; SharedPtr_dtor x) s = Ok tt s).
Proof.
  intros Hlen Hrun Hx. destruct (reachable_Inv_at ops s Hlen Hrun) as [HI Hb].
  assert (∀ t, SharedPtr_dtor x (set_strong (<[x := t]> (strong s)) s) =
               match release_shared t (heap s) (trace s) with
               | Some (h, tr) => Ok tt (mkState h (next s) tr (strong s) (weak s))
               | None => Undefined
               end) as Hdtor.
  { intros t. rewrite SharedPtr_dtor_release. unfold set_strong. simpl.
    rewrite lookup_insert_eq. by rewrite delete_insert_id. }
  assert (∀ l blk p, heap s !! l = Some blk ->
            0 < shared_count blk -> shared_count blk + 1 < size_t_modulus ->
            SharedPtr_dtor x
              (mkState (<[l := set_shared_count (size_t_incr (shared_count blk)) blk]> (heap s))
                 (next s) (trace s) (<[x := mkShared p (Some l)]> (strong s)) (weak s)) =
            Ok tt s) as Hback.
  { intros l blk p Hl H0 Hmax. rewrite SharedPtr_dtor_eq. simpl.
    rewrite !lookup_insert_eq. simpl. rewrite lookup_insert_eq. cbv zeta. simpl.
    rewrite size_t_decr_incr by lia. rewrite decide_True by lia.
    f_equal. apply state_ext; simpl; try done.
    - rewrite insert_insert_eq. unfold set_shared_count at 1. simpl.
      fold (set_shared_count (shared_count blk) blk). rewrite set_shared_count_id.
      by apply insert_id.
    - by apply delete_insert_id. }
  split.
  - intros y [[p b] Hy]. unfold_M. rewrite SharedPtr_copy_eq, Hy, Hx. simpl.
    destruct b as [l|].
    + destruct (Inv_strong_live _ _ _ _ _ _ HI Hb Hy eq_refl) as (blk & Hl & H0 & Hmax & _).
      rewrite Hl. by apply Hback.
    + rewrite Hdtor. simpl. by rewrite state_eta.
  - intros w [b] Hw [l Hbl]. simpl in Hbl. subst b. unfold_M.
    destruct (Inv_weak_live _ _ _ _ _ _ HI Hb Hw eq_refl) as (blk & Hl & H0 & Hmax & _).
    rewrite WeakPtr_lock_eq, Hw, Hl. case_decide as Hz.
    + rewrite SharedPtr_default_eq, Hx, Hdtor. simpl. by rewrite state_eta.
    + rewrite SharedPtr_from_weak_eq, Hw, Hl, Hx. apply Hback; [done|lia|done].
Qed.

Lemma SharedPtr_temporary_leaves_no_trace_witness :
  ∃ s, run [OpMakeShared 0 42 true; OpWeakFromShared 0 0] init = Some s ∧
       (SharedPtr_copy 1 0;; SharedPtr_dtor 1) s = Ok tt s ∧
       (WeakPtr_lock 1 0;; SharedPtr_dtor 1) s = Ok tt s.
Proof.
  eexists. split; [vm_compute; reflexivity|].
  match goal with
  | |- _ ?s = Ok tt ?s ∧ _ =>
      destruct (SharedPtr_temporary_leaves_no_trace
                  [OpMakeShared 0 42 true; OpWeakFromShared 0 0] s 1%nat)
        as (Hc & Hl); [vm_compute; reflexivity..|];
      split;
        [apply (Hc 0%nat); exists (mkShared (embedded_object 1) (Some 1%positive))
        |apply (Hl 0%nat (mkWeak (Some 1%positive))); [|by eexists]]
  end.
  - vm_compute. reflexivity.
  - vm_compute. reflexivity.
Defined.

(** X15. In every state a program reaches, a temporary [WeakPtr] built
    from a [SharedPtr] or copied from a [WeakPtr], and destroyed at once,
    leaves the whole state as it was: no count has changed and no call is
    made. *)
Theorem WeakPtr_temporary_leaves_no_trace ops s w :
  Z.of_nat (length ops) + 2 < size_t_modulus ->
  run ops init = Some s ->
  weak s !! w = None ->
  (∀ x v, strong s !! x = Some v -> is_Some (block v) ->
     (WeakPtr_from_shared w x;; WeakPtr_dtor w) s = Ok tt s) ∧
  (∀ w' v, weak s !! w' = Some v -> is_Some (wblock v) ->
     (WeakPtr_copy w w';; WeakPtr_dtor w) s = Ok tt s).
Proof.
  intros Hlen Hrun Hw. destruct (reachable_Inv_at ops s Hlen Hrun) as [HI Hb].
  assert (∀ l blk, heap s !! l = Some blk ->
            0 ≤ weak_count blk -> weak_count blk + 1 < size_t_modulus ->
            shared_count blk ≠ 0 ∨ weak_count blk ≠ 0 ->
            WeakPtr_dtor w
              (mkState (<[l := set_weak_count (size_t_incr (weak_count blk)) blk]> (heap s))
                 (next s) (trace s) (strong s) (<[w := mkWeak (Some l)]> (weak s))) =
            Ok tt s) as Hback.
  { intros l blk Hl H0 Hmax Hnz. rewrite WeakPtr_dtor_eq. simpl.
    rewrite !lookup_insert_eq. simpl. rewrite lookup_insert_eq. cbv zeta. simpl.
    rewrite size_t_decr_incr by lia. rewrite decide_False by lia.
    f_equal. apply state_ext; simpl; try done.
    - rewrite insert_insert_eq. unfold set_weak_count at 1. simpl.
      fold (set_weak_count (weak_count blk) blk). rewrite set_weak_count_id.
      by apply insert_id.
    - by apply delete_insert_id. }
  split.
  - intros x [p b] Hx [l Hbl]. simpl in Hbl. subst b. unfold_M.
    destruct (Inv_strong_live _ _ _ _ _ _ HI Hb Hx eq_refl) as (blk & Hl & H0 & _ & Hw0 & Hmax).
    rewrite WeakPtr_from_shared_eq, Hx, Hw, Hl. apply Hback; try done. left. lia.
  - intros w' [b] Hw' [l Hbl]. simpl in Hbl. subst b. unfold_M.
    destruct (Inv_weak_live _ _ _ _ _ _ HI Hb Hw' eq_refl) as (blk & Hl & _ & _ & Hw0 & Hmax).
    rewrite WeakPtr_copy_eq, Hw', Hw, Hl. apply Hback; try done; [lia|]. right. lia.
Qed.

Lemma WeakPtr_temporary_leaves_no_trace_witness :
  ∃ s, run [OpMakeShared 0 42 true; OpWeakFromShared 0 0] init = Some s ∧
       (WeakPtr_from_shared 1 0;; WeakPtr_dtor 1) s = Ok tt s ∧
       (WeakPtr_copy 1 0;; WeakPtr_dtor 1) s = Ok tt s.
Proof.
  eexists. split; [vm_compute; reflexivity|].
  match goal with
  | |- _ ?s = Ok tt ?s ∧ _ =>
      destruct (WeakPtr_temporary_leaves_no_trace
                  [OpMakeShared 0 42 true; OpWeakFromShared 0 0] s 1%nat)
        as (Hc & Hl); [vm_compute; reflexivity..|];
      split;
        [apply (Hc 0%nat (mkShared (embedded_object 1) (Some 1%positive))); [|by eexists]
        |apply (Hl 0%nat (mkWeak (Some 1%positive))); [|by eexists]]
  end.
  - vm_compute. reflexivity.
  - vm_compute. reflexivity.
Defined.

(** ** Assignment of [WeakPtr] *)

Lemma WeakPtr_dtor_release w s :
  WeakPtr_dtor w s =
  match weak s !! w with
  | None => Undefined
  | Some t =>
      match release_weak t (heap s) (trace s) with
      | Some (h, tr) => Ok tt (mkState h (next s) tr (strong s) (delete w (weak s)))
      | None => Undefined
      end
  end.
Proof.
  rewrite WeakPtr_dtor_eq. unfold release_weak, set_weak.
  destruct (weak s !! w) as [t|]; [|done].
  destruct (wblock t) as [l|]; [|done].
  destruct (heap s !! l) as [blk|]; [|done]. simpl.
  by repeat case_decide.
Qed.

Lemma release_weak_insert_other t h tr l' b :
  wblock t ≠ Some l' ->
  release_weak t (<[l' := b]> h) tr =
  (λ r, (<[l' := b]> r.1, r.2)) <$> release_weak t h tr.
Proof.
  intros Hne. unfold release_weak.
  destruct (wblock t) as [l|]; [|done].
  assert (l' ≠ l) by congruence.
  rewrite lookup_insert_ne by done.
  destruct (h !! l) as [blk|]; [|done]. simpl.
  repeat case_decide; simpl; f_equal; f_equal;
    by rewrite ?(insert_insert_ne _ l' l), ?delete_insert_ne by done.
Qed.

Lemma release_weak_lookup_other t h tr h' tr' l' :
  release_weak t h tr = Some (h', tr') -> wblock t ≠ Some l' -> h' !! l' = h !! l'.
Proof.
  unfold release_weak. intros Hr Hne.
  destruct (wblock t) as [l|]; [|by simplify_eq].
  assert (l ≠ l') by congruence.
  destruct (h !! l) as [blk|]; [|done]. simpl in Hr.
  repeat case_decide; simplify_eq;
    by rewrite ?lookup_insert_ne, ?lookup_delete_ne by done.
Qed.

(** Assignment from another object: the local [copy] is copied from the
    source, takes what the target had in the swap, and is destroyed. *)
Lemma WeakPtr_assign_eq w v s t o :
  w ≠ v -> weak s !! w = Some t -> weak s !! v = Some o ->
  let copy := fresh (dom (weak s)) in
  WeakPtr_assign w v s =
  match wblock o with
  | None => Undefined
  | Some l =>
      match heap s !! l with
      | Some blk =>
          WeakPtr_dtor copy
            (mkState (<[l := set_weak_count (size_t_incr (weak_count blk)) blk]> (heap s))
               (next s) (trace s) (strong s) (<[copy := t]> (<[w := o]> (weak s))))
      | None => Undefined
      end
  end.
Proof.
  intros Hne Hw Hv copy. unfold WeakPtr_assign, local_weak. unfold_M.
  fold copy. pose proof (fresh_weak_None s) as Hc. fold copy in Hc.
  assert (copy ≠ w) by congruence. assert (copy ≠ v) by congruence.
  rewrite WeakPtr_copy_eq, Hv, Hc.
  destruct o as [[l|]]; [|done]. simpl.
  destruct (heap s !! l) as [blk|]; [|done].
  rewrite WeakPtr_swap_eq. simpl.
  rewrite lookup_insert_ne, Hw, lookup_insert_eq by done.
  unfold set_weak. simpl. do 2 f_equal.
  apply map_eq. intros k. rewrite !lookup_insert.
  repeat case_decide; simplify_eq; done.
Qed.

(** X16. Assignment of a [WeakPtr], by copy or by move, between two
    objects bound to different blocks, or to an empty target, does what
    destroying the target and copy-constructing it anew from the source
    does. *)
Theorem WeakPtr_assign_is_destroy_then_copy w v s t o :
  w ≠ v -> weak s !! w = Some t -> weak s !! v = Some o ->
  wblock t ≠ wblock o ∨ wblock t = None ->
  WeakPtr_assign w v s = (WeakPtr_dtor w;; WeakPtr_copy w v) s ∧
  WeakPtr_move_assign w v s = (WeakPtr_dtor w;; WeakPtr_copy w v) s.
Proof.
  intros Hne Hw Hv Hdiff.
  assert (WeakPtr_assign w v s = (WeakPtr_dtor w;; WeakPtr_copy w v) s) as Heq; [|done].
  rewrite (WeakPtr_assign_eq w v s t o Hne Hw Hv). cbv zeta.
  pose proof (fresh_weak_None s) as Hc.
  set (c := fresh (dom (weak s))) in *.
  assert (c ≠ w) by congruence.
  assert (delete c (<[c := t]> (<[w := o]> (weak s))) = <[w := o]> (delete w (weak s)))
    as Hst.
  { apply map_eq. intros k. rewrite !lookup_delete, !lookup_insert, ?lookup_delete.
    repeat case_decide; simplify_eq; done. }
  unfold_M. rewrite (WeakPtr_dtor_release w s), Hw.
  destruct o as [[l|]]; simpl in *.
  - assert (wblock t ≠ Some l) as Htl by (destruct Hdiff; congruence).
    destruct (heap s !! l) as [blk|] eqn:Hl.
    + rewrite WeakPtr_dtor_release. simpl. rewrite lookup_insert_eq.
      rewrite release_weak_insert_other by done.
      destruct (release_weak t (heap s) (trace s)) as [[h' tr']|] eqn:Hr; [|done].
      simpl. rewrite WeakPtr_copy_eq. simpl.
      rewrite lookup_delete_ne, Hv, lookup_delete_eq by done.
      rewrite (release_weak_lookup_other _ _ _ _ _ l Hr Htl), Hl.
      by rewrite Hst.
    + destruct (release_weak t (heap s) (trace s)) as [[h' tr']|] eqn:Hr; [|done].
      rewrite WeakPtr_copy_eq. simpl.
      rewrite lookup_delete_ne, Hv, lookup_delete_eq by done.
      by rewrite (release_weak_lookup_other _ _ _ _ _ l Hr Htl), Hl.
  - destruct (release_weak t (heap s) (trace s)) as [[h' tr']|] eqn:Hr; [|done].
    rewrite WeakPtr_copy_eq. simpl.
    by rewrite lookup_delete_ne, Hv by done.
Qed.

Lemma WeakPtr_assign_is_destroy_then_copy_witness :
  ∃ s, run [OpMakeShared 0 42 true; OpWeakFromShared 0 0; OpWeakDefault 1] init = Some s ∧
       WeakPtr_assign 1 0 s = (WeakPtr_dtor 1;; WeakPtr_copy 1 0) s ∧
       WeakPtr_move_assign 1 0 s = (WeakPtr_dtor 1;; WeakPtr_copy 1 0) s.
Proof.
  eexists. split; [vm_compute; reflexivity|].
  match goal with
  | |- WeakPtr_assign _ _ ?s = _ ∧ _ =>
      apply (WeakPtr_assign_is_destroy_then_copy 1%nat 0%nat s
               (mkWeak None) (mkWeak (Some 1%positive)))
  end.
  - discriminate.
  - vm_compute. reflexivity.
  - vm_compute. reflexivity.
  - right. reflexivity.
Defined.

(** What the destructor of an owner leaves in the two stores. *)
Lemma WeakPtr_dtor_stores w s s' :
  WeakPtr_dtor w s = Ok tt s' -> strong s' = strong s ∧ weak s' = delete w (weak s).
Proof.
  rewrite WeakPtr_dtor_release. repeat case_match; try done. by intros [= <-].
Qed.

(** X17. Move assignment of a [WeakPtr] copies: the target takes the
    block of the source, and the source keeps it (the local object is
    copy-constructed, the argument being a named reference inside the
    operator); no [SharedPtr] changes. *)
Theorem WeakPtr_move_assign_copies w v s s' t o :
  w ≠ v -> weak s !! w = Some t -> weak s !! v = Some o ->
  WeakPtr_move_assign w v s = Ok tt s' ->
  is_Some (wblock o) ∧ weak s' = <[w := o]> (weak s) ∧ weak s' !! v = Some o ∧
  strong s' = strong s.
Proof.
  intros Hne Hw Hv Hrun.
  change (WeakPtr_move_assign w v s) with (WeakPtr_assign w v s) in Hrun.
  rewrite (WeakPtr_assign_eq w v s t o Hne Hw Hv) in Hrun. cbv zeta in Hrun.
  pose proof (fresh_weak_None s) as Hc.
  set (c := fresh (dom (weak s))) in *.
  assert (c ≠ w) by congruence.
  destruct (wblock o) as [l|] eqn:Ho; [|done].
  destruct (heap s !! l) as [blk|]; [|done].
  apply WeakPtr_dtor_stores in Hrun as [Hs Hwk]. simpl in *.
  assert (weak s' = <[w := o]> (weak s)) as Heq.
  { rewrite Hwk. apply map_eq. intros k.
    rewrite !lookup_delete, !lookup_insert.
    repeat case_decide; simplify_eq; done. }
  split_and!; [by eexists|done| |done].
  rewrite Heq. by rewrite lookup_insert_ne.
Qed.

Lemma WeakPtr_move_assign_copies_witness :
  ∃ s s', run [OpMakeShared 0 42 true; OpWeakFromShared 0 0; OpWeakDefault 1] init = Some s ∧
          WeakPtr_move_assign 1 0 s = Ok tt s' ∧
          weak s' !! 0%nat = Some (mkWeak (Some 1%positive)).
Proof.
  eexists. eexists. split; [vm_compute; reflexivity|].
  match goal with
  | |- WeakPtr_move_assign _ _ ?s = _ ∧ _ =>
      eassert (WeakPtr_move_assign 1 0 s = Ok tt _) as Hm
  end.
  { vm_compute. reflexivity. }
  split; [exact Hm|].
  match type of Hm with
  | WeakPtr_move_assign _ _ ?s = Ok tt ?s' =>
      destruct (WeakPtr_move_assign_copies 1%nat 0%nat s s'
                  (mkWeak None) (mkWeak (Some 1%positive)))
        as (_ & _ & Hv & _); [discriminate|vm_compute; reflexivity..|exact Hm|]
  end.
  exact Hv.
Defined.

(** X18. Assigning a [WeakPtr] bound to a block to itself, by copy or by
    move, leaves the whole state as it was. *)
Theorem WeakPtr_self_assign_is_identity w s l blk :
  weak s !! w = Some (mkWeak (Some l)) -> heap s !! l = Some blk ->
  0 < weak_count blk -> weak_count blk + 1 < size_t_modulus ->
  WeakPtr_assign w w s = Ok tt s ∧ WeakPtr_move_assign w w s = Ok tt s.
Proof.
  intros Hw Hl H0 Hmax.
  assert (WeakPtr_assign w w s = Ok tt s) as Heq; [|done].
  unfold WeakPtr_assign, local_weak. unfold_M.
  pose proof (fresh_weak_None s) as Hc.
  set (c := fresh (dom (weak s))) in *.
  assert (c ≠ w) by congruence.
  rewrite WeakPtr_copy_eq, Hw, Hc, Hl.
  rewrite WeakPtr_swap_eq. simpl.
  rewrite lookup_insert_ne, Hw, lookup_insert_eq by done.
  rewrite WeakPtr_dtor_eq. unfold set_weak. simpl.
  rewrite !lookup_insert_eq. simpl. rewrite lookup_insert_eq. cbv zeta. simpl.
  rewrite size_t_decr_incr by lia. rewrite decide_False by lia.
  f_equal. apply state_ext; simpl; try done.
  - rewrite insert_insert_eq. unfold set_weak_count at 1. simpl.
    fold (set_weak_count (weak_count blk) blk). rewrite set_weak_count_id.
    by apply insert_id.
  - apply map_eq. intros k. rewrite !lookup_delete, !lookup_insert.
    repeat case_decide; simplify_eq; done.
Qed.

Lemma WeakPtr_self_assign_is_identity_witness :
  ∃ s, run [OpMakeShared 0 42 true; OpWeakFromShared 0 0] init = Some s ∧
       WeakPtr_assign 0 0 s = Ok tt s ∧ WeakPtr_move_assign 0 0 s = Ok tt s.
Proof.
  eexists. split; [vm_compute; reflexivity|].
  match goal with
  | |- WeakPtr_assign _ _ ?s = _ ∧ _ =>
      apply (WeakPtr_self_assign_is_identity 0%nat s 1%positive
               (mkBlock 1 1 (ControlBlockMakeShared default_allocator 42)))
  end.
  - vm_compute. reflexivity.
  - vm_compute. reflexivity.
  - reflexivity.
  - reflexivity.
Defined.

(** ** The pointer member *)

Section null_when_empty.

Ltac null_step eq :=
  let Hrun := fresh "Hrun" in let Hp := fresh "Hp" in
  let z := fresh "z" in let v := fresh "v" in
  let Hz := fresh "Hz" in let Hv := fresh "Hv" in
  intros Hrun Hp; rewrite eq in Hrun; cbv zeta in Hrun;
  repeat case_match; simplify_eq;
  intros z v Hz Hv; simpl in Hz;
  repeat (rewrite lookup_insert in Hz; case_decide; simplify_eq);
  try (apply lookup_delete_Some in Hz as [_ Hz]);
  try done; eauto.

Lemma SharedPtr_default_null x s s' :
  SharedPtr_default x s = Ok tt s' -> null_when_empty s -> null_when_empty s'.
Proof. null_step SharedPtr_default_eq. Qed.

Lemma SharedPtr_from_raw_null x p del alloc ok s s' :
  SharedPtr_from_raw x p del alloc ok s = Ok tt s' -> null_when_empty s -> null_when_empty s'.
Proof. null_step SharedPtr_from_raw_eq. Qed.

Lemma SharedPtr_in_place_null x alloc args ok s s' :
  SharedPtr_in_place x alloc args ok s = Ok tt s' -> null_when_empty s -> null_when_empty s'.
Proof. null_step SharedPtr_in_place_eq. Qed.

Lemma SharedPtr_copy_null x y s s' :
  SharedPtr_copy x y s = Ok tt s' -> null_when_empty s -> null_when_empty s'.
Proof. null_step SharedPtr_copy_eq. Qed.

Lemma SharedPtr_move_null x y s s' :
  SharedPtr_move x y s = Ok tt s' -> null_when_empty s -> null_when_empty s'.
Proof. null_step SharedPtr_move_eq. Qed.

Lemma SharedPtr_swap_null x y s s' :
  SharedPtr_swap x y s = Ok tt s' -> null_when_empty s -> null_when_empty s'.
Proof. null_step SharedPtr_swap_eq. Qed.

Lemma SharedPtr_from_weak_null x w s s' :
  SharedPtr_from_weak x w s = Ok tt s' -> null_when_empty s -> null_when_empty s'.
Proof. null_step SharedPtr_from_weak_eq. Qed.

Lemma SharedPtr_dtor_null x s s' :
  SharedPtr_dtor x s = Ok tt s' -> null_when_empty s -> null_when_empty s'.
Proof. null_step SharedPtr_dtor_eq. Qed.

Lemma WeakPtr_default_null w s s' :
  WeakPtr_default w s = Ok tt s' -> null_when_empty s -> null_when_empty s'.
Proof. null_step WeakPtr_default_eq. Qed.

Lemma WeakPtr_from_shared_null w x s s' :
  WeakPtr_from_shared w x s = Ok tt s' -> null_when_empty s -> null_when_empty s'.
Proof. null_step WeakPtr_from_shared_eq. Qed.

Lemma WeakPtr_copy_null w v s s' :
  WeakPtr_copy w v s = Ok tt s' -> null_when_empty s -> null_when_empty s'.
Proof. null_step WeakPtr_copy_eq. Qed.

Lemma WeakPtr_move_null w v s s' :
  WeakPtr_move w v s = Ok tt s' -> null_when_empty s -> null_when_empty s'.
Proof. null_step WeakPtr_move_eq. Qed.

Lemma WeakPtr_swap_null w v s s' :
  WeakPtr_swap w v s = Ok tt s' -> null_when_empty s -> null_when_empty s'.
Proof. null_step WeakPtr_swap_eq. Qed.

Lemma WeakPtr_dtor_null w s s' :
  WeakPtr_dtor w s = Ok tt s' -> null_when_empty s -> null_when_empty s'.
Proof. null_step WeakPtr_dtor_eq. Qed.

Local Abbreviation keeps c :=
  (triple null_when_empty c (λ _, null_when_empty) null_when_empty).

(** An operation that keeps the property when it completes, and changes
    nothing when it throws. *)
Lemma triple_null (c : M unit) :
  (∀ s s', c s = Ok tt s' -> null_when_empty s -> null_when_empty s') ->
  (∀ s s', c s = Throw s' -> s' = s) ->
  keeps c.
Proof.
  intros Hc Hthrow s Hp.
  destruct (c s) as [[] s'|s'|] eqn:Hr; [| |done].
  - by apply (Hc s s').
  - by rewrite (Hthrow s s' Hr).
Qed.

Ltac never X := let H := fresh in intros ? ? H; by apply X in H.

Lemma triple_null_SharedPtr_default x : keeps (SharedPtr_default x).
Proof. apply triple_null; [apply SharedPtr_default_null|never SharedPtr_default_no_throw]. Qed.

Lemma triple_null_SharedPtr_from_raw x p del alloc ok :
  keeps (SharedPtr_from_raw x p del alloc ok).
Proof.
  apply triple_null; [apply SharedPtr_from_raw_null|].
  intros s s' H. by destruct (SharedPtr_from_raw_throw _ _ _ _ _ _ _ H).
Qed.

Lemma triple_null_SharedPtr_in_place x alloc args ok :
  keeps (SharedPtr_in_place x alloc args ok).
Proof.
  apply triple_null; [apply SharedPtr_in_place_null|].
  intros s s' H. by destruct (SharedPtr_in_place_throw _ _ _ _ _ _ H).
Qed.

Lemma triple_null_SharedPtr_copy x y : keeps (SharedPtr_copy x y).
Proof. apply triple_null; [apply SharedPtr_copy_null|never SharedPtr_copy_no_throw]. Qed.

Lemma triple_null_SharedPtr_move x y : keeps (SharedPtr_move x y).
Proof. apply triple_null; [apply SharedPtr_move_null|never SharedPtr_move_no_throw]. Qed.

Lemma triple_null_SharedPtr_swap x y : keeps (SharedPtr_swap x y).
Proof. apply triple_null; [apply SharedPtr_swap_null|never SharedPtr_swap_no_throw]. Qed.

Lemma triple_null_SharedPtr_from_weak x w : keeps (SharedPtr_from_weak x w).
Proof.
  apply triple_null; [apply SharedPtr_from_weak_null|never SharedPtr_from_weak_no_throw].
Qed.

Lemma triple_null_SharedPtr_dtor x : keeps (SharedPtr_dtor x).
Proof. apply triple_null; [apply SharedPtr_dtor_null|never SharedPtr_dtor_no_throw]. Qed.

Lemma triple_null_WeakPtr_default w : keeps (WeakPtr_default w).
Proof. apply triple_null; [apply WeakPtr_default_null|never WeakPtr_default_no_throw]. Qed.

Lemma triple_null_WeakPtr_from_shared w x : keeps (WeakPtr_from_shared w x).
Proof.
  apply triple_null; [apply WeakPtr_from_shared_null|never WeakPtr_from_shared_no_throw].
Qed.

Lemma triple_null_WeakPtr_copy w v : keeps (WeakPtr_copy w v).
Proof. apply triple_null; [apply WeakPtr_copy_null|never WeakPtr_copy_no_throw]. Qed.

Lemma triple_null_WeakPtr_move w v : keeps (WeakPtr_move w v).
Proof. apply triple_null; [apply WeakPtr_move_null|never WeakPtr_move_no_throw]. Qed.

Lemma triple_null_WeakPtr_swap w v : keeps (WeakPtr_swap w v).
Proof. apply triple_null; [apply WeakPtr_swap_null|never WeakPtr_swap_no_throw]. Qed.

Lemma triple_null_WeakPtr_dtor w : keeps (WeakPtr_dtor w).
Proof. apply triple_null; [apply WeakPtr_dtor_null|never WeakPtr_dtor_no_throw]. Qed.

Lemma triple_null_SharedPtr_assign x y : keeps (SharedPtr_assign x y).
Proof.
  unfold SharedPtr_assign.
  eapply triple_bind; [apply triple_local_shared|]. intros c.
  eapply triple_bind; [apply triple_null_SharedPtr_copy|]. intros ?.
  eapply triple_bind; [apply triple_null_SharedPtr_swap|]. intros ?.
  apply triple_null_SharedPtr_dtor.
Qed.

Lemma triple_null_SharedPtr_move_assign x y : keeps (SharedPtr_move_assign x y).
Proof.
  unfold SharedPtr_move_assign.
  eapply triple_bind; [apply triple_local_shared|]. intros c.
  eapply triple_bind; [apply triple_null_SharedPtr_move|]. intros ?.
  eapply triple_bind; [apply triple_null_SharedPtr_swap|]. intros ?.
  apply triple_null_SharedPtr_dtor.
Qed.

Lemma triple_null_SharedPtr_reset x : keeps (SharedPtr_reset x).
Proof.
  unfold SharedPtr_reset.
  eapply triple_bind; [apply triple_local_shared|]. intros tmp.
  eapply triple_bind; [apply triple_null_SharedPtr_default|]. intros ?.
  eapply triple_bind; [apply triple_null_SharedPtr_move_assign|]. intros ?.
  apply triple_null_SharedPtr_dtor.
Qed.

Lemma triple_null_SharedPtr_reset_to x p ok : keeps (SharedPtr_reset_to x p ok).
Proof.
  unfold SharedPtr_reset_to.
  eapply triple_bind; [apply triple_local_shared|]. intros tmp.
  eapply triple_bind; [apply triple_null_SharedPtr_from_raw|]. intros ?.
  eapply triple_bind; [apply triple_null_SharedPtr_move_assign|]. intros ?.
  apply triple_null_SharedPtr_dtor.
Qed.

Lemma triple_null_WeakPtr_assign w v : keeps (WeakPtr_assign w v).
Proof.
  unfold WeakPtr_assign.
  eapply triple_bind; [apply triple_local_weak|]. intros c.
  eapply triple_bind; [apply triple_null_WeakPtr_copy|]. intros ?.
  eapply triple_bind; [apply triple_null_WeakPtr_swap|]. intros ?.
  apply triple_null_WeakPtr_dtor.
Qed.

Lemma triple_null_WeakPtr_lock x w : keeps (WeakPtr_lock x w).
Proof.
  intros s Hp. rewrite WeakPtr_lock_eq.
  destruct (weak s !! w) as [[[l|]]|]; try done.
  destruct (heap s !! l) as [blk|]; [|done].
  case_decide.
  - by apply triple_null_SharedPtr_default.
  - by apply triple_null_SharedPtr_from_weak.
Qed.

Lemma triple_null_step op : keeps (step op).
Proof.
  destruct op; simpl step.
  - apply triple_null_SharedPtr_default.
  - apply triple_null_SharedPtr_from_raw.
  - apply triple_null_SharedPtr_in_place.
  - apply triple_null_SharedPtr_in_place.
  - apply triple_null_SharedPtr_copy.
  - apply triple_null_SharedPtr_move.
  - apply triple_null_SharedPtr_from_weak.
  - apply triple_null_SharedPtr_assign.
  - apply triple_null_SharedPtr_move_assign.
  - apply triple_null_SharedPtr_reset.
  - apply triple_null_SharedPtr_reset_to.
  - apply triple_null_SharedPtr_swap.
  - apply triple_null_SharedPtr_dtor.
  - apply triple_null_WeakPtr_default.
  - apply triple_null_WeakPtr_from_shared.
  - apply triple_null_WeakPtr_copy.
  - apply triple_null_WeakPtr_move.
  - apply triple_null_WeakPtr_assign.
  - apply triple_null_WeakPtr_assign.
  - apply triple_null_WeakPtr_swap.
  - apply triple_null_WeakPtr_lock.
  - apply triple_null_WeakPtr_dtor.
Qed.
End null_when_empty.

Lemma run_null_when_empty ops : ∀ s s',
  null_when_empty s -> run ops s = Some s' -> null_when_empty s'.
Proof.
  induction ops as [|op ops IH]; intros s s' Hp Hrun; cbn [run] in Hrun.
  - by simplify_eq.
  - pose proof (triple_null_step op s Hp) as Hstep.
    destruct (step op s) as [[] s1|s1|]; cbn [after] in Hrun; [| |done];
      by apply (IH s1).
Qed.

Lemma SharedPtr_get_eq x s :
  SharedPtr_get x s =
  match strong s !! x with
  | Some v => Ok (ptr v) s
  | None => Undefined
  end.
Proof.
  unfold SharedPtr_get. unfold_prims. unfold_M. by destruct (strong s !! x).
Qed.

(** X20. In every state a program reaches, [get] and [operator->] on an
    empty [SharedPtr] (default-constructed, moved from, or emptied by an
    assignment or a [reset]) return the null pointer: the two members
    [ptr] and [block] are never left half-updated in a live object. *)
Theorem get_of_an_empty_owner_is_null ops s x v :
  run ops init = Some s ->
  strong s !! x = Some v -> block v = None ->
  SharedPtr_get x s = Ok nullptr s ∧ SharedPtr_arrow x s = Ok nullptr s.
Proof.
  intros Hrun Hx Hv.
  assert (null_when_empty init) as H0.
  { intros z u Hz. simpl in Hz. by rewrite lookup_empty in Hz. }
  pose proof (run_null_when_empty ops init s H0 Hrun x v Hx Hv) as Hnull.
  rewrite SharedPtr_get_eq, Hx, Hnull. split; [done|].
  unfold SharedPtr_arrow. unfold_prims. unfold_M. by rewrite Hx, Hnull.
Qed.

Lemma get_of_an_empty_owner_is_null_witness :
  ∃ s, run [OpSharedFromRaw 0 (raw_object 7) 3%N default_allocator true; OpSharedCopy 1 0;
            OpSharedMove 2 0; OpSharedReset 1] init = Some s ∧
       SharedPtr_get 0 s = Ok nullptr s ∧ SharedPtr_get 1 s = Ok nullptr s ∧
       SharedPtr_get 2 s = Ok (raw_object 7) s.
Proof.
  eexists. split; [vm_compute; reflexivity|].
  match goal with
  | |- SharedPtr_get _ ?s = _ ∧ _ =>
      destruct (get_of_an_empty_owner_is_null
                  [OpSharedFromRaw 0 (raw_object 7) 3%N default_allocator true;
                   OpSharedCopy 1 0; OpSharedMove 2 0; OpSharedReset 1] s 0%nat
                  (mkShared nullptr None))
        as (Hg0 & _); [vm_compute; reflexivity..|];
      destruct (get_of_an_empty_owner_is_null
                  [OpSharedFromRaw 0 (raw_object 7) 3%N default_allocator true;
                   OpSharedCopy 1 0; OpSharedMove 2 0; OpSharedReset 1] s 1%nat
                  (mkShared nullptr None))
        as (Hg1 & _); [vm_compute; reflexivity..|]
  end.
  split; [exact Hg0|]. split; [exact Hg1|]. vm_compute. reflexivity.
Defined.

(** ** Construction of a [WeakPtr] *)

(** X21. In every state a program reaches, building a [WeakPtr] from a
    [SharedPtr] bound to a block, or copying a [WeakPtr] bound to a
    block, binds the new object to that block and takes its [weak_count]
    up by one; [shared_count], every other block, the [SharedPtr]s and
    the calls stay as they are. *)
Theorem WeakPtr_construction_counts_one_observer ops s w :
  Z.of_nat (length ops) + 2 < size_t_modulus ->
  run ops init = Some s ->
  weak s !! w = None ->
  (∀ x v l, strong s !! x = Some v -> block v = Some l ->
     ∃ blk, heap s !! l = Some blk ∧
       WeakPtr_from_shared w x s =
         Ok tt (mkState (<[l := set_weak_count (weak_count blk + 1) blk]> (heap s))
                  (next s) (trace s) (strong s) (<[w := mkWeak (Some l)]> (weak s)))) ∧
  (∀ w' v l, weak s !! w' = Some v -> wblock v = Some l ->
     ∃ blk, heap s !! l = Some blk ∧
       WeakPtr_copy w w' s =
         Ok tt (mkState (<[l := set_weak_count (weak_count blk + 1) blk]> (heap s))
                  (next s) (trace s) (strong s) (<[w := mkWeak (Some l)]> (weak s)))).
Proof.
  intros Hlen Hrun Hw. destruct (reachable_Inv_at ops s Hlen Hrun) as [HI Hb].
  split.
  - intros x [p b] l Hx Hbl. simpl in Hbl. subst b.
    destruct (Inv_strong_live _ _ _ _ _ _ HI Hb Hx eq_refl) as (blk & Hl & _ & _ & H0 & Hmax).
    exists blk. split; [done|].
    rewrite WeakPtr_from_shared_eq, Hx, Hw, Hl. by rewrite size_t_incr_small.
  - intros w' [b] l Hw' Hbl. simpl in Hbl. subst b.
    destruct (Inv_weak_live _ _ _ _ _ _ HI Hb Hw' eq_refl) as (blk & Hl & _ & _ & H0 & Hmax).
    exists blk. split; [done|].
    rewrite WeakPtr_copy_eq, Hw', Hw, Hl. rewrite size_t_incr_small by lia. done.
Qed.

Lemma WeakPtr_construction_counts_one_observer_witness :
  ∃ s, run [OpMakeShared 0 42 true; OpWeakFromShared 0 0] init = Some s ∧
       ∃ s', WeakPtr_copy 1 0 s = Ok tt s' ∧
             weak_count <$> heap s' !! 1%positive = Some 2 ∧
             shared_count <$> heap s' !! 1%positive = Some 1.
Proof.
  eexists. split; [vm_compute; reflexivity|].
  match goal with
  | |- ∃ s', WeakPtr_copy _ _ ?s = _ ∧ _ =>
      destruct (WeakPtr_construction_counts_one_observer
                  [OpMakeShared 0 42 true; OpWeakFromShared 0 0] s 1%nat)
        as (_ & Hc); [vm_compute; reflexivity..|];
      destruct (Hc 0%nat (mkWeak (Some 1%positive)) 1%positive) as (blk & Hl & Hr);
        [vm_compute; reflexivity|reflexivity|]
  end.
  vm_compute in Hl. injection Hl as <-.
  eexists. split; [exact Hr|]. split; vm_compute; reflexivity.
Defined.

(** ** A [SharedPtr] built from an expired [WeakPtr] *)

(** X22. The constructor from a [WeakPtr] does not check that the object
    is alive: built from a [WeakPtr] whose block has [shared_count] 0 and
    destroyed, the [SharedPtr] makes the block run [destroy_ptr] once
    more. *)
Theorem SharedPtr_from_expired_tears_down_again x w s l blk :
  weak s !! w = Some (mkWeak (Some l)) -> heap s !! l = Some blk ->
  strong s !! x = None ->
  shared_count blk = 0 -> weak_count blk ≠ 0 ->
  (SharedPtr_from_weak x w;; SharedPtr_dtor x) s =
    Ok tt (mkState (<[l := mkBlock 0 (weak_count blk) (torn_down (variant blk))]> (heap s))
             (next s)
             (trace s ++ [mkEvent l 0 (weak_count blk) (teardown_call (variant blk))])
             (strong s) (weak s)).
Proof.
  intros Hw Hl Hx Hz Hwc. unfold_M.
  rewrite SharedPtr_from_weak_eq, Hw, Hl, Hx.
  rewrite SharedPtr_dtor_eq. simpl. rewrite !lookup_insert_eq. simpl.
  rewrite lookup_insert_eq. cbv zeta. simpl. rewrite Hz.
  change (size_t_decr (size_t_incr 0)) with 0.
  rewrite decide_False by (intros H; by apply H).
  rewrite decide_False by done.
  f_equal. f_equal.
  - by rewrite insert_insert_eq.
  - by apply delete_insert_id.
Qed.

Lemma SharedPtr_from_expired_tears_down_again_witness :
  ∃ s, run [OpSharedFromRaw 0 (raw_object 7) 3%N default_allocator true;
            OpWeakFromShared 0 0; OpSharedDestroy 0] init = Some s ∧
       ∃ s', (SharedPtr_from_weak 1 0;; SharedPtr_dtor 1) s = Ok tt s' ∧
             map ev_call (teardowns 1%positive (trace s')) =
               [call_deleter 3%N (raw_object 7); call_deleter 3%N nullptr].
Proof.
  eexists. split; [vm_compute; reflexivity|].
  eexists. split.
  - match goal with
    | |- _ ?s = _ =>
        apply (SharedPtr_from_expired_tears_down_again 1%nat 0%nat s 1%positive
                 (mkBlock 0 1 (ControlBlockRegular nullptr 3%N default_allocator)))
    end.
    + vm_compute. reflexivity.
    + vm_compute. reflexivity.
    + vm_compute. reflexivity.
    + reflexivity.
    + discriminate.
  - vm_compute. reflexivity.
Defined.
